(** * Speculative prompt caching (misc/speculative_prompt_caching.ipynb)

    A shallow embedding of the notebook's helper functions and of its two
    demonstrations.  Python objects that the code mutates or copies
    (the message dicts, their content lists, DEFAULT_CLIENT_ARGS) live in
    an explicit heap, so that aliasing and [copy.deepcopy] are modelled as
    the code has them.  The coroutines run in a state and exception monad
    whose state carries the heap, the wall clock (in milliseconds) and the
    log of observable events (requests sent to the service, timers and
    tasks joined, printed statistics).  Other console progress lines are
    not modelled. *)

From Stdlib Require Import ZArith String Ascii List Lia.
From Stdlib Require Import Reals Lra Floats.SpecFloat.
From stdpp Require Import base gmap strings list.

Open Scope Z_scope.
#[local] Set Warnings "-register-all".


(* ------------------------------------------------------------------ *)
(** ** Python strings: [str(int)], [str.strip] *)

Definition digit_char (d : Z) : ascii := ascii_of_nat (48 + Z.to_nat d).

(** Decimal digits of a non-negative integer, most significant first. *)
Fixpoint digits_acc (fuel : nat) (n : Z) (acc : string) : string :=
  match fuel with
  | O => acc
  | S f =>
      let acc' := String (digit_char (n mod 10)) acc in
      if n <? 10 then acc' else digits_acc f (n / 10) acc'
  end.

(** [str(n)] / [f"{n}"] for a Python int. *)
Definition py_str_int (n : Z) : string :=
  if n <? 0
  then String "-" (digits_acc (S (Z.to_nat (Z.log2 (- n)))) (- n) EmptyString)
  else digits_acc (S (Z.to_nat (Z.log2 n))) n EmptyString.

(** A Python [str] as the sequence of its Unicode code points.  The texts
    the stream yields are such strings; the program only strips them and
    tests them for emptiness. *)
Definition pystr := list Z.

(** The [str] with the characters of an ASCII literal. *)
Definition pystr_of_ascii (s : string) : pystr :=
  map (fun c => Z.of_nat (nat_of_ascii c)) (list_ascii_of_string s).

(** [str.isspace] on one code point: the characters Python counts as
    whitespace (bidirectional class WS, B or S, or category Zs): tab, LF,
    VT, FF, CR, the separators U+001C-U+001F, space, U+0085, U+00A0,
    U+1680, U+2000-U+200A, U+2028, U+2029, U+202F, U+205F and U+3000. *)
Definition py_isspace (c : Z) : bool :=
  ((9 <=? c) && (c <=? 13)) || ((28 <=? c) && (c <=? 32)) ||
  (c =? 133) || (c =? 160) || (c =? 5760) ||
  ((8192 <=? c) && (c <=? 8202)) || (c =? 8232) || (c =? 8233) ||
  (c =? 8239) || (c =? 8287) || (c =? 12288).

Fixpoint lstrip_list (cs : pystr) : pystr :=
  match cs with
  | [] => []
  | c :: cs' => if py_isspace c then lstrip_list cs' else cs
  end.

(** [str.strip()] with no argument. *)
Definition py_strip (s : pystr) : pystr :=
  rev (lstrip_list (rev (lstrip_list s))).

(** Truthiness of a Python string. *)
Definition py_truthy (s : pystr) : bool :=
  match s with [] => false | _ => true end.

Definition nl : string := String (ascii_of_nat 10) EmptyString.
Definition tab : string := String (ascii_of_nat 9) EmptyString.

(* ------------------------------------------------------------------ *)
(** ** [datetime.now().strftime("%Y-%m-%d %H:%M:%S")] *)

Record datetime := mk_datetime {
  dt_year : Z; dt_month : Z; dt_day : Z;
  dt_hour : Z; dt_minute : Z; dt_second : Z; dt_microsecond : Z
}.

(** The fields of a [datetime] object, for a four-digit year. *)
Definition valid_datetime (d : datetime) : bool :=
  (1000 <=? dt_year d) && (dt_year d <=? 9999) &&
  (1 <=? dt_month d) && (dt_month d <=? 12) &&
  (1 <=? dt_day d) && (dt_day d <=? 31) &&
  (0 <=? dt_hour d) && (dt_hour d <=? 23) &&
  (0 <=? dt_minute d) && (dt_minute d <=? 59) &&
  (0 <=? dt_second d) && (dt_second d <=? 59) &&
  (0 <=? dt_microsecond d) && (dt_microsecond d <=? 999999).

(** [%m], [%d], [%H], [%M], [%S]: zero padded to two digits. *)
Definition pad2 (n : Z) : string :=
  if n <? 10 then "0" +:+ py_str_int n else py_str_int n.

Definition strftime_ts (d : datetime) : string :=
  py_str_int (dt_year d) +:+ "-" +:+ pad2 (dt_month d) +:+ "-" +:+
  pad2 (dt_day d) +:+ " " +:+ pad2 (dt_hour d) +:+ ":" +:+
  pad2 (dt_minute d) +:+ ":" +:+ pad2 (dt_second d).

(* ------------------------------------------------------------------ *)
(** ** Python objects and their JSON serialisation *)

Definition loc := nat.

(** Values: immutable atoms, or a reference to a heap object. *)
Inductive val :=
  | VNone
  | VInt (z : Z)
  | VStr (s : string)
  | VRef (l : loc).

(** Mutable objects.  A dict keeps its insertion order, which is the
    order of its serialisation, so it is an association list. *)
Inductive obj :=
  | ODict (kvs : list (string * val))
  | OList (xs : list val).

Inductive json :=
  | JNone
  | JInt (z : Z)
  | JStr (s : string)
  | JObj (kvs : list (string * json))
  | JArr (xs : list json).

Definition heap := loc -> option obj.

Definition upd (h : heap) (l : loc) (o : obj) : heap :=
  fun l' => if Nat.eqb l' l then Some o else h l'.

(** Depth bound for the recursive walks below; the program's objects are
    trees of depth at most four (message, content list, block,
    cache_control). *)
Definition FUEL : nat := 8.

(** The bytes the client sends for a value: the object graph read from
    the heap at the time of the call. *)
Fixpoint to_json (fuel : nat) (h : heap) (v : val) : json :=
  match v with
  | VNone => JNone
  | VInt z => JInt z
  | VStr s => JStr s
  | VRef l =>
      match fuel with
      | O => JNone
      | S f =>
          match h l with
          | Some (ODict kvs) => JObj (map (fun '(k, x) => (k, to_json f h x)) kvs)
          | Some (OList xs) => JArr (map (to_json f h) xs)
          | None => JNone
          end
      end
  end.

(** [d[k] = v] on the entries of a dict. *)
Fixpoint dict_set (kvs : list (string * val)) (k : string) (v : val)
  : list (string * val) :=
  match kvs with
  | [] => [(k, v)]
  | (k', v') :: r =>
      if String.eqb k k' then (k, v) :: r else (k', v') :: dict_set r k v
  end.

Fixpoint dict_get (kvs : list (string * val)) (k : string) : option val :=
  match kvs with
  | [] => None
  | (k', v') :: r => if String.eqb k k' then Some v' else dict_get r k
  end.

(* ------------------------------------------------------------------ *)
(** ** Exceptions, events, the monad *)

Inductive exc :=
  | KeyError (k : string)
  | TypeError
  | HTTPStatusError (status : Z)
  | ReadTimeout
  | APIError (what : string).

(** Which client method sent a request: [client.messages.create] is only
    used by the probe, [client.messages.stream] only by the real query. *)
Inductive call_kind := ProbeCall | FinalCall.

Inductive event :=
  | ESend (k : call_kind) (request : json) (t : Z)
  | ESlept (t : Z)
  | ETaskJoined (done_at : Z)
  | EPrint (line : string).

Record state := mk_state {
  heap_of : heap;
  next_loc : loc;
  clock : Z;
  out : list event
}.

Definition M (A : Type) : Type := state -> (exc + A) * state.

Definition ret {A} (x : A) : M A := fun st => (inr x, st).

Definition bind {A B} (m : M A) (k : A -> M B) : M B :=
  fun st =>
    match m st with
    | (inl e, st') => (inl e, st')
    | (inr x, st') => k x st'
    end.

Notation "'do' x <- m ; k" := (bind m (fun x => k))
  (at level 200, x name, m at level 100, right associativity).

Definition raise {A} (e : exc) : M A := fun st => (inl e, st).

Definition get_time : M Z := fun st => (inr (clock st), st).

Definition set_clock (t : Z) : M unit :=
  fun st => (inr tt, mk_state (heap_of st) (next_loc st) t (out st)).

Definition emit (ev : event) : M unit :=
  fun st => (inr tt, mk_state (heap_of st) (next_loc st) (clock st) (out st ++ [ev])).

Definition alloc (o : obj) : M val :=
  fun st =>
    (inr (VRef (next_loc st)),
     mk_state (upd (heap_of st) (next_loc st) o) (S (next_loc st)) (clock st) (out st)).

Definition peek (l : loc) : M (option obj) := fun st => (inr (heap_of st l), st).

Definition store (l : loc) (o : obj) : M unit :=
  fun st => (inr tt, mk_state (upd (heap_of st) l o) (next_loc st) (clock st) (out st)).

Fixpoint mapM {A B} (f : A -> M B) (xs : list A) : M (list B) :=
  match xs with
  | [] => ret []
  | x :: r => do y <- f x; do ys <- mapM f r; ret (y :: ys)
  end.

(** [d[k] = v] on a dict object. *)
Definition setitem (d : val) (k : string) (v : val) : M unit :=
  match d with
  | VRef l =>
      do o <- peek l;
      match o with
      | Some (ODict kvs) => store l (ODict (dict_set kvs k v))
      | _ => raise TypeError
      end
  | _ => raise TypeError
  end.

(** [d[k]] on a dict object. *)
Definition getitem (d : val) (k : string) : M val :=
  match d with
  | VRef l =>
      do o <- peek l;
      match o with
      | Some (ODict kvs) =>
          match dict_get kvs k with Some v => ret v | None => raise (KeyError k) end
      | _ => raise TypeError
      end
  | _ => raise TypeError
  end.

(** [xs.append(v)] on a list object. *)
Definition list_append (xs : val) (v : val) : M unit :=
  match xs with
  | VRef l =>
      do o <- peek l;
      match o with
      | Some (OList ys) => store l (OList (ys ++ [v]))
      | _ => raise TypeError
      end
  | _ => raise TypeError
  end.

(** [copy.deepcopy]: every dict and list reachable from the value is
    copied into fresh objects; atoms (ints, strings, None) are shared, as
    Python shares immutable values.  The memo table of [deepcopy] only
    matters for shared or cyclic graphs, which the program never builds. *)
Fixpoint deepcopy (fuel : nat) (v : val) : M val :=
  match v with
  | VRef l =>
      match fuel with
      | O => ret VNone
      | S f =>
          do o <- peek l;
          match o with
          | Some (ODict kvs) =>
              do kvs' <- mapM (fun '(k, x) => do x' <- deepcopy f x; ret (k, x')) kvs;
              alloc (ODict kvs')
          | Some (OList xs) =>
              do xs' <- mapM (deepcopy f) xs;
              alloc (OList xs')
          | None => ret VNone
          end
      end
  | _ => ret v
  end.

(** Values whose object graph is a tree of depth at most [fuel]: the
    objects on which the walks above never run out of fuel, so that
    [deepcopy] and [to_json] follow Python's unbounded recursion exactly. *)
Fixpoint depth_ok (fuel : nat) (h : heap) (v : val) : bool :=
  match v with
  | VRef l =>
      match fuel with
      | O => false
      | S f =>
          match h l with
          | Some (ODict kvs) => forallb (fun '(_, x) => depth_ok f h x) kvs
          | Some (OList xs) => forallb (depth_ok f h) xs
          | None => false
          end
      end
  | _ => true
  end.

(* ------------------------------------------------------------------ *)
(** ** Configuration constants (cell 3) *)

Definition MODEL : string := "claude-3-5-sonnet-20241022".

Definition BTREE_H_URL : string :=
  "https://sqlite.org/src/raw/18e5e7b2124c23426a283523e5f31a4bff029131b795bb82391f9d2f3136fc50?at=btree.h".
Definition BTREE_C_URL : string :=
  "https://sqlite.org/src/raw/63ca6b647342e8cef643863cd0962a542f133e1069460725ba4461dcda92b03c?at=btree.c".

Definition SQLITE_SOURCES : list (string * string) :=
  [("btree.h", BTREE_H_URL); ("btree.c", BTREE_C_URL)].

Definition SYSTEM_PROMPT : string :=
  "You are an expert systems programmer helping analyze database internals.".
Definition BETA_HEADER : string := "prompt-caching-2024-07-31".

(** [DEFAULT_CLIENT_ARGS] and its nested [extra_headers] dict are module
    globals, allocated when cell 3 runs. *)
Definition DEFAULT_CLIENT_ARGS : loc := 0%nat.
Definition EXTRA_HEADERS : loc := 1%nat.

Definition default_client_args_obj : obj :=
  ODict [("system", VStr SYSTEM_PROMPT); ("max_tokens", VInt 4096);
         ("temperature", VInt 0); ("extra_headers", VRef EXTRA_HEADERS)].

Definition extra_headers_obj : obj := ODict [("anthropic-beta", VStr BETA_HEADER)].

(** The interpreter state right after cell 3, at wall-clock time [t0]. *)
Definition init_state (t0 : Z) : state :=
  mk_state (upd (upd (fun _ => None) DEFAULT_CLIENT_ARGS default_client_args_obj)
                EXTRA_HEADERS extra_headers_obj)
           2%nat t0 [].

(** The module globals are in place and the allocator is past them. *)
Definition globals_ok (st : state) : Prop :=
  heap_of st DEFAULT_CLIENT_ARGS = Some default_client_args_obj /\
  heap_of st EXTRA_HEADERS = Some extra_headers_obj /\
  (2 <= next_loc st)%nat.

(* ------------------------------------------------------------------ *)
(** ** The outside world: HTTP downloads and the inference service *)

(** What a GET of one URL does: times out after [d] ms, or answers with a
    status and a body after [d] ms. *)
Inductive fetch_outcome :=
  | FTimeout (d : Z)
  | FResponse (d : Z) (status : Z) (text : string).

(** [getattr(response.usage, name, '---')]: absent, [None], or an int. *)
Inductive usage_attr := AMissing | ANone | AInt (z : Z).

Record usage := mk_usage {
  input_tokens : Z;
  output_tokens : Z;
  cache_read_input_tokens : usage_attr;
  cache_creation_input_tokens : usage_attr
}.

(** The inference service as seen by the two client calls: how long the
    probe ([messages.create]) takes and whether it raises; whether the
    stream request raises; the streamed text units, each with its delay
    after the previous one; and the usage of the final message. *)
Record service := mk_service {
  probe_latency : Z;
  probe_error : option exc;
  final_error : option exc;
  stream_units : list (Z * pystr);
  final_usage : usage
}.

Record world := mk_world {
  w_now : datetime;
  w_fetch : string -> fetch_outcome;
  w_svc : service
}.

(* ------------------------------------------------------------------ *)
(** ** [get_sqlite_sources] (cell 5) *)

(** [download_file]: [client.get(url)] then [raise_for_status()], which
    raises on every status outside 2xx.  The result is the time, relative
    to the start of the [gather], at which the coroutine finishes. *)
Definition download_file (filename : string) (o : fetch_outcome)
  : Z * (exc + (string * string)) :=
  match o with
  | FTimeout d => (d, inl ReadTimeout)
  | FResponse d status text =>
      if (200 <=? status) && (status <? 300)
      then (d, inr (filename, text))
      else (d, inl (HTTPStatusError status))
  end.

(** The exception [asyncio.gather] propagates: the one raised first in
    time (the earlier coroutine of the list on a tie). *)
Fixpoint first_failure {A} (rs : list (Z * (exc + A))) : option (Z * exc) :=
  match rs with
  | [] => None
  | (d, inl e) :: r =>
      match first_failure r with
      | Some (d', e') => if d' <? d then Some (d', e') else Some (d, e)
      | None => Some (d, e)
      end
  | (_, inr _) :: r => first_failure r
  end.

Fixpoint successes {A} (rs : list (Z * (exc + A))) : list A :=
  match rs with
  | [] => []
  | (_, inl _) :: r => successes r
  | (_, inr x) :: r => x :: successes r
  end.

Definition last_done {A} (rs : list (Z * (exc + A))) : Z :=
  fold_right (fun r acc => Z.max (Z.max 0 (fst r)) acc) 0 rs.

Definition advance (d : Z) : M unit :=
  do t <- get_time; set_clock (t + Z.max 0 d).

(** [await asyncio.gather] over the download tasks, without [return_exceptions]: the first
    exception is raised as soon as it happens; otherwise the list of
    results, in the order of the tasks. *)
Definition gather {A} (rs : list (Z * (exc + A))) : M (list A) :=
  match first_failure rs with
  | Some (d, e) => do _ <- advance d; raise e
  | None => do _ <- advance (last_done rs); ret (successes rs)
  end.

(** [get_sqlite_sources], over the resource table it reads (the global
    [SQLITE_SOURCES] in the notebook).  The resulting dict is only ever
    read, so it is kept as a value. *)
Definition get_sqlite_sources_of (srcs : list (string * string)) (w : world)
  : M (gmap string string) :=
  do results <- gather (map (fun '(filename, url) => download_file filename (w_fetch w url)) srcs);
  ret (list_to_map results).

Definition get_sqlite_sources : world -> M (gmap string string) :=
  get_sqlite_sources_of SQLITE_SOURCES.

(* ------------------------------------------------------------------ *)
(** ** [create_initial_message] (cell 5) *)

Definition sources_getitem (m : gmap string string) (k : string) : M string :=
  match m !! k with Some s => ret s | None => raise (KeyError k) end.

(** The f-string of the context block. *)
Definition context_text (ts btree_h btree_c : string) : string :=
  nl +:+ "Current time: " +:+ ts +:+ nl +:+ nl +:+
  "Source to Analyze:" +:+ nl +:+ nl +:+
  "btree.h:" +:+ nl +:+ "```c" +:+ nl +:+ btree_h +:+ nl +:+ "```" +:+ nl +:+ nl +:+
  "btree.c:" +:+ nl +:+ "```c" +:+ nl +:+ btree_c +:+ nl +:+ "```".

(** The dict display is evaluated inside out: the f-string (clock read,
    then [sources["btree.h"]], then [sources["btree.c"]]), the
    [cache_control] dict, the block, the content list, the message. *)
Definition create_initial_message_of (srcs : list (string * string)) (w : world)
  : M val :=
  do sources <- get_sqlite_sources_of srcs w;
  do h <- sources_getitem sources "btree.h";
  do c <- sources_getitem sources "btree.c";
  let text := context_text (strftime_ts (w_now w)) h c in
  do cc <- alloc (ODict [("type", VStr "ephemeral")]);
  do block <- alloc (ODict [("type", VStr "text"); ("text", VStr text);
                            ("cache_control", cc)]);
  do content <- alloc (OList [block]);
  alloc (ODict [("role", VStr "user"); ("content", content)]).

Definition create_initial_message : world -> M val :=
  create_initial_message_of SQLITE_SOURCES.

(* ------------------------------------------------------------------ *)
(** ** The client calls *)

Definition json_fields (j : json) : list (string * json) :=
  match j with JObj kvs => kvs | _ => [] end.

(** The keyword arguments [messages=msgs, model=MODEL, **args] of a
    client call, serialised when the call is made. *)
Definition request_body (msgs args : val) : M json :=
  fun st =>
    let h := heap_of st in
    (inr (JObj (("messages", to_json FUEL h msgs) :: ("model", JStr MODEL)
                :: json_fields (to_json FUEL h args))), st).

(** A task created by [asyncio.create_task]: when its coroutine finishes
    and with which exception, if any. *)
Record task := mk_task { task_done : Z; task_error : option exc }.

(** [sample_one_token], run as a task.  [create_task] is immediately
    followed by the main coroutine's [await asyncio.sleep(3)], so the
    task's synchronous part (copying the arguments, sending the request)
    runs at the same time and on the same heap as at the [create_task]
    call; the task then finishes when the service answers. *)
Definition sample_one_token (svc : service) (messages : val) : M task :=
  do args <- deepcopy FUEL (VRef DEFAULT_CLIENT_ARGS);
  do _ <- setitem args "max_tokens" (VInt 1);
  do body <- request_body messages args;
  do t <- get_time;
  do _ <- emit (ESend ProbeCall body t);
  ret (mk_task (t + Z.max 0 (probe_latency svc)) (probe_error svc)).

(** [await task]: wait until it finishes, re-raise its exception. *)
Definition await_task (tk : task) : M unit :=
  do t <- get_time;
  do _ <- set_clock (Z.max t (task_done tk));
  do _ <- emit (ETaskJoined (task_done tk));
  match task_error tk with Some e => raise e | None => ret tt end.

(** [await asyncio.sleep(ms / 1000)]. *)
Definition asyncio_sleep (ms : Z) : M unit :=
  do t <- get_time;
  do _ <- set_clock (t + Z.max 0 ms);
  emit (ESlept (t + Z.max 0 ms)).

(** Entering [client.messages.stream(messages=..., model=MODEL,
    **DEFAULT_CLIENT_ARGS)] sends the request. *)
Definition open_stream (svc : service) (messages : val) : M unit :=
  do body <- request_body messages (VRef DEFAULT_CLIENT_ARGS);
  do t <- get_time;
  do _ <- emit (ESend FinalCall body t);
  match final_error svc with Some e => raise e | None => ret tt end.

(** [async for text in stream.text_stream: if first_token_time is None
    and text.strip(): first_token_time = time.time() - start_time; break] *)
Fixpoint first_token_loop (start_time : Z) (first_token_time : option Z)
  (units : list (Z * pystr)) : M (option Z) :=
  match units with
  | [] => ret first_token_time
  | (d, text) :: rest =>
      do _ <- advance d;
      match first_token_time with
      | None =>
          if py_truthy (py_strip text)
          then do t <- get_time; ret (Some (t - start_time))
          else first_token_loop start_time first_token_time rest
      | Some _ => first_token_loop start_time first_token_time rest
      end
  end.

Definition stream_total (svc : service) : Z :=
  fold_right (fun u acc => Z.max 0 (fst u) + acc) 0 (stream_units svc).

(** [await stream.get_final_message()]: waits for the end of the stream. *)
Definition get_final_message (svc : service) (start_time : Z) : M usage :=
  do t <- get_time;
  do _ <- set_clock (Z.max t (start_time + stream_total svc));
  ret (final_usage svc).

(* ------------------------------------------------------------------ *)
(** ** [print_query_statistics] (cell 5) *)

(** [getattr(response.usage, name, '---')] inside an f-string. *)
Definition show_attr (a : usage_attr) : string :=
  match a with AMissing => "---" | ANone => "None" | AInt z => py_str_int z end.

(** The lines printed, one per [print] call. *)
Definition query_statistics_lines (u : usage) (query_type : string) : list string :=
  [nl +:+ query_type +:+ " query statistics:";
   tab +:+ "Input tokens: " +:+ py_str_int (input_tokens u);
   tab +:+ "Output tokens: " +:+ py_str_int (output_tokens u);
   tab +:+ "Cache read input tokens: " +:+ show_attr (cache_read_input_tokens u);
   tab +:+ "Cache creation input tokens: " +:+ show_attr (cache_creation_input_tokens u)].

Definition print_query_statistics (u : usage) (query_type : string) : M unit :=
  fold_right (fun line k => do _ <- emit (EPrint line); k) (ret tt)
    (query_statistics_lines u query_type).

(* ------------------------------------------------------------------ *)
(** ** The two demonstrations (cells 7 and 10) *)

Definition user_question : string := "What is the purpose of the BtShared structure?".

(** [{"type": "text", "text": f"Answer the user's question: {user_question}"}] *)
Definition question_block : obj :=
  ODict [("type", VStr "text"); ("text", VStr ("Answer the user's question: " +:+ user_question))].

(** [full = copy.deepcopy(initial_message); full["content"].append({...})] *)
Definition copy_with_question (initial_message : val) : M val :=
  do full <- deepcopy FUEL initial_message;
  do content <- getitem full "content";
  do q <- alloc question_block;
  do _ <- list_append content q;
  ret full.

(** From [start_time = time.time()] to the return: identical in both
    demonstrations but for the label of the statistics. *)
Definition stream_and_report (svc : service) (query_type : string) (message : val)
  : M (option Z * Z) :=
  do start_time <- get_time;
  do messages <- alloc (OList [message]);
  do _ <- open_stream svc messages;
  do first_token_time <- first_token_loop start_time None (stream_units svc);
  do response <- get_final_message svc start_time;
  do t <- get_time;
  do _ <- print_query_statistics response query_type;
  ret (first_token_time, t - start_time).

(** The simulated typing time, [asyncio.sleep(3)]. *)
Definition TYPING_MS : Z := 3000.

(** [standard_prompt_caching_demo], with the typing time as a parameter. *)
Definition standard_prompt_caching_demo_t (think_ms : Z) (w : world) : M (option Z * Z) :=
  do initial_message <- create_initial_message w;
  do _ <- asyncio_sleep think_ms;
  do full_message <- copy_with_question initial_message;
  stream_and_report (w_svc w) "Standard Caching" full_message.

(** [speculative_prompt_caching_demo], with the typing time as a parameter. *)
Definition speculative_prompt_caching_demo_t (think_ms : Z) (w : world) : M (option Z * Z) :=
  do initial_message <- create_initial_message w;
  do probe_messages <- alloc (OList [initial_message]);
  do cache_task <- sample_one_token (w_svc w) probe_messages;
  do _ <- asyncio_sleep think_ms;
  do _ <- await_task cache_task;
  do cached_message <- copy_with_question initial_message;
  stream_and_report (w_svc w) "Speculative Caching" cached_message.

Definition standard_prompt_caching_demo : world -> M (option Z * Z) :=
  standard_prompt_caching_demo_t TYPING_MS.

Definition speculative_prompt_caching_demo : world -> M (option Z * Z) :=
  speculative_prompt_caching_demo_t TYPING_MS.

(* ------------------------------------------------------------------ *)
(** ** Sample inputs *)

Definition sample_now : datetime := mk_datetime 2024 11 5 14 3 27 123456.

Definition ok_fetch (url : string) : fetch_outcome :=
  if String.eqb url BTREE_H_URL then FResponse 120 200 "struct BtShared;"
  else FResponse 450 200 "int sqlite3BtreeOpen(void);".

Definition sample_usage : usage := mk_usage 22 330 (AInt 151629) (AInt 0).

Definition sample_service : service :=
  mk_service 2500 None None [(400, pystr_of_ascii ""); (10, pystr_of_ascii "  "); (15, pystr_of_ascii "The");
              (20, pystr_of_ascii " BtShared")]
             sample_usage.

Definition sample_world : world := mk_world sample_now ok_fetch sample_service.

Example sample_run :
  fst (speculative_prompt_caching_demo sample_world (init_state 0)) = inr (Some 425, 445).
Proof. vm_compute. reflexivity. Qed.

(* ------------------------------------------------------------------ *)
(** ** Running the monad *)

Lemma bind_inr {A B} (m : M A) (k : A -> M B) st x st' :
  m st = (inr x, st') -> bind m k st = k x st'.
Proof. intros H. unfold bind. now rewrite H. Qed.

Lemma bind_inl {A B} (m : M A) (k : A -> M B) st e st' :
  m st = (inl e, st') -> bind m k st = (inl e, st').
Proof. intros H. unfold bind. now rewrite H. Qed.

(** Setting the clock of a state. *)
Definition at_clock (st : state) (t : Z) : state :=
  mk_state (heap_of st) (next_loc st) t (out st).

Lemma gather_run {A} (rs : list (Z * (exc + A))) st :
  gather rs st =
  match first_failure rs with
  | Some (d, e) => (inl e, at_clock st (clock st + Z.max 0 d))
  | None => (inr (successes rs), at_clock st (clock st + Z.max 0 (last_done rs)))
  end.
Proof. unfold gather. destruct (first_failure rs) as [[d e]|]; reflexivity. Qed.

Lemma get_sqlite_sources_of_run srcs w st :
  let rs := map (fun '(filename, url) => download_file filename (w_fetch w url)) srcs in
  get_sqlite_sources_of srcs w st =
  match first_failure rs with
  | Some (d, e) => (inl e, at_clock st (clock st + Z.max 0 d))
  | None => (inr (list_to_map (successes rs)),
             at_clock st (clock st + Z.max 0 (last_done rs)))
  end.
Proof.
  intros rs. unfold get_sqlite_sources_of. fold rs. unfold bind.
  rewrite gather_run. destruct (first_failure rs) as [[d e]|]; reflexivity.
Qed.

(** The four objects [create_initial_message] allocates from [n] on. *)
Definition cache_control_obj : obj := ODict [("type", VStr "ephemeral")].

Definition context_block_obj (n : loc) (text : string) : obj :=
  ODict [("type", VStr "text"); ("text", VStr text); ("cache_control", VRef n)].

Definition context_heap (h : heap) (n : loc) (text : string) : heap :=
  upd (upd (upd (upd h n cache_control_obj) (S n) (context_block_obj n text))
           (S (S n)) (OList [VRef (S n)]))
      (S (S (S n))) (ODict [("role", VStr "user"); ("content", VRef (S (S n)))]).

Lemma create_initial_message_of_run srcs w st :
  (exists e t, create_initial_message_of srcs w st = (inl e, at_clock st t)) \/
  (exists bh bc t,
      create_initial_message_of srcs w st =
      (inr (VRef (S (S (S (next_loc st))))),
       mk_state (context_heap (heap_of st) (next_loc st)
                   (context_text (strftime_ts (w_now w)) bh bc))
                (S (S (S (S (next_loc st))))) t (out st))).
Proof.
  unfold create_initial_message_of.
  pose proof (get_sqlite_sources_of_run srcs w st) as G. cbv zeta in G.
  destruct (first_failure _) as [[d e]|] in G.
  - left. rewrite (bind_inl _ _ _ _ _ G). do 2 eexists. reflexivity.
  - rewrite (bind_inr _ _ _ _ _ G).
    set (m := list_to_map _ : gmap string string).
    unfold bind, sources_getitem. simpl.
    destruct (m !! "btree.h") as [bh|]; [|left; do 2 eexists; reflexivity].
    destruct (m !! "btree.c") as [bc|]; [|left; do 2 eexists; reflexivity].
    right. exists bh, bc. eexists. reflexivity.
Qed.

#[local] Arguments Nat.eqb : simpl never.

(** Deciding the location comparisons [Nat.eqb] that heap reads leave
    behind when the allocator position is a variable. *)
Lemma eqb_ne a b : a <> b -> Nat.eqb a b = false.
Proof. apply Nat.eqb_neq. Qed.

Ltac eqb_tac :=
  repeat match goal with
  | |- context [Nat.eqb ?a ?b] =>
      first [rewrite (Nat.eqb_refl a) | rewrite (eqb_ne a b) by lia]
  end.

Definition default_client_args_json : json :=
  JObj [("system", JStr SYSTEM_PROMPT); ("max_tokens", JInt 4096);
        ("temperature", JInt 0);
        ("extra_headers", JObj [("anthropic-beta", JStr BETA_HEADER)])].

Fixpoint jdict_set (kvs : list (string * json)) (k : string) (v : json)
  : list (string * json) :=
  match kvs with
  | [] => [(k, v)]
  | (k', v') :: r =>
      if String.eqb k k' then (k, v) :: r else (k', v') :: jdict_set r k v
  end.

Definition delays (units : list (Z * pystr)) : Z :=
  fold_right (fun u acc => Z.max 0 (fst u) + acc) 0 units.

Definition blank_unit (u : Z * pystr) : Prop := py_truthy (py_strip (snd u)) = false.

Lemma first_token_loop_run start units st :
  (Forall blank_unit units /\
   first_token_loop start None units st = (inr None, at_clock st (clock st + delays units))) \/
  (exists pre d text post,
      units = pre ++ (d, text) :: post /\ Forall blank_unit pre /\
      py_truthy (py_strip text) = true /\
      first_token_loop start None units st =
      (inr (Some (clock st + (delays pre + Z.max 0 d) - start)),
       at_clock st (clock st + (delays pre + Z.max 0 d)))).
Proof.
  revert st. induction units as [|[d text] rest IH]; intros st.
  - left. split; [constructor|]. simpl. rewrite Z.add_0_r.
    destruct st; reflexivity.
  - simpl. unfold bind, advance, bind, get_time, set_clock. simpl.
    destruct (py_truthy (py_strip text)) eqn:T.
    + right. exists [], d, text, rest. split; [reflexivity|]. split; [constructor|].
      split; [exact T|]. simpl. rewrite Z.add_0_l. reflexivity.
    + destruct (IH (at_clock st (clock st + Z.max 0 d))) as [[HF HL]|[pre [d' [t' [post [HU [HF [HT HL]]]]]]]].
      * left. split; [constructor; auto|]. unfold at_clock in HL |- *. simpl in HL.
        rewrite HL. do 2 f_equal. lia.
      * right. exists ((d, text) :: pre), d', t', post. subst rest.
        repeat split; auto. unfold at_clock in HL |- *. simpl in HL. rewrite HL.
        simpl. f_equal; [do 2 f_equal; lia| f_equal; lia].
Qed.

(** The same loop in closed form: the time it consumes and whether it
    met a unit with text. *)
Fixpoint loop_elapsed (units : list (Z * pystr)) : Z :=
  match units with
  | [] => 0
  | (d, text) :: rest =>
      if py_truthy (py_strip text) then Z.max 0 d else Z.max 0 d + loop_elapsed rest
  end.

Fixpoint loop_found (units : list (Z * pystr)) : bool :=
  match units with
  | [] => false
  | (_, text) :: rest => py_truthy (py_strip text) || loop_found rest
  end.

Lemma first_token_loop_eq start units st :
  first_token_loop start None units st =
  (inr (if loop_found units then Some (clock st + loop_elapsed units - start) else None),
   at_clock st (clock st + loop_elapsed units)).
Proof.
  revert st. induction units as [|[d text] rest IH]; intros st.
  - simpl. rewrite Z.add_0_r. destruct st; reflexivity.
  - simpl. unfold bind, advance, get_time, set_clock, ret. simpl.
    destruct (py_truthy (py_strip text)); simpl.
    + reflexivity.
    + rewrite IH. unfold at_clock; simpl. rewrite Z.add_assoc. reflexivity.
Qed.

#[local] Arguments py_str_int : simpl never.
#[local] Arguments first_token_loop : simpl never.

(** Split a hypothesis [In x l] over a concrete list, discarding the
    cases where constructors differ. *)
Ltac in_cases Hin :=
  cbv beta iota delta [In app] in Hin;
  repeat match type of Hin with
  | _ \/ _ => destruct Hin as [Hin|Hin]; [try discriminate Hin|]
  | False => contradiction
  end.

(** The log a run appends to [out st]: [new] with [out st' = O ++ new]. *)
Ltac new_events :=
  first [ rewrite <- ?app_assoc; reflexivity | symmetry; apply app_nil_r ].

(* ------------------------------------------------------------------ *)
(** ** Independence from the allocator position

    A run from any state whose globals are in place computes the same
    result, clock and log as the run from the state right after cell 3
    with the same clock and log: the only locations a run reads are the
    globals and the ones it allocated itself.  The two runs are related by
    the renaming [ren_loc] of the locations allocated from [n1] on to those
    allocated from 2 on. *)

Section Reloc.
Variable n1 : loc.
Hypothesis Hn1 : (2 <= n1)%nat.

Definition ren_loc (l : loc) : loc := if (l <? 2)%nat then l else (l - n1 + 2)%nat.

Definition ren_val (v : val) : val :=
  match v with VRef l => VRef (ren_loc l) | _ => v end.

Definition ren_kv (kv : string * val) : string * val := (fst kv, ren_val (snd kv)).

Definition ren_obj (o : obj) : obj :=
  match o with
  | ODict kvs => ODict (map ren_kv kvs)
  | OList xs => OList (map ren_val xs)
  end.

(** The locations that correspond in the two runs, once the first run has
    allocated up to [k]. *)
Definition live (k l : loc) : Prop := (l < 2 \/ n1 <= l < k)%nat.

Definition val_ok (k : loc) (v : val) : Prop :=
  match v with VRef l => live k l | _ => True end.

Definition obj_vals (o : obj) : list val :=
  match o with ODict kvs => map snd kvs | OList xs => xs end.

Definition obj_ok (k : loc) (o : obj) : Prop := Forall (val_ok k) (obj_vals o).

Definition heap_sim (k : loc) (h1 h2 : heap) : Prop :=
  forall l, live k l ->
    h2 (ren_loc l) = option_map ren_obj (h1 l) /\
    (forall o, h1 l = Some o -> obj_ok k o).

Definition sim (s1 s2 : state) : Prop :=
  clock s1 = clock s2 /\ out s1 = out s2 /\ (n1 <= next_loc s1)%nat /\
  next_loc s2 = ren_loc (next_loc s1) /\ heap_sim (next_loc s1) (heap_of s1) (heap_of s2).

Definition res_rel {A B} (R : A -> B -> Prop) (r1 : exc + A) (r2 : exc + B) : Prop :=
  match r1, r2 with
  | inl e1, inl e2 => e1 = e2
  | inr a, inr b => R a b
  | _, _ => False
  end.

(** Two computations related from any pair of related states whose
    first allocator is past [k]; results related at the final allocator
    position. *)
Definition simM {A B} (R : loc -> A -> B -> Prop) (k : loc) (m1 : M A) (m2 : M B) : Prop :=
  forall s1 s2, sim s1 s2 -> (k <= next_loc s1)%nat ->
    sim (snd (m1 s1)) (snd (m2 s2)) /\
    (next_loc s1 <= next_loc (snd (m1 s1)))%nat /\
    res_rel (R (next_loc (snd (m1 s1)))) (fst (m1 s1)) (fst (m2 s2)).

Definition req {A} (k : loc) (a b : A) : Prop := a = b.
Definition rv (k : loc) (v1 v2 : val) : Prop := val_ok k v1 /\ v2 = ren_val v1.
Definition robj (k : loc) (o1 o2 : obj) : Prop := obj_ok k o1 /\ o2 = ren_obj o1.
Definition rkv (k : loc) (kv1 kv2 : string * val) : Prop :=
  fst kv1 = fst kv2 /\ rv k (snd kv1) (snd kv2).

Lemma live_mono k k' l : (k <= k')%nat -> live k l -> live k' l.
Proof. unfold live. lia. Qed.

Lemma val_ok_mono k k' v : (k <= k')%nat -> val_ok k v -> val_ok k' v.
Proof. destruct v; simpl; eauto using live_mono. Qed.

Lemma forall_val_ok_mono k k' xs :
  (k <= k')%nat -> Forall (val_ok k) xs -> Forall (val_ok k') xs.
Proof. intros Hk H. induction H; constructor; eauto using val_ok_mono. Qed.

Lemma obj_ok_mono k k' o : (k <= k')%nat -> obj_ok k o -> obj_ok k' o.
Proof. apply forall_val_ok_mono. Qed.

Lemma rv_mono k k' v1 v2 : (k <= k')%nat -> rv k v1 v2 -> rv k' v1 v2.
Proof. intros Hk [H E]. split; eauto using val_ok_mono. Qed.

Lemma rkv_mono k k' a b : (k <= k')%nat -> rkv k a b -> rkv k' a b.
Proof. intros Hk [E H]. split; eauto using rv_mono. Qed.

Lemma forall2_mono {A B} (R : loc -> A -> B -> Prop) k k' xs ys :
  (forall x y, R k x y -> R k' x y) -> Forall2 (R k) xs ys -> Forall2 (R k') xs ys.
Proof. intros HR H. induction H; constructor; auto. Qed.

Lemma ren_loc_inj k l l' : live k l -> live k l' -> ren_loc l = ren_loc l' -> l = l'.
Proof.
  unfold live, ren_loc. intros H H'.
  destruct (Nat.ltb_spec l 2), (Nat.ltb_spec l' 2); lia.
Qed.

Lemma ren_loc_big l : (n1 <= l)%nat -> ren_loc l = (l - n1 + 2)%nat.
Proof. unfold ren_loc. intros H. destruct (Nat.ltb_spec l 2); lia. Qed.

Lemma sim_bind {A B C D} (RA : loc -> A -> B -> Prop) (RB : loc -> C -> D -> Prop)
    k m1 m2 f1 f2 :
  simM RA k m1 m2 ->
  (forall k' a b, (k <= k')%nat -> RA k' a b -> simM RB k' (f1 a) (f2 b)) ->
  simM RB k (bind m1 f1) (bind m2 f2).
Proof.
  intros Hm Hf s1 s2 Hs Hk. unfold bind.
  destruct (Hm s1 s2 Hs Hk) as [Hs' [Hle Hr]].
  destruct (m1 s1) as [[e1|a] s1'], (m2 s2) as [[e2|b] s2'];
    simpl in *; try contradiction.
  - subst. auto.
  - assert (Hk' : (k <= next_loc s1')%nat) by lia.
    destruct (Hf (next_loc s1') a b Hk' Hr s1' s2' Hs' (le_n _)) as [H1 [H2 H3]].
    split; [exact H1|split; [lia|exact H3]].
Qed.

Lemma sim_ret {A B} (R : loc -> A -> B -> Prop) k a b :
  (forall k', (k <= k')%nat -> R k' a b) -> simM R k (ret a) (ret b).
Proof. intros H s1 s2 Hs Hk. simpl. auto. Qed.

Lemma sim_raise {A B} (R : loc -> A -> B -> Prop) k e :
  simM R k (raise e) (raise e).
Proof. intros s1 s2 Hs Hk. simpl. auto. Qed.

Lemma sim_get_time k : simM req k get_time get_time.
Proof. intros s1 s2 Hs Hk. simpl. split; [exact Hs|split; [lia|apply Hs]]. Qed.

Lemma sim_set_clock k t : simM req k (set_clock t) (set_clock t).
Proof.
  intros s1 s2 [Hc [Ho [Hn [Hn2 Hh]]]] Hk. simpl.
  split; [|split; [lia|reflexivity]].
  split; [reflexivity|split; [exact Ho|split; [exact Hn|split; [exact Hn2|exact Hh]]]].
Qed.

Lemma sim_emit k ev : simM req k (emit ev) (emit ev).
Proof.
  intros s1 s2 [Hc [Ho [Hn [Hn2 Hh]]]] Hk. simpl.
  split; [|split; [lia|reflexivity]].
  split; [exact Hc|split; [simpl; congruence|split; [exact Hn|split; [exact Hn2|exact Hh]]]].
Qed.

Lemma sim_peek k l :
  live k l ->
  simM (fun k' o1 o2 => o2 = option_map ren_obj o1 /\ forall o, o1 = Some o -> obj_ok k' o)
       k (peek l) (peek (ren_loc l)).
Proof.
  intros Hl s1 s2 Hs Hk. simpl. split; [exact Hs|]. split; [lia|].
  destruct Hs as [_ [_ [_ [_ Hh]]]]. apply Hh. eapply live_mono; eauto.
Qed.

Lemma sim_alloc k o1 o2 : robj k o1 o2 -> simM rv k (alloc o1) (alloc o2).
Proof.
  intros [Ho ->] s1 s2 [Hc [Hout [Hn [Hn2 Hh]]]] Hk.
  destruct s1 as [h1 m c1 out1], s2 as [h2 m2 c2 out2]; simpl in *.
  assert (Hr : ren_loc (S m) = S m2) by (rewrite Hn2, !ren_loc_big by lia; lia).
  split; [|split; [lia|]].
  - split; [exact Hc|split; [exact Hout|split; [simpl; lia|split; [simpl; congruence|]]]].
    simpl. intros l Hl. unfold upd.
    destruct (Nat.eqb_spec l m) as [->|Hlm].
    + rewrite Hn2, Nat.eqb_refl. split; [reflexivity|].
      intros o E. injection E as <-. eapply obj_ok_mono; [|exact Ho]. lia.
    + assert (Hl' : live m l) by (unfold live in *; lia).
      assert (Hml : live (S m) m) by (unfold live; lia).
      destruct (Nat.eqb_spec (ren_loc l) m2) as [E|_].
      * exfalso. apply Hlm. eapply (ren_loc_inj (S m)); eauto using live_mono. congruence.
      * destruct (Hh l Hl') as [E1 E2]. split; [exact E1|].
        intros o E. eapply obj_ok_mono; [|eapply E2; exact E]. lia.
  - split; simpl; [unfold live; lia|congruence].
Qed.

Lemma sim_store k l o1 o2 :
  live k l -> robj k o1 o2 -> simM req k (store l o1) (store (ren_loc l) o2).
Proof.
  intros Hl [Ho ->] s1 s2 [Hc [Hout [Hn [Hn2 Hh]]]] Hk.
  destruct s1 as [h1 m c1 out1], s2 as [h2 m2 c2 out2]; simpl in *.
  split; [|split; [lia|reflexivity]].
  split; [exact Hc|split; [exact Hout|split; [exact Hn|split; [exact Hn2|]]]].
  simpl. intros l' Hl'. unfold upd.
  assert (Hlm : live m l) by (eapply live_mono; eauto).
  destruct (Nat.eqb_spec l' l) as [->|Hne].
  - rewrite Nat.eqb_refl. split; [reflexivity|].
    intros o E. injection E as <-. eapply obj_ok_mono; [|exact Ho]. exact Hk.
  - destruct (Nat.eqb_spec (ren_loc l') (ren_loc l)) as [E|_].
    + exfalso. apply Hne. eapply ren_loc_inj; eauto.
    + apply Hh. exact Hl'.
Qed.

Lemma to_json_ren k h1 h2 :
  heap_sim k h1 h2 -> forall g v, val_ok k v -> to_json g h2 (ren_val v) = to_json g h1 v.
Proof.
  intros Hh g. induction g as [|g IH]; intros v Hv; destruct v as [| | |l]; try reflexivity.
  simpl. destruct (Hh l Hv) as [E Ho]. rewrite E.
  destruct (h1 l) as [[kvs|xs]|]; simpl; try reflexivity.
  - specialize (Ho _ eq_refl). unfold obj_ok in Ho. simpl in Ho. clear E. f_equal.
    induction kvs as [|[kk x] r IHr]; simpl in *; [reflexivity|].
    inversion Ho; subst. rewrite IH by assumption. f_equal. auto.
  - specialize (Ho _ eq_refl). unfold obj_ok in Ho. simpl in Ho. clear E. f_equal.
    induction xs as [|x r IHr]; simpl in *; [reflexivity|].
    inversion Ho; subst. rewrite IH by assumption. f_equal. auto.
Qed.

Lemma sim_request_body k m1 m2 a1 a2 :
  rv k m1 m2 -> rv k a1 a2 -> simM req k (request_body m1 a1) (request_body m2 a2).
Proof.
  intros [Hm ->] [Ha ->] s1 s2 Hs Hk. unfold request_body. cbn [fst snd].
  split; [exact Hs|]. split; [lia|].
  destruct Hs as [_ [_ [_ [_ Hh]]]]. unfold req.
  rewrite !(to_json_ren _ _ _ Hh) by eauto using val_ok_mono. reflexivity.
Qed.

Lemma sim_mapM {A1 A2 B1 B2} (RA : loc -> A1 -> A2 -> Prop) (RB : loc -> B1 -> B2 -> Prop)
    (f1 : A1 -> M B1) (f2 : A2 -> M B2) k xs ys :
  (forall k k' x y, (k <= k')%nat -> RA k x y -> RA k' x y) ->
  (forall k k' x y, (k <= k')%nat -> RB k x y -> RB k' x y) ->
  (forall k' x y, (k <= k')%nat -> RA k' x y -> simM RB k' (f1 x) (f2 y)) ->
  Forall2 (RA k) xs ys ->
  simM (fun k' => Forall2 (RB k')) k (mapM f1 xs) (mapM f2 ys).
Proof.
  intros HA HB. revert k ys.
  induction xs as [|x xs IH]; intros k ys Hf Hxy; inversion Hxy; subst; simpl.
  - apply sim_ret. intros. constructor.
  - eapply sim_bind; [apply Hf; [lia|eassumption]|]. intros k1 b1 b2 Hk1 Hb.
    eapply sim_bind.
    + apply IH; [intros; apply Hf; [lia|assumption]|].
      eapply forall2_mono; [|eassumption]. intros. eapply HA; [|eassumption]. exact Hk1.
    + intros k2 bs1 bs2 Hk2 Hbs. apply sim_ret. intros k3 Hk3. constructor.
      * eapply HB; [|exact Hb]. lia.
      * eapply forall2_mono; [|exact Hbs]. intros. eapply HB; [|eassumption]. exact Hk3.
Qed.

Lemma forall2_ren_kv k kvs :
  Forall (val_ok k) (map snd kvs) -> Forall2 (rkv k) kvs (map ren_kv kvs).
Proof.
  induction kvs as [|[kk x] r IH]; simpl; intros H; constructor; inversion H; subst; auto.
  split; [reflexivity|]. split; auto.
Qed.

Lemma forall2_ren_val k xs :
  Forall (val_ok k) xs -> Forall2 (rv k) xs (map ren_val xs).
Proof. intros H. induction H; simpl; constructor; auto. split; auto. Qed.

Lemma robj_dict k kvs1 kvs2 : Forall2 (rkv k) kvs1 kvs2 -> robj k (ODict kvs1) (ODict kvs2).
Proof.
  intros H. induction H as [|[a x] [b y] r1 r2 [E [Hx Ey]] _ [IH1 IH2]]; simpl in *.
  - split; [constructor|reflexivity].
  - subst. split; [constructor; auto|]. simpl. injection IH2 as ->. reflexivity.
Qed.

Lemma robj_list k xs1 xs2 : Forall2 (rv k) xs1 xs2 -> robj k (OList xs1) (OList xs2).
Proof.
  intros H. induction H as [|x y r1 r2 [Hx Ey] _ [IH1 IH2]]; simpl in *.
  - split; [constructor|reflexivity].
  - subst. split; [constructor; auto|]. simpl. injection IH2 as ->. reflexivity.
Qed.

Lemma sim_deepcopy f : forall k v1 v2, rv k v1 v2 -> simM rv k (deepcopy f v1) (deepcopy f v2).
Proof.
  induction f as [|f IH]; intros k v1 v2 [Hv ->];
    destruct v1 as [| | |l]; simpl;
    try (apply sim_ret; intros; split; simpl; auto; fail).
  eapply sim_bind; [apply sim_peek; exact Hv|].
  intros k' o1 o2 Hk' [-> Ho].
  destruct o1 as [[kvs|xs]|]; simpl.
  - eapply sim_bind.
    + apply (sim_mapM rkv rkv); [exact rkv_mono|exact rkv_mono| |].
      * intros k'' [a x] [b y] Hk'' [E Hxy]; simpl in *; subst b.
        eapply sim_bind; [apply IH; exact Hxy|].
        intros k3 x1 x2 Hk3 Hx. apply sim_ret. intros k4 Hk4.
        split; [reflexivity|]. eapply rv_mono; [|exact Hx]. exact Hk4.
      * apply forall2_ren_kv. apply (Ho _ eq_refl).
    + intros k'' kvs1 kvs2 Hk'' Hkv. apply sim_alloc. apply robj_dict. exact Hkv.
  - eapply sim_bind.
    + apply (sim_mapM rv rv); [exact rv_mono|exact rv_mono| |].
      * intros k'' x y Hk'' Hxy. apply IH. exact Hxy.
      * apply forall2_ren_val. apply (Ho _ eq_refl).
    + intros k'' xs1 xs2 Hk'' Hxs. apply sim_alloc. apply robj_list. exact Hxs.
  - apply sim_ret. intros. split; simpl; auto.
Qed.
Lemma dict_get_ren kvs key : dict_get (map ren_kv kvs) key = option_map ren_val (dict_get kvs key).
Proof.
  induction kvs as [|[a x] r IH]; simpl; [reflexivity|].
  destruct (String.eqb key a); auto.
Qed.

Lemma dict_set_ren kvs key v :
  dict_set (map ren_kv kvs) key (ren_val v) = map ren_kv (dict_set kvs key v).
Proof.
  induction kvs as [|[a x] r IH]; simpl; [reflexivity|].
  destruct (String.eqb key a); simpl; [reflexivity|]. rewrite IH. reflexivity.
Qed.

Lemma dict_get_ok k kvs key v :
  Forall (val_ok k) (map snd kvs) -> dict_get kvs key = Some v -> val_ok k v.
Proof.
  induction kvs as [|[a x] r IH]; simpl; intros H E; [discriminate|].
  inversion H; subst. destruct (String.eqb key a); [congruence|auto].
Qed.

Lemma dict_set_ok k kvs key v :
  Forall (val_ok k) (map snd kvs) -> val_ok k v ->
  Forall (val_ok k) (map snd (dict_set kvs key v)).
Proof.
  induction kvs as [|[a x] r IH]; simpl; intros H Hv; [constructor; auto|].
  inversion H; subst. destruct (String.eqb key a); simpl; constructor; auto.
Qed.

(** The continuation after [peek] in [setitem], [getitem] and
    [list_append], on the renamed object. *)
Ltac peek_step :=
  let k' := fresh "k'" in let o1 := fresh "o1" in let Hk' := fresh "Hk'" in
  let Ho := fresh "Ho" in
  eapply sim_bind; [apply sim_peek; eassumption|];
  intros k' o1 ? Hk' [-> Ho];
  destruct o1 as [[?kvs| ?xs]|]; simpl; try apply sim_raise.

Lemma sim_setitem k d1 d2 key v1 v2 :
  rv k d1 d2 -> rv k v1 v2 -> simM req k (setitem d1 key v1) (setitem d2 key v2).
Proof.
  intros [Hd ->] [Hv ->]. destruct d1 as [| | |l]; simpl; try apply sim_raise.
  peek_step. apply sim_store; [eapply live_mono; eauto|].
  split; [|simpl; rewrite dict_set_ren; reflexivity].
  apply dict_set_ok; [apply (Ho _ eq_refl)|eapply val_ok_mono; eauto].
Qed.

Lemma sim_getitem k d1 d2 key : rv k d1 d2 -> simM rv k (getitem d1 key) (getitem d2 key).
Proof.
  intros [Hd ->]. destruct d1 as [| | |l]; simpl; try apply sim_raise.
  peek_step. rewrite dict_get_ren.
  destruct (dict_get kvs key) as [x|] eqn:E; simpl; [|apply sim_raise].
  apply sim_ret. intros k'' Hk''. split; [|reflexivity].
  eapply val_ok_mono; [exact Hk''|]. eapply dict_get_ok; [apply (Ho _ eq_refl)|exact E].
Qed.

Lemma sim_list_append k xs1 xs2 v1 v2 :
  rv k xs1 xs2 -> rv k v1 v2 -> simM req k (list_append xs1 v1) (list_append xs2 v2).
Proof.
  intros [Hd ->] [Hv ->]. destruct xs1 as [| | |l]; simpl; try apply sim_raise.
  peek_step. apply sim_store; [eapply live_mono; eauto|].
  split; [|simpl; rewrite map_app; reflexivity].
  unfold obj_ok. simpl. apply Forall_app. split; [apply (Ho _ eq_refl)|].
  constructor; [eapply val_ok_mono; eauto|constructor].
Qed.

(** Steps of a computation that does not touch the heap: the same code on
    both sides, with equal results. *)
Ltac sim_eq_intro :=
  let k := fresh "k" in let a := fresh "a" in let b := fresh "b" in
  let Hk := fresh "Hk" in let E := fresh "E" in
  intros k a b Hk E; unfold req in E; subst b.

Lemma sim_advance k d : simM req k (advance d) (advance d).
Proof. eapply sim_bind; [apply sim_get_time|]. sim_eq_intro. apply sim_set_clock. Qed.

Lemma sim_ret_eq {A} k (a : A) : simM req k (ret a) (ret a).
Proof. apply sim_ret. reflexivity. Qed.

Lemma sim_gather {A} k (rs : list (Z * (exc + A))) : simM req k (gather rs) (gather rs).
Proof.
  unfold gather. destruct (first_failure rs) as [[d e]|];
    (eapply sim_bind; [apply sim_advance|]); sim_eq_intro; [apply sim_raise|apply sim_ret_eq].
Qed.

Lemma sim_get_sqlite_sources_of k srcs w :
  simM req k (get_sqlite_sources_of srcs w) (get_sqlite_sources_of srcs w).
Proof.
  unfold get_sqlite_sources_of. eapply sim_bind; [apply sim_gather|].
  sim_eq_intro. apply sim_ret_eq.
Qed.

Lemma sim_sources_getitem k m key : simM req k (sources_getitem m key) (sources_getitem m key).
Proof. unfold sources_getitem. destruct (m !! key); [apply sim_ret_eq|apply sim_raise]. Qed.

(** An object built from atoms and values related at an earlier point. *)
Ltac robj_tac :=
  split; [unfold obj_ok; simpl;
          repeat first [ apply List.Forall_nil | apply List.Forall_cons | exact I
                       | eapply val_ok_mono; [|eassumption]; lia ]
         |simpl; reflexivity].

Ltac rv_intro :=
  let k := fresh "k" in let a := fresh "a" in let b := fresh "b" in
  let Hk := fresh "Hk" in let Ha := fresh "Ha" in
  intros k a b Hk [Ha ->].

Lemma sim_create_initial_message_of k srcs w :
  simM rv k (create_initial_message_of srcs w) (create_initial_message_of srcs w).
Proof.
  unfold create_initial_message_of.
  eapply sim_bind; [apply sim_get_sqlite_sources_of|]. sim_eq_intro.
  eapply sim_bind; [apply sim_sources_getitem|]. sim_eq_intro.
  eapply sim_bind; [apply sim_sources_getitem|]. sim_eq_intro.
  eapply sim_bind; [apply sim_alloc; robj_tac|]. rv_intro.
  eapply sim_bind; [apply sim_alloc; robj_tac|]. rv_intro.
  eapply sim_bind; [apply sim_alloc; robj_tac|]. rv_intro.
  apply sim_alloc; robj_tac.
Qed.
Ltac rv_tac :=
  first [ split; [exact I|reflexivity]
        | eapply rv_mono; [|eassumption]; lia
        | split; [eapply val_ok_mono; [|eassumption]; lia|reflexivity] ].

Lemma sim_sample_one_token k svc m1 m2 :
  rv k m1 m2 -> simM req k (sample_one_token svc m1) (sample_one_token svc m2).
Proof.
  intros [Hm ->]. unfold sample_one_token.
  eapply sim_bind.
  { apply sim_deepcopy. split; [left; unfold DEFAULT_CLIENT_ARGS; lia|reflexivity]. }
  rv_intro.
  eapply sim_bind; [apply sim_setitem; rv_tac|]. sim_eq_intro.
  eapply sim_bind; [apply sim_request_body; rv_tac|]. sim_eq_intro.
  eapply sim_bind; [apply sim_get_time|]. sim_eq_intro.
  eapply sim_bind; [apply sim_emit|]. sim_eq_intro.
  apply sim_ret_eq.
Qed.

Lemma sim_await_task k tk : simM req k (await_task tk) (await_task tk).
Proof.
  unfold await_task.
  eapply sim_bind; [apply sim_get_time|]. sim_eq_intro.
  eapply sim_bind; [apply sim_set_clock|]. sim_eq_intro.
  eapply sim_bind; [apply sim_emit|]. sim_eq_intro.
  destruct (task_error tk); [apply sim_raise|apply sim_ret_eq].
Qed.

Lemma sim_asyncio_sleep k ms : simM req k (asyncio_sleep ms) (asyncio_sleep ms).
Proof.
  unfold asyncio_sleep.
  eapply sim_bind; [apply sim_get_time|]. sim_eq_intro.
  eapply sim_bind; [apply sim_set_clock|]. sim_eq_intro.
  apply sim_emit.
Qed.

Lemma sim_open_stream k svc m1 m2 :
  rv k m1 m2 -> simM req k (open_stream svc m1) (open_stream svc m2).
Proof.
  intros [Hm ->]. unfold open_stream.
  eapply sim_bind.
  { apply sim_request_body; [rv_tac|].
    split; [left; unfold DEFAULT_CLIENT_ARGS; lia|reflexivity]. }
  sim_eq_intro.
  eapply sim_bind; [apply sim_get_time|]. sim_eq_intro.
  eapply sim_bind; [apply sim_emit|]. sim_eq_intro.
  destruct (final_error svc); [apply sim_raise|apply sim_ret_eq].
Qed.

Lemma first_token_loop_cons start ft d text rest :
  first_token_loop start ft ((d, text) :: rest) =
  (do _ <- advance d;
   match ft with
   | None =>
       if py_truthy (py_strip text)
       then do t <- get_time; ret (Some (t - start))
       else first_token_loop start ft rest
   | Some _ => first_token_loop start ft rest
   end).
Proof. reflexivity. Qed.

Lemma sim_first_token_loop k start ft units :
  simM req k (first_token_loop start ft units) (first_token_loop start ft units).
Proof.
  revert k. induction units as [|[d text] rest IH]; intros k.
  - apply sim_ret_eq.
  - rewrite first_token_loop_cons.
    eapply sim_bind; [apply sim_advance|]. sim_eq_intro.
    destruct ft; [apply IH|].
    destruct (py_truthy (py_strip text)); [|apply IH].
    eapply sim_bind; [apply sim_get_time|]. sim_eq_intro. apply sim_ret_eq.
Qed.

Lemma sim_get_final_message k svc start :
  simM req k (get_final_message svc start) (get_final_message svc start).
Proof.
  unfold get_final_message.
  eapply sim_bind; [apply sim_get_time|]. sim_eq_intro.
  eapply sim_bind; [apply sim_set_clock|]. sim_eq_intro.
  apply sim_ret_eq.
Qed.

Lemma sim_print_query_statistics k u qt :
  simM req k (print_query_statistics u qt) (print_query_statistics u qt).
Proof.
  unfold print_query_statistics. revert k.
  induction (query_statistics_lines u qt) as [|line r IH]; intros k; simpl.
  - apply sim_ret_eq.
  - eapply sim_bind; [apply sim_emit|]. sim_eq_intro. apply IH.
Qed.

Lemma sim_copy_with_question k m1 m2 :
  rv k m1 m2 -> simM rv k (copy_with_question m1) (copy_with_question m2).
Proof.
  intros [Hm ->]. unfold copy_with_question.
  eapply sim_bind; [apply sim_deepcopy; rv_tac|]. rv_intro.
  eapply sim_bind; [apply sim_getitem; rv_tac|]. rv_intro.
  eapply sim_bind; [apply sim_alloc; robj_tac|]. rv_intro.
  eapply sim_bind; [apply sim_list_append; rv_tac|]. sim_eq_intro.
  apply sim_ret. intros. rv_tac.
Qed.

Lemma sim_stream_and_report k svc qt m1 m2 :
  rv k m1 m2 -> simM req k (stream_and_report svc qt m1) (stream_and_report svc qt m2).
Proof.
  intros [Hm ->]. unfold stream_and_report.
  eapply sim_bind; [apply sim_get_time|]. sim_eq_intro.
  eapply sim_bind; [apply sim_alloc; robj_tac|]. rv_intro.
  eapply sim_bind; [apply sim_open_stream; rv_tac|]. sim_eq_intro.
  eapply sim_bind; [apply sim_first_token_loop|]. sim_eq_intro.
  eapply sim_bind; [apply sim_get_final_message|]. sim_eq_intro.
  eapply sim_bind; [apply sim_get_time|]. sim_eq_intro.
  eapply sim_bind; [apply sim_print_query_statistics|]. sim_eq_intro.
  apply sim_ret_eq.
Qed.

Lemma sim_standard_demo k think w :
  simM req k (standard_prompt_caching_demo_t think w) (standard_prompt_caching_demo_t think w).
Proof.
  unfold standard_prompt_caching_demo_t, create_initial_message.
  eapply sim_bind; [apply sim_create_initial_message_of|]. rv_intro.
  eapply sim_bind; [apply sim_asyncio_sleep|]. sim_eq_intro.
  eapply sim_bind; [apply sim_copy_with_question; rv_tac|]. rv_intro.
  apply sim_stream_and_report. rv_tac.
Qed.

Lemma sim_speculative_demo k think w :
  simM req k (speculative_prompt_caching_demo_t think w)
           (speculative_prompt_caching_demo_t think w).
Proof.
  unfold speculative_prompt_caching_demo_t, create_initial_message.
  eapply sim_bind; [apply sim_create_initial_message_of|]. rv_intro.
  eapply sim_bind; [apply sim_alloc; robj_tac|]. rv_intro.
  eapply sim_bind; [apply sim_sample_one_token; rv_tac|]. sim_eq_intro.
  eapply sim_bind; [apply sim_asyncio_sleep|]. sim_eq_intro.
  eapply sim_bind; [apply sim_await_task|]. sim_eq_intro.
  eapply sim_bind; [apply sim_copy_with_question; rv_tac|]. rv_intro.
  apply sim_stream_and_report. rv_tac.
Qed.
End Reloc.

(** The state right after cell 3, with the clock and log of [st]. *)
Definition canon (st : state) : state :=
  mk_state (heap_of (init_state 0)) 2%nat (clock st) (out st).

Lemma sim_canon st : globals_ok st -> sim (next_loc st) st (canon st).
Proof.
  destruct st as [h n c o]. unfold globals_ok, canon. simpl. intros [H0 [H1 Hn]].
  split; [reflexivity|split; [reflexivity|split; [apply le_n|split]]].
  - simpl. rewrite ren_loc_big by lia. lia.
  - simpl. intros l [Hl|Hl]; [|lia].
    destruct l as [|[|l]]; [| |lia].
    + unfold DEFAULT_CLIENT_ARGS in H0. rewrite H0. split; [reflexivity|].
      intros ob E. injection E as <-. unfold obj_ok. simpl.
      repeat first [ apply List.Forall_nil | apply List.Forall_cons | exact I
                   | hnf; left; unfold EXTRA_HEADERS; lia ].
    + unfold EXTRA_HEADERS in H1. rewrite H1. split; [reflexivity|].
      intros ob E. injection E as <-. unfold obj_ok. simpl.
      repeat first [ apply List.Forall_nil | apply List.Forall_cons | exact I ].
Qed.

(** A run from a state whose globals are in place has the result, final
    clock and log of the run from [canon st]. *)
Lemma reloc_eq {A} (D : M A) st :
  (forall n1, (2 <= n1)%nat -> simM n1 req n1 D D) -> globals_ok st ->
  D st = (fst (D (canon st)),
          mk_state (heap_of (snd (D st))) (next_loc (snd (D st)))
                   (clock (snd (D (canon st)))) (out (snd (D (canon st))))).
Proof.
  intros Hs Hg. assert (Hn : (2 <= next_loc st)%nat) by apply Hg.
  destruct (Hs _ Hn st (canon st) (sim_canon st Hg) (le_n _)) as [[Hc [Ho _]] [_ Hr]].
  destruct (D st) as [r1 s1], (D (canon st)) as [r2 s2]. simpl in *.
  rewrite <- Hc, <- Ho. destruct s1. f_equal.
  destruct r1, r2; simpl in Hr; try contradiction; unfold req in Hr; congruence.
Qed.

Lemma reloc_run {A} (D : M A) st (P : exc + A -> state -> Prop) :
  (forall n1, (2 <= n1)%nat -> simM n1 req n1 D D) -> globals_ok st ->
  (forall r s s', clock s = clock s' -> out s = out s' -> P r s -> P r s') ->
  (let '(r, s) := D (canon st) in P r s) ->
  let '(r, s) := D st in P r s.
Proof.
  intros Hs Hg HP. rewrite (reloc_eq D st Hs Hg).
  destruct (D (canon st)) as [r s]. simpl. apply HP; reflexivity.
Qed.

Lemma sim_standard_demo_all think w n1 :
  (2 <= n1)%nat -> simM n1 req n1 (standard_prompt_caching_demo_t think w)
                                  (standard_prompt_caching_demo_t think w).
Proof. intros Hn. apply sim_standard_demo. exact Hn. Qed.

Lemma sim_speculative_demo_all think w n1 :
  (2 <= n1)%nat -> simM n1 req n1 (speculative_prompt_caching_demo_t think w)
                                  (speculative_prompt_caching_demo_t think w).
Proof. intros Hn. apply sim_speculative_demo. exact Hn. Qed.

(** Reduce a statement about a run from a state with the globals in place
    to the run from [canon st]; the statement may only depend on the
    result, the final clock and the log. *)
Ltac transport :=
  lazymatch goal with
  | |- match speculative_prompt_caching_demo_t ?think ?w ?st with pair _ _ => _ end =>
      eapply (reloc_run _ st); [exact (sim_speculative_demo_all think w)|assumption| |]
  | |- match standard_prompt_caching_demo_t ?think ?w ?st with pair _ _ => _ end =>
      eapply (reloc_run _ st); [exact (sim_standard_demo_all think w)|assumption| |]
  end;
  [ let r := fresh "r" in let s := fresh "s" in let s' := fresh "s'" in
    let Ec := fresh "Ec" in let Eo := fresh "Eo" in
    intros r s s' Ec Eo; rewrite ?Ec, ?Eo; exact (fun x => x)
  | ].

(** Evaluation of a run from [canon st]: everything computes but the
    arithmetic on the symbolic clock and delays, the list operations the
    statement inspects, the texts, and the streaming loop. *)
Ltac ccbv :=
  cbv -[first_token_loop Z.add Z.max Z.sub Z.opp Z.le Z.lt app In
        context_text strftime_ts SYSTEM_PROMPT MODEL BETA_HEADER user_question
        py_str_int].

(** Split the run at the context creation, then at the two service
    errors, and evaluate. *)
Ltac canon_run :=
  match goal with
  | |- context [bind (create_initial_message_of SQLITE_SOURCES ?w) _ ?st] =>
      let Hc := fresh "Hc" in
      destruct (create_initial_message_of_run SQLITE_SOURCES w st)
        as [[?e [?t Hc]]|[?bh [?bc [?t Hc]]]];
      [rewrite (bind_inl _ _ _ _ _ Hc)|rewrite (bind_inr _ _ _ _ _ Hc)]
  end;
  ccbv.

(** The streaming loop, in closed form. *)
Ltac loop_run :=
  match goal with
  | |- context [first_token_loop ?s None ?u ?st] =>
      let r := fresh "r" in let st0 := fresh "st0" in let E := fresh "E" in
      destruct (first_token_loop s None u st) as [r st0] eqn:E;
      rewrite first_token_loop_eq in E; injection E as <- <-
  end;
  ccbv.
Definition json_get (j : json) (k : string) : option json :=
  match j with
  | JObj kvs => (fix go kvs := match kvs with
                 | [] => None
                 | (k', v) :: r => if String.eqb k k' then Some v else go r
                 end) kvs
  | _ => None
  end.

Definition question_json : json :=
  JObj [("type", JStr "text"); ("text", JStr ("Answer the user's question: " +:+ user_question))].


(* ------------------------------------------------------------------ *)
(** ** Further inputs and auxiliary facts *)

(** The speculative demonstration's world with the probe failing. *)
Definition probe_fail_service : service :=
  mk_service 2500 (Some (APIError "overloaded_error")) None
             [(400, pystr_of_ascii ""); (10, pystr_of_ascii "  "); (15, pystr_of_ascii "The");
              (20, pystr_of_ascii " BtShared")] sample_usage.

Definition probe_fail_world : world := mk_world sample_now ok_fetch probe_fail_service.

Lemma init_globals_ok t0 : globals_ok (init_state t0).
Proof. split; [reflexivity|split; [reflexivity|simpl; lia]]. Qed.

Lemma first_failure_none {A} (rs : list (Z * (exc + A))) d e :
  first_failure rs = None -> ~ In (d, inl e) rs.
Proof.
  induction rs as [|[d0 [e0|a]] r IH]; simpl; [auto| |].
  - destruct (first_failure r) as [[? ?]|]; [destruct (_ <? _)|]; discriminate.
  - intros H [E|Hin]; [discriminate|exact (IH H Hin)].
Qed.

Lemma first_failure_min {A} (rs : list (Z * (exc + A))) d e :
  first_failure rs = Some (d, e) ->
  In (d, inl e) rs /\ forall d' e', In (d', inl e') rs -> d <= d'.
Proof.
  revert d e. induction rs as [|[d0 [e0|a]] r IH]; simpl; intros d e H; [discriminate| |].
  - destruct (first_failure r) as [[d1 e1]|] eqn:F.
    + destruct (IH d1 e1 eq_refl) as [Hin Hmin].
      destruct (Z.ltb_spec d1 d0); injection H as <- <-.
      * split; [right; exact Hin|].
        intros d' e' [E|Hin']; [injection E as <- <-; lia|exact (Hmin _ _ Hin')].
      * split; [left; reflexivity|]. intros d' e' [E|Hin']; [injection E as <- <-; lia|].
        specialize (Hmin d' e' Hin'). lia.
    + injection H as <- <-. split; [left; reflexivity|].
      intros d' e' [E|Hin']; [injection E as <- <-; lia|].
      exfalso. exact (first_failure_none r d' e' F Hin').
  - destruct (IH d e H) as [Hin Hmin]. split; [right; exact Hin|].
    intros d' e' [E|Hin']; [discriminate|exact (Hmin _ _ Hin')].
Qed.

Lemma first_failure_none_keys srcs (w : world) :
  first_failure (map (fun '(filename, url) => download_file filename (w_fetch w url)) srcs) = None ->
  map fst (successes (map (fun '(filename, url) => download_file filename (w_fetch w url)) srcs))
  = map fst srcs.
Proof.
  induction srcs as [|[fn url] r IH]; simpl; [reflexivity|].
  destruct (download_file fn (w_fetch w url)) as [d [e|[k v]]] eqn:E; simpl.
  - destruct (first_failure _) as [[? ?]|]; [destruct (_ <? _)|]; discriminate.
  - intros H. rewrite (IH H). f_equal. unfold download_file in E.
    destruct (w_fetch w url); [|destruct (_ && _)]; congruence.
Qed.

Lemma list_to_map_is_Some (l : list (string * string)) k :
  is_Some ((list_to_map l : gmap string string) !! k) <-> In k (map fst l).
Proof.
  induction l as [|[a x] l IH]; simpl.
  - rewrite lookup_empty. split; [intros [? H]; discriminate|intros []].
  - rewrite lookup_insert_is_Some, IH. split.
    + intros [->|[_ H]]; auto.
    + intros [->|H]; [left; reflexivity|]. destruct (decide (a = k)); auto.
Qed.

Ltac in_find :=
  first [ apply in_eq | apply in_cons; in_find
        | apply in_or_app; first [ left; in_find | right; in_find ] ].

(** The deep copy [sample_one_token] makes of [DEFAULT_CLIENT_ARGS]. *)
Definition probe_args_obj (eh : loc) : obj :=
  ODict [("system", VStr SYSTEM_PROMPT); ("max_tokens", VInt 1);
         ("temperature", VInt 0); ("extra_headers", VRef eh)].

(** [args = copy.deepcopy(DEFAULT_CLIENT_ARGS)] allocates a copy of the
    nested [extra_headers] at [n] and of the dict at [S n]; [args["max_tokens"]
    = 1] then overwrites the latter. *)
Definition copied_args_obj (eh : loc) : obj :=
  ODict [("system", VStr SYSTEM_PROMPT); ("max_tokens", VInt 4096);
         ("temperature", VInt 0); ("extra_headers", VRef eh)].

Definition probe_heap (h : heap) (n : loc) : heap :=
  upd (upd (upd h n extra_headers_obj) (S n) (copied_args_obj n)) (S n) (probe_args_obj n).

Lemma upd_eq h l o : upd h l o l = Some o.
Proof. unfold upd. rewrite Nat.eqb_refl. reflexivity. Qed.

Lemma deepcopy_default_args h n c o :
  globals_ok (mk_state h n c o) ->
  deepcopy FUEL (VRef DEFAULT_CLIENT_ARGS) (mk_state h n c o) =
  (inr (VRef (S n)),
   mk_state (upd (upd h n extra_headers_obj) (S n) (copied_args_obj n)) (S (S n)) c o).
Proof.
  intros [H0 [H1 Hn]]. simpl in *.
  cbv [deepcopy FUEL bind peek mapM ret alloc heap_of next_loc clock out]. rewrite H0.
  cbv [default_client_args_obj]. rewrite H1. reflexivity.
Qed.

Lemma sample_one_token_run svc m h n c o :
  globals_ok (mk_state h n c o) ->
  sample_one_token svc m (mk_state h n c o) =
  (inr (mk_task (c + Z.max 0 (probe_latency svc)) (probe_error svc)),
   mk_state (probe_heap h n) (S (S n)) c
     (o ++ [ESend ProbeCall
              (JObj (("messages", to_json FUEL (probe_heap h n) m) :: ("model", JStr MODEL)
                     :: json_fields (to_json FUEL (probe_heap h n) (VRef (S n))))) c])).
Proof.
  intros Hg. unfold sample_one_token. unfold bind at 1.
  rewrite (deepcopy_default_args _ _ _ _ Hg).
  cbv [setitem bind peek store request_body get_time emit ret heap_of next_loc clock out].
  rewrite upd_eq. reflexivity.
Qed.

Lemma probe_args_json h n :
  to_json FUEL (probe_heap h n) (VRef (S n)) =
  JObj (jdict_set (json_fields default_client_args_json) "max_tokens" (JInt 1)).
Proof.
  unfold probe_heap, upd, FUEL. simpl. eqb_tac. simpl. eqb_tac. reflexivity.
Qed.

(** *** Decimal rendering of the timestamp fields *)

Lemma digits_acc_lt10 f n acc :
  0 <= n < 10 -> digits_acc (S f) n acc = String (digit_char n) acc.
Proof.
  intros Hn. simpl. rewrite Z.mod_small by lia.
  destruct (Z.ltb_spec n 10); [reflexivity|lia].
Qed.

Lemma digits_acc_ge10 f n acc :
  10 <= n -> digits_acc (S f) n acc = digits_acc f (n / 10) (String (digit_char (n mod 10)) acc).
Proof. intros Hn. simpl. destruct (Z.ltb_spec n 10); [lia|reflexivity]. Qed.

Lemma digit_char_inj a b : 0 <= a < 10 -> 0 <= b < 10 -> digit_char a = digit_char b -> a = b.
Proof.
  unfold digit_char. intros Ha Hb E.
  apply (f_equal nat_of_ascii) in E. rewrite !nat_ascii_embedding in E by lia. lia.
Qed.

Lemma py_str_int_4 y :
  1000 <= y <= 9999 ->
  py_str_int y =
  String (digit_char (y / 10 / 10 / 10)) (String (digit_char (y / 10 / 10 mod 10))
    (String (digit_char (y / 10 mod 10)) (String (digit_char (y mod 10)) EmptyString))).
Proof.
  intros Hy. unfold py_str_int. destruct (Z.ltb_spec y 0); [lia|].
  assert (9 <= Z.log2 y) by (change 9 with (Z.log2 1000); apply Z.log2_le_mono; lia).
  destruct (Z.to_nat (Z.log2 y)) as [|[|[|f]]] eqn:E; [lia..|].
  rewrite digits_acc_ge10 by lia. rewrite digits_acc_ge10 by (apply Z.div_le_lower_bound; lia).
  rewrite digits_acc_ge10 by (do 2 (apply Z.div_le_lower_bound; [lia|]); lia).
  rewrite digits_acc_lt10; [reflexivity|].
  split; [do 3 (apply Z.div_pos; [|lia]); lia|].
  do 3 (apply Z.div_lt_upper_bound; [lia|]). lia.
Qed.

Lemma pad2_2 n :
  0 <= n <= 99 ->
  pad2 n = String (digit_char (n / 10)) (String (digit_char (n mod 10)) EmptyString).
Proof.
  intros Hn. unfold pad2, py_str_int. destruct (Z.ltb_spec n 0); [lia|].
  destruct (Z.ltb_spec n 10).
  - rewrite Z.div_small, Z.mod_small by lia.
    rewrite digits_acc_lt10 by lia. reflexivity.
  - assert (3 <= Z.log2 n) by (change 3 with (Z.log2 10); apply Z.log2_le_mono; lia).
    destruct (Z.to_nat (Z.log2 n)) as [|f] eqn:E; [lia|].
    rewrite digits_acc_ge10 by lia.
    destruct f as [|f]; [lia|]. rewrite digits_acc_lt10; [reflexivity|].
    split; [apply Z.div_pos; lia|apply Z.div_lt_upper_bound; lia].
Qed.

Lemma div10_inj a b : a / 10 = b / 10 -> a mod 10 = b mod 10 -> a = b.
Proof. intros E1 E2. rewrite (Z.div_mod a 10), (Z.div_mod b 10) by lia. congruence. Qed.

Lemma digit_bounds n : 0 <= n -> 0 <= n mod 10 < 10 /\ 0 <= n / 10.
Proof. intros Hn. split; [apply Z.mod_pos_bound; lia|apply Z.div_pos; lia]. Qed.

Lemma pad2_inj a b : 0 <= a <= 99 -> 0 <= b <= 99 -> pad2 a = pad2 b -> a = b.
Proof.
  intros Ha Hb E. rewrite (pad2_2 a Ha), (pad2_2 b Hb) in E.
  injection E as E1 E2. apply div10_inj.
  - apply digit_char_inj; [split; [apply Z.div_pos|apply Z.div_lt_upper_bound]; lia..|exact E1].
  - apply digit_char_inj; [apply Z.mod_pos_bound; lia..|exact E2].
Qed.

Lemma py_str_int_4_inj a b :
  1000 <= a <= 9999 -> 1000 <= b <= 9999 -> py_str_int a = py_str_int b -> a = b.
Proof.
  intros Ha Hb E. rewrite (py_str_int_4 a Ha), (py_str_int_4 b Hb) in E.
  injection E as E3 E2 E1 E0.
  assert (Q : forall x, 1000 <= x <= 9999 -> 0 <= x / 10 / 10 / 10 < 10).
  { intros x Hx. split; [do 3 (apply Z.div_pos; [|lia]); lia|].
    do 3 (apply Z.div_lt_upper_bound; [lia|]). lia. }
  assert (P : forall x, 0 <= x -> 0 <= x mod 10 < 10) by (intros; apply Z.mod_pos_bound; lia).
  assert (N : forall x, 0 <= x -> 0 <= x / 10) by (intros; apply Z.div_pos; lia).
  apply digit_char_inj in E3; [|apply Q; lia..].
  apply digit_char_inj in E2; [|apply P; apply N; apply N; lia..].
  apply digit_char_inj in E1; [|apply P; apply N; lia..].
  apply digit_char_inj in E0; [|apply P; lia..].
  apply div10_inj; [apply div10_inj; [apply div10_inj|]|]; assumption.
Qed.

Lemma append_length_inj (a b x y : string) :
  String.length a = String.length b -> a +:+ x = b +:+ y -> a = b /\ x = y.
Proof.
  revert b. induction a as [|c a IH]; intros [|c' b] Hl E; simpl in *; try discriminate.
  - split; [reflexivity|exact E].
  - injection Hl as Hl. injection E as <- E. destruct (IH b Hl E) as [-> ->]. split; reflexivity.
Qed.

Lemma strftime_ts_inj d1 d2 :
  valid_datetime d1 = true -> valid_datetime d2 = true ->
  strftime_ts d1 = strftime_ts d2 ->
  (dt_year d1, dt_month d1, dt_day d1, dt_hour d1, dt_minute d1, dt_second d1) =
  (dt_year d2, dt_month d2, dt_day d2, dt_hour d2, dt_minute d2, dt_second d2).
Proof.
  destruct d1 as [y1 mo1 dd1 h1 mi1 s1 us1], d2 as [y2 mo2 dd2 h2 mi2 s2 us2].
  unfold valid_datetime, strftime_ts. simpl.
  intros V1 V2. repeat rewrite andb_true_iff in V1, V2. rewrite !Z.leb_le in V1, V2.
  rewrite (py_str_int_4 y1), (py_str_int_4 y2), (pad2_2 mo1), (pad2_2 mo2), (pad2_2 dd1),
    (pad2_2 dd2), (pad2_2 h1), (pad2_2 h2), (pad2_2 mi1), (pad2_2 mi2), (pad2_2 s1),
    (pad2_2 s2) by lia.
  simpl. intros E.
  injection E as Y3 Y2 Y1 Y0 M1 M0 D1 D0 H1 H0 I1 I0 S1 S0.
  assert (Ey : y1 = y2).
  { apply py_str_int_4_inj; [lia|lia|]. rewrite (py_str_int_4 y1), (py_str_int_4 y2) by lia.
    rewrite Y3, Y2, Y1, Y0. reflexivity. }
  assert (P : forall a b, 0 <= a <= 99 -> 0 <= b <= 99 ->
            digit_char (a / 10) = digit_char (b / 10) ->
            digit_char (a mod 10) = digit_char (b mod 10) -> a = b).
  { intros a b Ha Hb Ea Eb. apply pad2_inj; [exact Ha|exact Hb|].
    rewrite (pad2_2 a Ha), (pad2_2 b Hb), Ea, Eb. reflexivity. }
  rewrite Ey, (P mo1 mo2), (P dd1 dd2), (P h1 h2), (P mi1 mi2), (P s1 s2) by (assumption || lia).
  reflexivity.
Qed.

Lemma strftime_ts_length d :
  valid_datetime d = true -> String.length (strftime_ts d) = 19%nat.
Proof.
  destruct d as [y mo dd h mi s us]. unfold valid_datetime, strftime_ts. simpl.
  intros V. repeat rewrite andb_true_iff in V. rewrite !Z.leb_le in V.
  rewrite (py_str_int_4 y), (pad2_2 mo), (pad2_2 dd), (pad2_2 h), (pad2_2 mi), (pad2_2 s) by lia.
  reflexivity.
Qed.

(** The JSON of the message [create_initial_message] builds. *)
Definition context_message_json (text : string) : json :=
  JObj [("role", JStr "user");
        ("content", JArr [JObj [("type", JStr "text"); ("text", JStr text);
                                ("cache_control", JObj [("type", JStr "ephemeral")])]])].

Lemma context_json h n text :
  to_json FUEL (context_heap h n text) (VRef (S (S (S n)))) = context_message_json text.
Proof.
  unfold context_heap, upd, FUEL. simpl. repeat (eqb_tac; simpl). reflexivity.
Qed.

Lemma context_message_json_inj a b : context_message_json a = context_message_json b -> a = b.
Proof.
  intros E.
  change a with (match context_message_json a with
                 | JObj [_; (_, JArr [JObj [_; (_, JStr t); _]])] => t | _ => a end).
  rewrite E. reflexivity.
Qed.

Lemma context_text_ts ts1 ts2 a1 b1 a2 b2 :
  String.length ts1 = String.length ts2 ->
  context_text ts1 a1 b1 = context_text ts2 a2 b2 -> ts1 = ts2.
Proof.
  unfold context_text. intros Hl E.
  apply append_length_inj in E as [_ E]; [|reflexivity].
  apply append_length_inj in E as [_ E]; [|reflexivity].
  exact (proj1 (append_length_inj _ _ _ _ Hl E)).
Qed.

(** Two worlds that differ only below the second. *)
Definition sample_now_later_us : datetime := mk_datetime 2024 11 5 14 3 27 987654.

Definition sample_world_later_us : world := mk_world sample_now_later_us ok_fetch sample_service.

(** *** What [copy.deepcopy] allocates *)

(** A value that is an atom or refers to an object allocated at or after [n]. *)
Definition fresh_val (n : loc) (v : val) : Prop :=
  match v with VRef l => (n <= l)%nat | _ => True end.

(** [st'] allocated past [st] and left every older object as it was. *)
Definition frame (st st' : state) : Prop :=
  (next_loc st <= next_loc st')%nat /\
  forall l, (l < next_loc st)%nat -> heap_of st' l = heap_of st l.

Lemma frame_refl st : frame st st.
Proof. split; [lia|reflexivity]. Qed.

Lemma frame_trans s1 s2 s3 : frame s1 s2 -> frame s2 s3 -> frame s1 s3.
Proof.
  intros [L1 H1] [L2 H2]. split; [lia|]. intros l Hl. rewrite H2 by lia. auto.
Qed.

Lemma fresh_val_mono n n' v : (n <= n')%nat -> fresh_val n' v -> fresh_val n v.
Proof. destruct v; simpl; auto; lia. Qed.

Lemma frame_alloc st o : frame st (snd (alloc o st)).
Proof.
  split; [simpl; lia|]. intros l Hl. simpl. unfold upd. rewrite eqb_ne by lia. reflexivity.
Qed.

Lemma mapM_frame {A B} (g : A -> M B) (Q : loc -> B -> Prop) :
  (forall n n' y, (n <= n')%nat -> Q n' y -> Q n y) ->
  (forall x st r st', g x st = (r, st') -> frame st st' /\ exists y, r = inr y /\ Q (next_loc st) y) ->
  forall xs st r st', mapM g xs st = (r, st') ->
  frame st st' /\ exists ys, r = inr ys /\ Forall (Q (next_loc st)) ys.
Proof.
  intros Qm Hg xs. induction xs as [|x xs IH]; intros st r st' E.
  - injection E as <- <-. split; [apply frame_refl|]. exists []. split; [reflexivity|constructor].
  - simpl in E. unfold bind at 1 in E.
    destruct (g x st) as [r1 st1] eqn:E1.
    destruct (Hg _ _ _ _ E1) as [F1 [y [-> Qy]]].
    unfold bind in E. destruct (mapM g xs st1) as [r2 st2] eqn:E2.
    destruct (IH _ _ _ E2) as [F2 [ys [-> Qys]]].
    injection E as <- <-. split; [exact (frame_trans _ _ _ F1 F2)|].
    exists (y :: ys). split; [reflexivity|]. constructor; [exact Qy|].
    eapply Forall_impl; [exact Qys|]. intros z. apply Qm. exact (proj1 F1).
Qed.

Lemma deepcopy_frame f : forall v st r st',
  deepcopy f v st = (r, st') ->
  frame st st' /\
  exists v', r = inr v' /\ fresh_val (next_loc st) v' /\
  forall l, v' = VRef l ->
  exists o, heap_of st' l = Some o /\ Forall (fresh_val (next_loc st)) (obj_vals o).
Proof.
  induction f as [|f IH]; intros v st r st' E.
  - destruct v; injection E as <- <-; (split; [apply frame_refl|]);
      eexists; (split; [reflexivity|]); simpl; (split; [exact I|intros l' Hl'; discriminate]).
  - destruct v as [| | |l];
      [injection E as <- <-; (split; [apply frame_refl|]);
       eexists; (split; [reflexivity|]); simpl; (split; [exact I|intros l' Hl'; discriminate])..|].
    simpl in E. unfold bind at 1, peek in E.
    destruct (heap_of st l) as [[kvs|xs]|].
    + unfold bind in E.
      destruct (mapM _ kvs st) as [r1 st1] eqn:E1.
      apply (mapM_frame _ (fun n (p : string * val) => fresh_val n (snd p))) in E1 as [F1 [kvs' [-> Q1]]].
      2: intros ? ? [? ?]; apply fresh_val_mono.
      2: intros [k x] s0 r0 s1 Ex; unfold bind in Ex;
         destruct (deepcopy f x s0) as [rx sx] eqn:Ed;
         destruct (IH _ _ _ _ Ed) as [Fx [x' [-> [Hx _]]]];
         injection Ex as <- <-; split; [exact Fx|eexists; split; [reflexivity|exact Hx]].
      injection E as <- <-. split; [exact (frame_trans _ _ _ F1 (frame_alloc _ _))|].
      eexists. split; [reflexivity|]. split; [simpl; exact (proj1 F1)|].
      intros l' [= <-]. eexists. split; [apply upd_eq|]. simpl.
      apply Forall_map. exact Q1.
    + unfold bind in E.
      destruct (mapM (deepcopy f) xs st) as [r1 st1] eqn:E1.
      apply (mapM_frame _ fresh_val fresh_val_mono) in E1 as [F1 [xs' [-> Q1]]].
      2: intros x s0 r0 s1 Ex; destruct (IH _ _ _ _ Ex) as [Fx [x' [-> [Hx _]]]];
         split; [exact Fx|eexists; split; [reflexivity|exact Hx]].
      injection E as <- <-. split; [exact (frame_trans _ _ _ F1 (frame_alloc _ _))|].
      eexists. split; [reflexivity|]. split; [simpl; exact (proj1 F1)|].
      intros l' [= <-]. eexists. split; [apply upd_eq|]. exact Q1.
    + injection E as <- <-. split; [apply frame_refl|].
      eexists. split; [reflexivity|]. split; [exact I|intros l' Hl'; discriminate].
Qed.

Lemma dict_get_Forall (P : val -> Prop) kvs k v :
  Forall P (map snd kvs) -> dict_get kvs k = Some v -> P v.
Proof.
  induction kvs as [|[k' x] kvs IH]; simpl; [discriminate|].
  intros Hf. inversion Hf as [|? ? Hx Hr]; subst.
  destruct (String.eqb k k'); [intros [= <-]; exact Hx|auto].
Qed.

Lemma copy_with_question_frame v st r st' :
  copy_with_question v st = (r, st') -> frame st st'.
Proof.
  unfold copy_with_question. unfold bind at 1.
  destruct (deepcopy FUEL v st) as [r1 st1] eqn:E1.
  destruct (deepcopy_frame _ _ _ _ _ E1) as [F1 [full [-> [Hf Ho]]]].
  destruct full as [| | |l]; simpl; try (intros [= _ <-]; exact F1).
  destruct (Ho l eq_refl) as [o [Hl Hvs]].
  cbv [bind peek]. rewrite Hl.
  destruct o as [kvs|xs]; [|cbv [raise]; intros [= _ <-]; exact F1].
  simpl in Hvs. destruct (dict_get kvs "content") as [c|] eqn:Ec;
    [|cbv [raise]; intros [= _ <-]; exact F1].
  pose proof (dict_get_Forall _ _ _ _ Hvs Ec) as Hc.
  cbv [ret alloc]. cbn [heap_of next_loc clock out].
  pose proof (frame_trans _ _ _ F1 (frame_alloc st1 question_block)) as F2.
  cbn [snd alloc heap_of next_loc clock out] in F2.
  destruct c as [| | |lc]; cbv [list_append bind peek store raise ret];
    try (intros [= _ <-]; exact F2).
  cbn [heap_of].
  destruct (upd (heap_of st1) (next_loc st1) question_block lc) as [[?|ys]|];
    try (intros [= _ <-]; exact F2).
  intros [= _ <-]. destruct F2 as [L2 H2]. cbn [next_loc heap_of] in L2, H2.
  split; [simpl; lia|]. intros l' Hl'. simpl. unfold upd at 1.
  rewrite eqb_ne by (simpl in Hc; lia). exact (H2 l' Hl').
Qed.

(** *** The usage counts only reach the printed statistics *)

(** The same service, answering with other usage counts. *)
Definition with_usage (svc : service) (u : usage) : service :=
  mk_service (probe_latency svc) (probe_error svc) (final_error svc) (stream_units svc) u.

Definition with_usage_w (w : world) (u : usage) : world :=
  mk_world (w_now w) (w_fetch w) (with_usage (w_svc w) u).

Lemma print_query_statistics_run u qt st :
  print_query_statistics u qt st =
  (inr tt, mk_state (heap_of st) (next_loc st) (clock st)
                    (out st ++ map EPrint (query_statistics_lines u qt))).
Proof.
  destruct st as [h n c o].
  cbv [print_query_statistics query_statistics_lines fold_right bind emit ret map
       heap_of next_loc clock out].
  rewrite <- !app_assoc. reflexivity.
Qed.

Lemma get_final_message_run svc t0 st :
  get_final_message svc t0 st =
  (inr (final_usage svc), at_clock st (Z.max (clock st) (t0 + stream_total svc))).
Proof. destruct st; reflexivity. Qed.

(** Two runs that differ only in the usage counts [u1], [u2] the service
    reports: same result, heap, allocator and clock, and the same log but
    for the statistics lines printed last. *)
Definition usage_rel (u1 u2 : usage) (qt : string) {A} (p1 p2 : (exc + A) * state) : Prop :=
  fst p1 = fst p2 /\ heap_of (snd p1) = heap_of (snd p2) /\
  next_loc (snd p1) = next_loc (snd p2) /\ clock (snd p1) = clock (snd p2) /\
  ((exists e, fst p1 = inl e) /\ out (snd p1) = out (snd p2) \/
   (exists v, fst p1 = inr v) /\
   exists pre, out (snd p1) = pre ++ map EPrint (query_statistics_lines u1 qt) /\
               out (snd p2) = pre ++ map EPrint (query_statistics_lines u2 qt)).

Lemma usage_rel_inl u1 u2 qt {A} e s : @usage_rel u1 u2 qt A (inl e, s) (inl e, s).
Proof. repeat split. left. split; [eexists; reflexivity|reflexivity]. Qed.

Lemma bind_same {A B} (m : M A) (k1 k2 : A -> M B) st (R : (exc + B) * state -> (exc + B) * state -> Prop) :
  (forall e s, R (inl e, s) (inl e, s)) -> (forall x s, R (k1 x s) (k2 x s)) ->
  R (bind m k1 st) (bind m k2 st).
Proof. intros Hl Hr. unfold bind. destruct (m st) as [[e|x] s]; auto. Qed.

Lemma stream_and_report_usage svc u' qt m st :
  usage_rel (final_usage svc) u' qt
    (stream_and_report svc qt m st) (stream_and_report (with_usage svc u') qt m st).
Proof.
  destruct svc as [lat perr ferr units usage].
  unfold with_usage. cbn [probe_latency probe_error final_error stream_units final_usage].
  unfold stream_and_report.
  do 4 (apply bind_same; [intros; apply usage_rel_inl|intros ? ?]).
  unfold bind. rewrite !get_final_message_run. cbn [get_time at_clock clock].
  rewrite !print_query_statistics_run. unfold ret.
  repeat split. right. split; [eexists; reflexivity|]. eexists. split; reflexivity.
Qed.

Lemma speculative_demo_usage think w u' st :
  usage_rel (final_usage (w_svc w)) u' "Speculative Caching"
    (speculative_prompt_caching_demo_t think w st)
    (speculative_prompt_caching_demo_t think (with_usage_w w u') st).
Proof.
  unfold speculative_prompt_caching_demo_t.
  do 6 (apply bind_same; [intros; apply usage_rel_inl|intros ? ?]).
  apply stream_and_report_usage.
Qed.

Lemma standard_demo_usage think w u' st :
  usage_rel (final_usage (w_svc w)) u' "Standard Caching"
    (standard_prompt_caching_demo_t think w st)
    (standard_prompt_caching_demo_t think (with_usage_w w u') st).
Proof.
  unfold standard_prompt_caching_demo_t.
  do 3 (apply bind_same; [intros; apply usage_rel_inl|intros ? ?]).
  apply stream_and_report_usage.
Qed.

(** *** Facts about the loader and the context message *)

(** The download results [asyncio.gather] collects, in task order. *)
Definition downloads (srcs : list (string * string)) (w : world) : list (Z * (exc + (string * string))) :=
  map (fun '(filename, url) => download_file filename (w_fetch w url)) srcs.




Lemma successes_in {A} (rs : list (Z * (exc + A))) d a : In (d, inr a) rs -> In a (successes rs).
Proof.
  induction rs as [|[d0 [e0|a0]] r IH]; simpl; [intros []| |].
  - intros [E|H]; [discriminate|auto].
  - intros [E|H]; [injection E as <- <-; left; reflexivity|right; auto].
Qed.

Lemma list_to_map_lookup_in (l : list (string * string)) k x :
  List.NoDup (map fst l) -> In (k, x) l -> (list_to_map l : gmap string string) !! k = Some x.
Proof.
  induction l as [|[a y] l IH]; simpl; [intros _ []|].
  intros Hnd Hin. inversion Hnd as [|? ? Ha Hr]; subst.
  destruct Hin as [E|Hin].
  - injection E as <- <-. apply lookup_insert_eq.
  - rewrite lookup_insert_ne; [auto|]. intros E. apply Ha.
    apply in_map_iff. exists (k, x). split; [simpl; congruence|exact Hin].
Qed.

Lemma download_file_ok fn o d k text :
  download_file fn o = (d, inr (k, text)) ->
  k = fn /\ exists status, o = FResponse d status text /\ 200 <= status < 300.
Proof.
  unfold download_file. destruct o as [d0|d0 status text0]; [discriminate|].
  destruct (Z.leb_spec 200 status), (Z.ltb_spec status 300); simpl; try discriminate.
  intros [= <- <- <-]. split; [reflexivity|]. exists status. split; [reflexivity|lia].
Qed.

(** When no download fails, every requested URL answered with a 2xx
    response. *)
Lemma downloads_all_ok srcs w :
  first_failure (downloads srcs w) = None ->
  forall fn url, In (fn, url) srcs ->
  exists d status text, w_fetch w url = FResponse d status text /\ 200 <= status < 300.
Proof.
  intros F fn url Hin.
  assert (Hd : In (download_file fn (w_fetch w url)) (downloads srcs w)).
  { unfold downloads. apply in_map_iff. exists (fn, url). split; [reflexivity|exact Hin]. }
  destruct (download_file fn (w_fetch w url)) as [d [e|[k text]]] eqn:E.
  - exfalso. exact (first_failure_none _ d e F Hd).
  - destruct (download_file_ok _ _ _ _ _ E) as [_ [status [Ho Hs]]].
    exists d, status, text. split; assumption.
Qed.

(** *** Dicts *)

Lemma dict_get_set kvs k v : dict_get (dict_set kvs k v) k = Some v.
Proof.
  induction kvs as [|[k' v'] r IH]; simpl; [rewrite String.eqb_refl; reflexivity|].
  destruct (String.eqb_spec k k') as [->|Hne]; simpl.
  - rewrite String.eqb_refl. reflexivity.
  - rewrite (proj2 (String.eqb_neq k k') Hne). exact IH.
Qed.

(** *** [str.strip] *)

Definition is_space (c : Z) : Prop := py_isspace c = true.

Lemma lstrip_split l :
  exists p, l = p ++ lstrip_list l /\ Forall is_space p.
Proof.
  induction l as [|c l IH]; simpl; [exists []; split; [reflexivity|constructor]|].
  destruct (py_isspace c) eqn:E.
  - destruct IH as [p [Hp Hs]]. exists (c :: p). split; [simpl; f_equal; exact Hp|].
    constructor; [exact E|exact Hs].
  - exists []. split; [reflexivity|constructor].
Qed.

Lemma lstrip_head l :
  match lstrip_list l with [] => True | c :: _ => py_isspace c = false end.
Proof.
  induction l as [|c l IH]; simpl; [exact I|].
  destruct (py_isspace c) eqn:E; [exact IH|exact E].
Qed.

Lemma lstrip_keep l :
  match l with [] => True | c :: _ => py_isspace c = false end -> lstrip_list l = l.
Proof. destruct l as [|c l]; simpl; [reflexivity|]. intros E. rewrite E. reflexivity. Qed.

Lemma lstrip_nil_iff l : lstrip_list l = [] <-> Forall is_space l.
Proof.
  induction l as [|c l IH]; simpl; [split; [constructor|reflexivity]|].
  destruct (py_isspace c) eqn:E.
  - rewrite IH. split; [intros H; constructor; [exact E|exact H]|intros H; inversion H; assumption].
  - split; [discriminate|intros H; inversion H as [|? ? Hc]; unfold is_space in Hc; congruence].
Qed.

Lemma Forall_rev_iff {A} (P : A -> Prop) l : Forall P (rev l) <-> Forall P l.
Proof.
  split; intros H; apply List.Forall_forall; intros x Hx; eapply List.Forall_forall; try exact H.
  - apply List.in_rev in Hx. exact Hx.
  - apply List.in_rev. exact Hx.
Qed.

(** *** Decimal rendering of integers *)

(** The value of a string of decimal digits, read left to right. *)
Fixpoint dval (s : string) (a : Z) : Z :=
  match s with
  | EmptyString => a
  | String c s' => dval s' (10 * a + (Z.of_nat (nat_of_ascii c) - 48))
  end.

Lemma dval_digit_char d a s : 0 <= d < 10 -> dval (String (digit_char d) s) a = dval s (10 * a + d).
Proof.
  intros Hd. simpl. unfold digit_char. rewrite nat_ascii_embedding by lia. f_equal. lia.
Qed.

Lemma digits_acc_dval f n acc :
  0 <= n < 10 ^ Z.of_nat (S f) -> dval (digits_acc (S f) n acc) 0 = dval acc n.
Proof.
  revert n acc. induction f as [|f IH]; intros n acc Hn.
  - rewrite digits_acc_lt10 by (simpl in Hn; lia). rewrite dval_digit_char by (simpl in Hn; lia).
    f_equal; lia.
  - destruct (Z.ltb_spec n 10).
    + rewrite digits_acc_lt10 by lia. rewrite dval_digit_char by lia. f_equal; lia.
    + rewrite digits_acc_ge10 by lia. rewrite IH.
      * rewrite dval_digit_char by (apply Z.mod_pos_bound; lia). f_equal.
        pose proof (Z.div_mod n 10). lia.
      * split; [apply Z.div_pos; lia|]. apply Z.div_lt_upper_bound; [lia|].
        rewrite Nat2Z.inj_succ, Z.pow_succ_r in Hn by lia. lia.
Qed.

Lemma digits_acc_head f n acc :
  0 <= n -> exists d rest, digits_acc (S f) n acc = String (digit_char d) rest /\ 0 <= d < 10.
Proof.
  revert n acc. induction f as [|f IH]; intros n acc Hn; simpl.
  - destruct (n <? 10); eexists _, _; split; [reflexivity| |reflexivity|];
      apply Z.mod_pos_bound; lia.
  - destruct (Z.ltb_spec n 10).
    + eexists _, _. split; [reflexivity|]. apply Z.mod_pos_bound; lia.
    + apply IH. apply Z.div_pos; lia.
Qed.

Lemma py_str_int_fuel n : 0 <= n -> 0 <= n < 10 ^ Z.of_nat (S (Z.to_nat (Z.log2 n))).
Proof.
  intros Hn. split; [exact Hn|].
  rewrite Nat2Z.inj_succ, Z2Nat.id by apply Z.log2_nonneg.
  destruct (Z.eq_dec n 0) as [->|Hn0]; [simpl; lia|].
  apply Z.lt_le_trans with (2 ^ Z.succ (Z.log2 n)).
  - apply Z.log2_spec. lia.
  - apply Z.pow_le_mono_l. split; [lia|lia].
Qed.

Lemma py_str_int_nonneg n :
  0 <= n -> py_str_int n = digits_acc (S (Z.to_nat (Z.log2 n))) n EmptyString.
Proof. intros Hn. unfold py_str_int. destruct (Z.ltb_spec n 0); [lia|reflexivity]. Qed.

Lemma py_str_int_neg n :
  n < 0 -> py_str_int n = String "-" (digits_acc (S (Z.to_nat (Z.log2 (- n)))) (- n) EmptyString).
Proof. intros Hn. unfold py_str_int. destruct (Z.ltb_spec n 0); [reflexivity|lia]. Qed.

Lemma py_str_int_dval n : 0 <= n -> dval (py_str_int n) 0 = n.
Proof.
  intros Hn. rewrite py_str_int_nonneg by exact Hn.
  rewrite digits_acc_dval by (apply py_str_int_fuel; exact Hn). reflexivity.
Qed.

Lemma digit_char_not_minus d : 0 <= d < 10 -> digit_char d <> "-"%char.
Proof.
  intros Hd E. apply (f_equal nat_of_ascii) in E. unfold digit_char in E.
  rewrite nat_ascii_embedding in E by lia. change (nat_of_ascii "-") with 45%nat in E. lia.
Qed.

(** What [str(n)] starts with: a digit, or a minus sign and a digit. *)
Lemma py_str_int_head n :
  (exists d rest, py_str_int n = String (digit_char d) rest /\ 0 <= d < 10) \/
  (exists d rest, py_str_int n = String "-" (String (digit_char d) rest) /\ 0 <= d < 10).
Proof.
  destruct (Z.ltb_spec n 0).
  - right. rewrite py_str_int_neg by lia.
    destruct (digits_acc_head (Z.to_nat (Z.log2 (- n))) (- n) EmptyString) as [d [rest [E Hd]]];
      [lia|]. rewrite E. eauto.
  - left. rewrite py_str_int_nonneg by lia. apply digits_acc_head. lia.
Qed.

Lemma append_cancel_l (a x y : string) : a +:+ x = a +:+ y -> x = y.
Proof. induction a as [|c a IH]; simpl; [auto|]. intros E. injection E as E. auto. Qed.

Lemma show_attr_inj a b : show_attr a = show_attr b -> a = b.
Proof.
  assert (Hm : forall z, py_str_int z <> "---").
  { intros z E. destruct (py_str_int_head z) as [[d [r [E' Hd]]]|[d [r [E' Hd]]]];
      rewrite E' in E.
    - apply (f_equal (String.get 0)) in E. cbn [String.get] in E. injection E as E.
      exact (digit_char_not_minus d Hd E).
    - apply (f_equal (String.get 1)) in E. cbn [String.get] in E. injection E as E.
      exact (digit_char_not_minus d Hd E). }
  assert (Hn : forall z, py_str_int z <> "None").
  { intros z E. destruct (py_str_int_head z) as [[d [r [E' Hd]]]|[d [r [E' Hd]]]];
      rewrite E' in E; apply (f_equal (String.get 0)) in E; cbn [String.get] in E;
      injection E as E; [|discriminate].
    apply (f_equal nat_of_ascii) in E. unfold digit_char in E.
    rewrite nat_ascii_embedding in E by lia. change (nat_of_ascii "N") with 78%nat in E. lia. }
  destruct a as [| |z], b as [| |z']; simpl; intros E; try reflexivity; try discriminate;
    try (exfalso; eapply Hm; eauto; fail); try (exfalso; eapply Hn; eauto; fail).
  f_equal. destruct (Z.ltb_spec z 0), (Z.ltb_spec z' 0).
  - rewrite !py_str_int_neg in E by lia.
    apply (f_equal (fun s => match s with String _ t => dval t 0 | EmptyString => 0 end)) in E.
    cbv beta iota in E.
    rewrite !digits_acc_dval in E by (apply py_str_int_fuel; lia). simpl in E. lia.
  - exfalso. rewrite py_str_int_neg in E by lia.
    destruct (py_str_int_head z') as [[d [r [E' Hd]]]|[d [r [E' Hd]]]]; rewrite E' in E.
    + injection E as E1. exact (digit_char_not_minus d Hd (eq_sym E1)).
    + rewrite py_str_int_nonneg in E' by lia.
      destruct (digits_acc_head (Z.to_nat (Z.log2 z')) z' EmptyString) as [d' [r' [E'' Hd']]];
        [lia|]. rewrite E'' in E'. injection E' as E1. exact (digit_char_not_minus d' Hd' E1).
  - exfalso. rewrite (py_str_int_neg z') in E by lia.
    destruct (py_str_int_head z) as [[d [r [E' Hd]]]|[d [r [E' Hd]]]]; rewrite E' in E.
    + injection E as E1. exact (digit_char_not_minus d Hd E1).
    + rewrite py_str_int_nonneg in E' by lia.
      destruct (digits_acc_head (Z.to_nat (Z.log2 z)) z EmptyString) as [d' [r' [E'' Hd']]];
        [lia|]. rewrite E'' in E'. injection E' as E1. exact (digit_char_not_minus d' Hd' E1).
  - rewrite <- (py_str_int_dval z), <- (py_str_int_dval z') by lia. rewrite E. reflexivity.
Qed.

(** *** [copy.deepcopy] reproduces what it copies *)

(** A value that is an atom or refers below location [n]. *)
Definition below (n : loc) (v : val) : Prop :=
  match v with VRef l => (l < n)%nat | _ => True end.

(** Every object allocated so far refers only to allocated objects. *)
Definition closed_heap (st : state) : Prop :=
  forall l o, (l < next_loc st)%nat -> heap_of st l = Some o ->
  Forall (below (next_loc st)) (obj_vals o).

Lemma below_mono n n' v : (n <= n')%nat -> below n v -> below n' v.
Proof. destruct v; simpl; auto; lia. Qed.

Lemma Forall_below_mono n n' vs : (n <= n')%nat -> Forall (below n) vs -> Forall (below n') vs.
Proof. intros Hn H. eapply Forall_impl; [exact H|]. intros v. apply below_mono. exact Hn. Qed.

Lemma closed_alloc st o :
  closed_heap st -> Forall (below (next_loc st)) (obj_vals o) -> closed_heap (snd (alloc o st)).
Proof.
  intros Hc Ho l o'. cbn [snd alloc heap_of next_loc]. intros Hl. unfold upd.
  destruct (Nat.eqb l (next_loc st)) eqn:E.
  - intros [= <-]. eapply Forall_below_mono; [|exact Ho]. lia.
  - intros Hl'. apply Nat.eqb_neq in E.
    eapply Forall_below_mono; [|apply (Hc l); [lia|exact Hl']]. lia.
Qed.

(** The serialisation of a value only reads objects below it. *)
Lemma to_json_frame g : forall st1 st2 x,
  closed_heap st1 -> frame st1 st2 -> below (next_loc st1) x ->
  to_json g (heap_of st2) x = to_json g (heap_of st1) x.
Proof.
  induction g as [|g IH]; intros st1 st2 x Hc [Hn Hh] Hx; destruct x as [| | |l]; try reflexivity.
  cbn [to_json]. cbn [below] in Hx. rewrite (Hh l Hx).
  destruct (heap_of st1 l) as [[kvs|xs]|] eqn:El; [| |reflexivity].
  - pose proof (Hc l _ Hx El) as Hk. cbn [obj_vals] in Hk. f_equal. apply List.map_ext_in.
    intros [k y] Hin. cbv beta iota. f_equal. apply IH; [assumption|split; assumption|].
    eapply List.Forall_forall; [exact Hk|]. apply (List.in_map snd) in Hin. exact Hin.
  - pose proof (Hc l _ Hx El) as Hk. cbn [obj_vals] in Hk. f_equal. apply List.map_ext_in.
    intros y Hin. apply IH; [assumption|split; assumption|].
    eapply List.Forall_forall; [exact Hk|exact Hin].
Qed.

Lemma mapM_inv {A B} (g : A -> M B) (I : state -> Prop) (P : A -> Prop)
  (Q : state -> A -> B -> Prop) :
  (forall s1 s2 x y, I s1 -> frame s1 s2 -> Q s1 x y -> Q s2 x y) ->
  (forall x s r s', I s -> P x -> g x s = (r, s') ->
     I s' /\ frame s s' /\ exists y, r = inr y /\ Q s' x y) ->
  forall xs s r s', I s -> Forall P xs -> mapM g xs s = (r, s') ->
  I s' /\ frame s s' /\ exists ys, r = inr ys /\ Forall2 (Q s') xs ys.
Proof.
  intros HQ Hg xs. induction xs as [|x xs IH]; intros s r s' Hi Hp E.
  - injection E as <- <-. split; [exact Hi|split; [apply frame_refl|]].
    exists []. split; [reflexivity|constructor].
  - apply List.Forall_cons_iff in Hp as [Px Pxs]. simpl in E. unfold bind at 1 in E.
    destruct (g x s) as [r1 s1] eqn:E1. destruct (Hg _ _ _ _ Hi Px E1) as [I1 [F1 [y [-> Qy]]]].
    unfold bind in E. destruct (mapM g xs s1) as [r2 s2] eqn:E2.
    destruct (IH _ _ _ I1 Pxs E2) as [I2 [F2 [ys [-> Qys]]]].
    injection E as <- <-. split; [exact I2|split; [exact (frame_trans _ _ _ F1 F2)|]].
    exists (y :: ys). split; [reflexivity|]. constructor; [exact (HQ _ _ _ _ I1 F2 Qy)|exact Qys].
Qed.

Lemma Forall2_Forall_r {A B} (R : A -> B -> Prop) (P : B -> Prop) xs ys :
  (forall x y, R x y -> P y) -> Forall2 R xs ys -> Forall P ys.
Proof. intros H F. induction F; constructor; eauto. Qed.

Lemma Forall2_map_eq {A B C} (R : A -> B -> Prop) (f : B -> C) (h : A -> C) xs ys :
  (forall x y, R x y -> f y = h x) -> Forall2 R xs ys -> map f ys = map h xs.
Proof. intros H F. induction F; simpl; f_equal; eauto. Qed.

Lemma deepcopy_json f : forall v st r st',
  closed_heap st -> below (next_loc st) v -> deepcopy f v st = (r, st') ->
  closed_heap st' /\ frame st st' /\
  exists v', r = inr v' /\ below (next_loc st') v' /\
  forall g, (g <= f)%nat -> to_json g (heap_of st') v' = to_json g (heap_of st) v.
Proof.
  induction f as [|f IH]; intros v st r st' Hc Hv E.
  - destruct v as [| | |l]; injection E as <- <-;
      (split; [exact Hc|split; [apply frame_refl|]]); eexists; (split; [reflexivity|]);
      (split; [cbn [below]; auto|]); intros g Hg;
      [reflexivity..|assert (g = 0%nat) as -> by lia; reflexivity].
  - destruct v as [| | |l];
      [injection E as <- <-; (split; [exact Hc|split; [apply frame_refl|]]);
       eexists; (split; [reflexivity|]); (split; [exact I|]); intros g Hg; reflexivity..|].
    cbn [below] in Hv. simpl in E. unfold bind at 1, peek in E.
    destruct (heap_of st l) as [[kvs|xs]|] eqn:El.
    + pose proof (Hc l _ Hv El) as Hk. cbn [obj_vals] in Hk. apply (proj1 (List.Forall_map _ _ _)) in Hk.
      unfold bind in E. destruct (mapM _ kvs st) as [r1 st1] eqn:E1.
      apply (mapM_inv _ (fun s => closed_heap s /\ frame st s)
               (fun p => below (next_loc st) (snd p))
               (fun s p p' => fst p' = fst p /\ below (next_loc s) (snd p') /\
                  forall g, (g <= f)%nat -> to_json g (heap_of s) (snd p') = to_json g (heap_of st) (snd p)))
        in E1 as [[C1 F1] [_ [kvs' [-> Q1]]]].
      2: { intros s1 s2 [k x] [k' y] [Cs1 _] Fs [Ek [By Ty]]. cbn [fst snd] in *. split; [exact Ek|].
           split; [eapply below_mono; [apply Fs|exact By]|].
           intros g Hg. rewrite (to_json_frame g s1 s2 y Cs1 Fs By). auto. }
      2: { intros [k x] s r0 s' [Cs Fs] Bx Ex. unfold bind in Ex.
           destruct (deepcopy f x s) as [rx sx] eqn:Ed.
           destruct (IH x s rx sx Cs (below_mono _ _ _ (proj1 Fs) Bx) Ed) as [Cx [Fx [x' [-> [Bx' Tx]]]]].
           injection Ex as <- <-. split; [split; [exact Cx|exact (frame_trans _ _ _ Fs Fx)]|].
           split; [exact Fx|]. eexists. split; [reflexivity|]. cbn [fst snd].
           split; [reflexivity|]. split; [exact Bx'|]. intros g Hg. rewrite (Tx g Hg).
           exact (to_json_frame g st s x Hc Fs Bx). }
      2: { split; [exact Hc|apply frame_refl]. }
      2: { exact Hk. }
      injection E as <- <-.
      assert (Hb : Forall (below (next_loc st1)) (obj_vals (ODict kvs'))).
      { cbn [obj_vals]. apply (proj2 (List.Forall_map _ _ _)).
        eapply Forall2_Forall_r; [|exact Q1]. intros p p' [_ [B _]]. exact B. }
      split; [exact (closed_alloc _ _ C1 Hb)|].
      split; [exact (frame_trans _ _ _ F1 (frame_alloc _ _))|].
      eexists. split; [reflexivity|]. split; [cbn; lia|].
      intros [|g] Hg; [reflexivity|]. cbn [to_json snd alloc heap_of next_loc].
      rewrite upd_eq, El. f_equal.
      eapply Forall2_map_eq; [|exact Q1]. intros [k x] [k' y] [Ek [By Ty]]. cbn [fst snd] in *.
      subst k'. f_equal. rewrite <- (Ty g) by lia.
      exact (to_json_frame g st1 (snd (alloc (ODict kvs') st1)) y C1 (frame_alloc _ _) By).
    + pose proof (Hc l _ Hv El) as Hk. cbn [obj_vals] in Hk.
      unfold bind in E. destruct (mapM (deepcopy f) xs st) as [r1 st1] eqn:E1.
      apply (mapM_inv _ (fun s => closed_heap s /\ frame st s) (below (next_loc st))
               (fun s x x' => below (next_loc s) x' /\
                  forall g, (g <= f)%nat -> to_json g (heap_of s) x' = to_json g (heap_of st) x))
        in E1 as [[C1 F1] [_ [xs' [-> Q1]]]].
      2: { intros s1 s2 x y [Cs1 _] Fs [By Ty].
           split; [eapply below_mono; [apply Fs|exact By]|].
           intros g Hg. rewrite (to_json_frame g s1 s2 y Cs1 Fs By). auto. }
      2: { intros x s r0 s' [Cs Fs] Bx Ex.
           destruct (IH x s r0 s' Cs (below_mono _ _ _ (proj1 Fs) Bx) Ex) as [Cx [Fx [x' [-> [Bx' Tx]]]]].
           split; [split; [exact Cx|exact (frame_trans _ _ _ Fs Fx)]|].
           split; [exact Fx|]. eexists. split; [reflexivity|].
           split; [exact Bx'|]. intros g Hg. rewrite (Tx g Hg).
           exact (to_json_frame g st s x Hc Fs Bx). }
      2: { split; [exact Hc|apply frame_refl]. }
      2: { exact Hk. }
      injection E as <- <-.
      assert (Hb : Forall (below (next_loc st1)) (obj_vals (OList xs'))).
      { cbn [obj_vals]. eapply Forall2_Forall_r; [|exact Q1]. intros x y [B _]. exact B. }
      split; [exact (closed_alloc _ _ C1 Hb)|].
      split; [exact (frame_trans _ _ _ F1 (frame_alloc _ _))|].
      eexists. split; [reflexivity|]. split; [cbn; lia|].
      intros [|g] Hg; [reflexivity|]. cbn [to_json snd alloc heap_of next_loc].
      rewrite upd_eq, El. f_equal.
      eapply Forall2_map_eq; [|exact Q1]. intros x y [By Ty]. rewrite <- (Ty g) by lia.
      exact (to_json_frame g st1 (snd (alloc (OList xs') st1)) y C1 (frame_alloc _ _) By).
    + injection E as <- <-. split; [exact Hc|split; [apply frame_refl|]].
      eexists. split; [reflexivity|]. split; [exact I|].
      intros [|g] Hg; [reflexivity|]. cbn [to_json]. rewrite El. reflexivity.
Qed.

Lemma forallb_ext_in {A} (p q : A -> bool) l :
  (forall x, In x l -> p x = q x) -> forallb p l = forallb q l.
Proof.
  induction l as [|x l IH]; simpl; intros H; [reflexivity|].
  rewrite (H x (or_introl eq_refl)), IH; [reflexivity|]. intros y Hy. exact (H y (or_intror Hy)).
Qed.

Lemma forallb_In {A} (p : A -> bool) l x : forallb p l = true -> In x l -> p x = true.
Proof. intros H Hx. rewrite forallb_forall in H. exact (H x Hx). Qed.

(** The depth of a value only depends on objects below it. *)
Lemma depth_ok_frame g : forall st1 st2 x,
  closed_heap st1 -> frame st1 st2 -> below (next_loc st1) x ->
  depth_ok g (heap_of st2) x = depth_ok g (heap_of st1) x.
Proof.
  induction g as [|g IH]; intros st1 st2 x Hc [Hn Hh] Hx; destruct x as [| | |l]; try reflexivity.
  cbn [depth_ok]. cbn [below] in Hx. rewrite (Hh l Hx).
  destruct (heap_of st1 l) as [[kvs|xs]|] eqn:El; [| |reflexivity].
  - pose proof (Hc l _ Hx El) as Hk. cbn [obj_vals] in Hk. apply forallb_ext_in.
    intros [k y] Hin. apply IH; [assumption|split; assumption|].
    eapply List.Forall_forall; [exact Hk|]. apply (List.in_map snd) in Hin. exact Hin.
  - pose proof (Hc l _ Hx El) as Hk. cbn [obj_vals] in Hk. apply forallb_ext_in.
    intros y Hin. apply IH; [assumption|split; assumption|].
    eapply List.Forall_forall; [exact Hk|exact Hin].
Qed.

(** On a value of bounded depth, the copy serialises as the original at
    every depth of the walk, not only up to the copy's fuel. *)
Lemma deepcopy_json_deep f : forall v st r st',
  closed_heap st -> below (next_loc st) v -> depth_ok f (heap_of st) v = true ->
  deepcopy f v st = (r, st') ->
  closed_heap st' /\ frame st st' /\
  exists v', r = inr v' /\ below (next_loc st') v' /\
  forall g, to_json g (heap_of st') v' = to_json g (heap_of st) v.
Proof.
  induction f as [|f IH]; intros v st r st' Hc Hv Hd E.
  - destruct v as [| | |l]; [..|discriminate]; injection E as <- <-;
      (split; [exact Hc|split; [apply frame_refl|]]); eexists; (split; [reflexivity|]);
      (split; [cbn [below]; auto|]); intros g; reflexivity.
  - destruct v as [| | |l];
      [injection E as <- <-; (split; [exact Hc|split; [apply frame_refl|]]);
       eexists; (split; [reflexivity|]); (split; [exact I|]); intros g; reflexivity..|].
    cbn [below] in Hv. simpl in E. unfold bind at 1, peek in E. cbn [depth_ok] in Hd.
    destruct (heap_of st l) as [[kvs|xs]|] eqn:El; [| |discriminate].
    + pose proof (Hc l _ Hv El) as Hk. cbn [obj_vals] in Hk. apply (proj1 (List.Forall_map _ _ _)) in Hk.
      assert (Hk' : Forall (fun p => below (next_loc st) (snd p) /\
                                     depth_ok f (heap_of st) (snd p) = true) kvs).
      { apply List.Forall_forall. intros [k x] Hin. split.
        - exact (proj1 (List.Forall_forall _ _) Hk _ Hin).
        - exact (forallb_In _ _ _ Hd Hin). }
      unfold bind in E. destruct (mapM _ kvs st) as [r1 st1] eqn:E1.
      apply (mapM_inv _ (fun s => closed_heap s /\ frame st s)
               (fun p => below (next_loc st) (snd p) /\ depth_ok f (heap_of st) (snd p) = true)
               (fun s p p' => fst p' = fst p /\ below (next_loc s) (snd p') /\
                  forall g, to_json g (heap_of s) (snd p') = to_json g (heap_of st) (snd p)))
        in E1 as [[C1 F1] [_ [kvs' [-> Q1]]]].
      2: { intros s1 s2 [k x] [k' y] [Cs1 _] Fs [Ek [By Ty]]. cbn [fst snd] in *. split; [exact Ek|].
           split; [eapply below_mono; [apply Fs|exact By]|].
           intros g. rewrite (to_json_frame g s1 s2 y Cs1 Fs By). auto. }
      2: { intros [k x] s r0 s' [Cs Fs] [Bx Dx] Ex. unfold bind in Ex. cbn [snd] in Bx, Dx.
           destruct (deepcopy f x s) as [rx sx] eqn:Ed.
           assert (Dx' : depth_ok f (heap_of s) x = true)
             by (rewrite (depth_ok_frame f st s x Hc Fs Bx); exact Dx).
           destruct (IH x s rx sx Cs (below_mono _ _ _ (proj1 Fs) Bx) Dx' Ed)
             as [Cx [Fx [x' [-> [Bx' Tx]]]]].
           injection Ex as <- <-. split; [split; [exact Cx|exact (frame_trans _ _ _ Fs Fx)]|].
           split; [exact Fx|]. eexists. split; [reflexivity|]. cbn [fst snd].
           split; [reflexivity|]. split; [exact Bx'|]. intros g. rewrite (Tx g).
           exact (to_json_frame g st s x Hc Fs Bx). }
      2: { split; [exact Hc|apply frame_refl]. }
      2: { exact Hk'. }
      injection E as <- <-.
      assert (Hb : Forall (below (next_loc st1)) (obj_vals (ODict kvs'))).
      { cbn [obj_vals]. apply (proj2 (List.Forall_map _ _ _)).
        eapply Forall2_Forall_r; [|exact Q1]. intros p p' [_ [B _]]. exact B. }
      split; [exact (closed_alloc _ _ C1 Hb)|].
      split; [exact (frame_trans _ _ _ F1 (frame_alloc _ _))|].
      eexists. split; [reflexivity|]. split; [cbn; lia|].
      intros [|g]; [reflexivity|]. cbn [to_json snd alloc heap_of next_loc].
      rewrite upd_eq, El. f_equal.
      eapply Forall2_map_eq; [|exact Q1]. intros [k x] [k' y] [Ek [By Ty]]. cbn [fst snd] in *.
      subst k'. f_equal. rewrite <- (Ty g).
      exact (to_json_frame g st1 (snd (alloc (ODict kvs') st1)) y C1 (frame_alloc _ _) By).
    + pose proof (Hc l _ Hv El) as Hk. cbn [obj_vals] in Hk.
      assert (Hk' : Forall (fun x => below (next_loc st) x /\ depth_ok f (heap_of st) x = true) xs).
      { apply List.Forall_forall. intros x Hin. split.
        - exact (proj1 (List.Forall_forall _ _) Hk _ Hin).
        - exact (forallb_In _ _ _ Hd Hin). }
      unfold bind in E. destruct (mapM (deepcopy f) xs st) as [r1 st1] eqn:E1.
      apply (mapM_inv _ (fun s => closed_heap s /\ frame st s)
               (fun x => below (next_loc st) x /\ depth_ok f (heap_of st) x = true)
               (fun s x x' => below (next_loc s) x' /\
                  forall g, to_json g (heap_of s) x' = to_json g (heap_of st) x))
        in E1 as [[C1 F1] [_ [xs' [-> Q1]]]].
      2: { intros s1 s2 x y [Cs1 _] Fs [By Ty].
           split; [eapply below_mono; [apply Fs|exact By]|].
           intros g. rewrite (to_json_frame g s1 s2 y Cs1 Fs By). auto. }
      2: { intros x s r0 s' [Cs Fs] [Bx Dx] Ex.
           assert (Dx' : depth_ok f (heap_of s) x = true)
             by (rewrite (depth_ok_frame f st s x Hc Fs Bx); exact Dx).
           destruct (IH x s r0 s' Cs (below_mono _ _ _ (proj1 Fs) Bx) Dx' Ex)
             as [Cx [Fx [x' [-> [Bx' Tx]]]]].
           split; [split; [exact Cx|exact (frame_trans _ _ _ Fs Fx)]|].
           split; [exact Fx|]. eexists. split; [reflexivity|].
           split; [exact Bx'|]. intros g. rewrite (Tx g).
           exact (to_json_frame g st s x Hc Fs Bx). }
      2: { split; [exact Hc|apply frame_refl]. }
      2: { exact Hk'. }
      injection E as <- <-.
      assert (Hb : Forall (below (next_loc st1)) (obj_vals (OList xs'))).
      { cbn [obj_vals]. eapply Forall2_Forall_r; [|exact Q1]. intros x y [B _]. exact B. }
      split; [exact (closed_alloc _ _ C1 Hb)|].
      split; [exact (frame_trans _ _ _ F1 (frame_alloc _ _))|].
      eexists. split; [reflexivity|]. split; [cbn; lia|].
      intros [|g]; [reflexivity|]. cbn [to_json snd alloc heap_of next_loc].
      rewrite upd_eq, El. f_equal.
      eapply Forall2_map_eq; [|exact Q1]. intros x y [By Ty]. rewrite <- (Ty g).
      exact (to_json_frame g st1 (snd (alloc (OList xs') st1)) y C1 (frame_alloc _ _) By).
Qed.

Lemma init_closed t0 : closed_heap (init_state t0).
Proof.
  intros l o Hl. cbn [init_state next_loc heap_of] in *.
  destruct l as [|[|l]]; [| |lia];
    cbv [upd DEFAULT_CLIENT_ARGS EXTRA_HEADERS Nat.eqb default_client_args_obj extra_headers_obj];
    intros [= <-]; cbn [obj_vals map snd];
    repeat first [apply List.Forall_nil | apply List.Forall_cons | exact I | cbn [below]; lia].
Qed.

(** *** The streaming part *)

Lemma delays_nonneg us : 0 <= delays us.
Proof. induction us as [|u us IH]; simpl; lia. Qed.

Lemma delays_app a b : delays (a ++ b) = delays a + delays b.
Proof. induction a as [|u a IH]; simpl; lia. Qed.

Lemma loop_first_text start pre d text post st :
  Forall blank_unit pre -> py_truthy (py_strip text) = true ->
  first_token_loop start None (pre ++ (d, text) :: post) st =
  (inr (Some (clock st + (delays pre + Z.max 0 d) - start)),
   at_clock st (clock st + (delays pre + Z.max 0 d))).
Proof.
  intros Hb Ht. rewrite first_token_loop_eq.
  assert (H : loop_found (pre ++ (d, text) :: post) = true /\
              loop_elapsed (pre ++ (d, text) :: post) = delays pre + Z.max 0 d).
  { induction pre as [|[d' t'] pre IH]; simpl.
    - rewrite Ht. split; [reflexivity|lia].
    - apply List.Forall_cons_iff in Hb as [Hb1 Hb2]. unfold blank_unit in Hb1. simpl in Hb1.
      rewrite Hb1. destruct (IH Hb2) as [-> ->]. split; [reflexivity|lia]. }
  destruct H as [-> ->]. reflexivity.
Qed.

(** *** What the demonstrations leave of the objects they find *)

(** A computation that, from a state with the globals in place, only
    allocates: every object that existed before is left as it was. *)
Definition keeps {A} (m : M A) : Prop :=
  forall st r st', globals_ok st -> m st = (r, st') -> frame st st'.

Lemma globals_frame s1 s2 : globals_ok s1 -> frame s1 s2 -> globals_ok s2.
Proof.
  intros [H0 [H1 Hn]] [Hl Hh]. unfold globals_ok.
  rewrite !Hh by (unfold DEFAULT_CLIENT_ARGS, EXTRA_HEADERS; lia). auto with lia.
Qed.

Lemma keeps_bind {A B} (m : M A) (k : A -> M B) :
  keeps m -> (forall x, keeps (k x)) -> keeps (bind m k).
Proof.
  intros Hm Hk st r st' Hg E. unfold bind in E. destruct (m st) as [[e|x] s1] eqn:E1.
  - injection E as <- <-. exact (Hm _ _ _ Hg E1).
  - pose proof (Hm _ _ _ Hg E1) as F1.
    exact (frame_trans _ _ _ F1 (Hk x _ _ _ (globals_frame _ _ Hg F1) E)).
Qed.

Lemma keeps_same {A} (m : M A) :
  (forall st, heap_of (snd (m st)) = heap_of st /\ next_loc (snd (m st)) = next_loc st) -> keeps m.
Proof.
  intros H st r st' _ E. destruct (H st) as [Hh Hn]. rewrite E in Hh, Hn. cbn [snd] in Hh, Hn.
  split; [lia|]. intros l _. rewrite Hh. reflexivity.
Qed.

Ltac keeps_same_tac := apply keeps_same; intros [? ? ? ?]; split; reflexivity.

Lemma keeps_ret {A} (x : A) : keeps (ret x).
Proof. keeps_same_tac. Qed.

Lemma keeps_raise {A} e : keeps (@raise A e).
Proof. keeps_same_tac. Qed.

Lemma keeps_get_time : keeps get_time.
Proof. keeps_same_tac. Qed.

Lemma keeps_set_clock t : keeps (set_clock t).
Proof. keeps_same_tac. Qed.

Lemma keeps_emit ev : keeps (emit ev).
Proof. keeps_same_tac. Qed.

Lemma keeps_request_body m a : keeps (request_body m a).
Proof. keeps_same_tac. Qed.

Lemma keeps_alloc o : keeps (alloc o).
Proof. intros st r st' _ E. pose proof (frame_alloc st o) as F. rewrite E in F. exact F. Qed.

Lemma keeps_print_query_statistics u qt : keeps (print_query_statistics u qt).
Proof. apply keeps_same. intros st. rewrite print_query_statistics_run. split; reflexivity. Qed.

Lemma keeps_copy_with_question v : keeps (copy_with_question v).
Proof. intros st r st' _ E. exact (copy_with_question_frame _ _ _ _ E). Qed.

Lemma keeps_create_initial_message_of srcs w : keeps (create_initial_message_of srcs w).
Proof.
  intros st r st' _ E.
  destruct (create_initial_message_of_run srcs w st) as [[e [t Hc]]|[bh [bc [t Hc]]]];
    rewrite Hc in E; injection E as <- <-.
  - split; [cbn; lia|]. intros l _. reflexivity.
  - split; [cbn; lia|]. intros l Hl. cbn [heap_of]. unfold context_heap, upd. eqb_tac. reflexivity.
Qed.

Lemma keeps_sample_one_token svc m : keeps (sample_one_token svc m).
Proof.
  intros [h n c o] r st' Hg E. rewrite (sample_one_token_run _ _ _ _ _ _ Hg) in E.
  injection E as <- <-. split; [cbn; lia|]. intros l Hl. cbn [heap_of next_loc] in *.
  unfold probe_heap, upd. eqb_tac. reflexivity.
Qed.

Create HintDb keeps.

#[local] Hint Resolve keeps_ret keeps_raise keeps_get_time keeps_set_clock keeps_emit
  keeps_request_body keeps_alloc keeps_print_query_statistics keeps_copy_with_question
  keeps_create_initial_message_of keeps_sample_one_token : keeps.

Ltac keeps_tac :=
  repeat first
    [ progress auto with keeps
    | apply keeps_bind; [|intros ?]
    | match goal with |- keeps (match ?x with _ => _ end) => destruct x end ].

Lemma keeps_advance d : keeps (advance d).
Proof. unfold advance. keeps_tac. Qed.

Lemma keeps_first_token_loop start ft units : keeps (first_token_loop start ft units).
Proof.
  induction units as [|[d text] rest IH].
  - keeps_same_tac.
  - rewrite first_token_loop_cons. apply keeps_bind; [apply keeps_advance|intros _].
    destruct ft; [exact IH|]. destruct (py_truthy (py_strip text)); [keeps_tac|exact IH].
Qed.

#[local] Hint Resolve keeps_advance keeps_first_token_loop : keeps.

Lemma keeps_stream_and_report svc qt m : keeps (stream_and_report svc qt m).
Proof. unfold stream_and_report, open_stream, get_final_message. keeps_tac. Qed.

#[local] Hint Resolve keeps_stream_and_report : keeps.

Lemma keeps_speculative_demo think w : keeps (speculative_prompt_caching_demo_t think w).
Proof.
  unfold speculative_prompt_caching_demo_t, create_initial_message, asyncio_sleep, await_task.
  keeps_tac.
Qed.

Lemma keeps_standard_demo think w : keeps (standard_prompt_caching_demo_t think w).
Proof. unfold standard_prompt_caching_demo_t, create_initial_message, asyncio_sleep. keeps_tac. Qed.

(** *** What a built context message holds *)

(** The text of a download's response, when there is one. *)
Definition fetched_text (o : fetch_outcome) : option string :=
  match o with FTimeout _ => None | FResponse _ _ text => Some text end.

(** The fields of a clock reading that [strftime("%Y-%m-%d %H:%M:%S")]
    prints. *)
Definition to_the_second (d : datetime) : Z * Z * Z * Z * Z * Z :=
  (dt_year d, dt_month d, dt_day d, dt_hour d, dt_minute d, dt_second d).

Lemma strftime_ts_to_the_second d1 d2 :
  to_the_second d1 = to_the_second d2 -> strftime_ts d1 = strftime_ts d2.
Proof.
  unfold to_the_second, strftime_ts. intros E. injection E as E1 E2 E3 E4 E5 E6.
  rewrite E1, E2, E3, E4, E5, E6. reflexivity.
Qed.

(** A message [create_initial_message] returns serialises to the context
    message over the two downloaded files and the formatted clock reading;
    building it allocates four fresh objects, changes no older object and
    prints nothing; when it raises, no object is allocated or changed. *)
Lemma create_initial_message_json srcs w st :
  match create_initial_message_of srcs w st with
  | (inr v, st') =>
      exists m bh bc,
        fst (get_sqlite_sources_of srcs w st) = inr m /\
        m !! "btree.h" = Some bh /\ m !! "btree.c" = Some bc /\
        to_json FUEL (heap_of st') v = context_message_json (context_text (strftime_ts (w_now w)) bh bc) /\
        frame st st' /\ next_loc st' = (4 + next_loc st)%nat /\ out st' = out st
  | (inl _, st') => heap_of st' = heap_of st /\ next_loc st' = next_loc st /\ out st' = out st
  end.
Proof.
  unfold create_initial_message_of.
  pose proof (get_sqlite_sources_of_run srcs w st) as G. cbv zeta in G.
  destruct (first_failure _) as [[d e]|] in G.
  - rewrite (bind_inl _ _ _ _ _ G). repeat split.
  - rewrite (bind_inr _ _ _ _ _ G).
    set (m := list_to_map _ : gmap string string) in *.
    unfold bind, sources_getitem. cbn [heap_of next_loc out at_clock].
    destruct (m !! "btree.h") as [bh|] eqn:Eh; [|repeat split].
    destruct (m !! "btree.c") as [bc|] eqn:Ec; [|repeat split].
    exists m, bh, bc. rewrite G. split; [reflexivity|]. split; [exact Eh|]. split; [exact Ec|].
    cbv [at_clock]. cbn [heap_of next_loc out clock fst snd].
    split; [apply context_json|]. split; [|split; reflexivity].
    split; [simpl; lia|]. intros l Hl. unfold context_heap, upd. cbn [heap_of]. eqb_tac. reflexivity.
Qed.

(** When the loader of [SQLITE_SOURCES] returns, its two entries are the
    bodies of the two responses. *)
Lemma sqlite_sources_texts w st m :
  fst (get_sqlite_sources_of SQLITE_SOURCES w st) = inr m ->
  exists th tc,
    fetched_text (w_fetch w BTREE_H_URL) = Some th /\ fetched_text (w_fetch w BTREE_C_URL) = Some tc /\
    m !! "btree.h" = Some th /\ m !! "btree.c" = Some tc.
Proof.
  rewrite get_sqlite_sources_of_run. cbv zeta. fold (downloads SQLITE_SOURCES w).
  destruct (first_failure (downloads SQLITE_SOURCES w)) as [[d e]|] eqn:F; [discriminate|].
  cbn [fst]. intros [= <-].
  destruct (downloads_all_ok _ _ F "btree.h" BTREE_H_URL (or_introl eq_refl))
    as [d1 [s1 [th [H1 S1]]]].
  destruct (downloads_all_ok _ _ F "btree.c" BTREE_C_URL (or_intror (or_introl eq_refl)))
    as [d2 [s2 [tc [H2 S2]]]].
  exists th, tc. rewrite H1, H2. split; [reflexivity|]. split; [reflexivity|].
  cbv beta iota delta [downloads SQLITE_SOURCES map]. rewrite ?H1, ?H2. unfold download_file.
  replace ((200 <=? s1) && (s1 <? 300)) with true
    by (symmetry; apply andb_true_intro; split; [apply Z.leb_le|apply Z.ltb_lt]; lia).
  replace ((200 <=? s2) && (s2 <? 300)) with true
    by (symmetry; apply andb_true_intro; split; [apply Z.leb_le|apply Z.ltb_lt]; lia).
  cbn [successes list_to_map foldr fst snd].
  split; [apply lookup_insert_eq|].
  rewrite lookup_insert_ne by discriminate. apply lookup_insert_eq.
Qed.

(** Every download answers with a 2xx response. *)
Lemma downloads_ok_first_failure srcs w :
  (forall fn url, In (fn, url) srcs ->
   exists d status text, w_fetch w url = FResponse d status text /\ 200 <= status < 300) ->
  first_failure (downloads srcs w) = None.
Proof.
  induction srcs as [|[fn url] r IH]; intros Hok; [reflexivity|].
  destruct (Hok fn url (or_introl eq_refl)) as [d [status [text [Ho Hs]]]].
  unfold downloads. cbn [map]. rewrite Ho. unfold download_file.
  replace ((200 <=? status) && (status <? 300)) with true
    by (symmetry; apply andb_true_intro; split; [apply Z.leb_le|apply Z.ltb_lt]; lia).
  cbn [first_failure]. apply IH. intros fn' url' Hin. exact (Hok fn' url' (or_intror Hin)).
Qed.

(** [create_initial_message] raises only when a download fails; when it
    returns, the context text embeds the bodies of the two responses. *)
Lemma create_initial_message_run_texts w st :
  (exists e t, create_initial_message_of SQLITE_SOURCES w st = (inl e, at_clock st t) /\
     ~ (forall fn url, In (fn, url) SQLITE_SOURCES ->
        exists d status text, w_fetch w url = FResponse d status text /\ 200 <= status < 300)) \/
  (exists bh bc t,
      fetched_text (w_fetch w BTREE_H_URL) = Some bh /\
      fetched_text (w_fetch w BTREE_C_URL) = Some bc /\
      create_initial_message_of SQLITE_SOURCES w st =
      (inr (VRef (S (S (S (next_loc st))))),
       mk_state (context_heap (heap_of st) (next_loc st)
                   (context_text (strftime_ts (w_now w)) bh bc))
                (S (S (S (S (next_loc st))))) t (out st))).
Proof.
  unfold create_initial_message_of.
  pose proof (get_sqlite_sources_of_run SQLITE_SOURCES w st) as G. cbv zeta in G.
  fold (downloads SQLITE_SOURCES w) in G.
  destruct (first_failure (downloads SQLITE_SOURCES w)) as [[d e]|] eqn:F.
  - left. rewrite (bind_inl _ _ _ _ _ G). do 2 eexists. split; [reflexivity|].
    intros Hok. rewrite (downloads_ok_first_failure _ _ Hok) in F. discriminate.
  - destruct (sqlite_sources_texts w st _ (f_equal fst G)) as [th [tc [Fh [Fc [Lh Lc]]]]].
    rewrite (bind_inr _ _ _ _ _ G).
    unfold bind, sources_getitem. rewrite Lh, Lc. right. exists th, tc. eexists.
    split; [exact Fh|]. split; [exact Fc|]. reflexivity.
Qed.

(** The requests in a log. *)
Definition sends (es : list event) : list event :=
  List.filter (fun e => match e with ESend _ _ _ => true | _ => false end) es.

(** The JSON of the context block [create_initial_message] builds. *)
Definition context_block_json (text : string) : json :=
  JObj [("type", JStr "text"); ("text", JStr text);
        ("cache_control", JObj [("type", JStr "ephemeral")])].

(* ------------------------------------------------------------------ *)
(** ** Python floats: the improvement percentages

    [ttft_improvement] and [total_improvement] are computed on Python
    floats, IEEE-754 binary64 numbers with rounding to nearest, ties to
    even.  They are embedded as [spec_float] of the Standard Library with
    53 bits of precision and maximal exponent 1024; [SF2R] gives the real
    value of a float and [bpow e] is [2^e].  The lemmas of the module
    establish the rounding error of one subtraction, division and
    multiplication on positive normal operands. *)

Module Float64.

Definition prec : Z := 53.
Definition emax : Z := 1024.

(** ** The comparison report's arithmetic *)

(** Python's [x / y] on floats: a [ZeroDivisionError] when [y] is a zero. *)
Definition py_float_div (x y : spec_float) : option spec_float :=
  match y with
  | S754_zero _ => None
  | _ => Some (SFdiv prec emax x y)
  end.

(** [float(n)], also the implicit conversion in [x * 100]. *)
Definition float_of_int (n : Z) : spec_float := binary_normalize prec emax n 0 false.

(** [(standard - speculative) / standard * 100] *)
Definition improvement (standard speculative : spec_float) : option spec_float :=
  match py_float_div (SFsub prec emax standard speculative) standard with
  | Some q => Some (SFmul prec emax q (float_of_int 100))
  | None => None
  end.

Definition is_finite (f : spec_float) : bool :=
  match f with
  | S754_zero _ | S754_finite _ _ _ => true
  | _ => false
  end.


Definition bpow (e : Z) : R := powerRZ 2 e.

Local Open Scope R_scope.

Lemma bpow_plus a b : bpow (a + b) = bpow a * bpow b.
Proof. unfold bpow. apply powerRZ_add. lra. Qed.

Lemma bpow_gt0 e : 0 < bpow e.
Proof. unfold bpow. apply powerRZ_lt. lra. Qed.

Lemma bpow_IZR e : (0 <= e)%Z -> bpow e = IZR (2 ^ e).
Proof.
  intros He. destruct e as [|p|p]; [reflexivity| |lia].
  unfold bpow. rewrite <- Zpower_pos_powerRZ. reflexivity.
Qed.

Lemma bpow_0 : bpow 0 = 1.
Proof. reflexivity. Qed.

Lemma bpow_1 : bpow 1 = 2.
Proof. rewrite bpow_IZR by lia. reflexivity. Qed.

Lemma bpow_opp e : bpow (- e) = / bpow e.
Proof. unfold bpow. apply powerRZ_neg'. Qed.

Lemma bpow_ge1 e : (0 <= e)%Z -> 1 <= bpow e.
Proof.
  intros He. rewrite bpow_IZR by exact He. apply IZR_le.
  pose proof (Z.pow_pos_nonneg 2 e ltac:(lia) He). lia.
Qed.

Lemma bpow_le a b : (a <= b)%Z -> bpow a <= bpow b.
Proof.
  intros H. replace b with (a + (b - a))%Z by lia. rewrite bpow_plus.
  pose proof (bpow_gt0 a). pose proof (bpow_ge1 (b - a) ltac:(lia)). nra.
Qed.

Lemma bpow_lt a b : (a < b)%Z -> bpow a < bpow b.
Proof.
  intros H. replace b with ((a + 1) + (b - a - 1))%Z by lia. rewrite !bpow_plus, bpow_1.
  pose proof (bpow_gt0 a). pose proof (bpow_ge1 (b - a - 1) ltac:(lia)). nra.
Qed.

Lemma bpow_le_inv a b : bpow a <= bpow b -> (a <= b)%Z.
Proof. intros H. destruct (Z_le_gt_dec a b) as [|Hg]; [assumption|]. assert (Hb : bpow b < bpow a) by (apply bpow_lt; lia). lra. Qed.

Lemma bpow_lt_inv a b : bpow a < bpow b -> (a < b)%Z.
Proof. intros H. destruct (Z_lt_ge_dec a b) as [|Hg]; [assumption|]. assert (Hb : bpow b <= bpow a) by (apply bpow_le; lia). lra. Qed.

Local Close Scope R_scope.

(** ** Digits *)

Lemma digits2_pos_bounds p :
  2 ^ (Zpos (digits2_pos p) - 1) <= Zpos p < 2 ^ Zpos (digits2_pos p).
Proof.
  induction p as [p IH|p IH|]; cbn [digits2_pos]; [| |cbn; lia];
    rewrite Pos2Z.inj_succ; assert (HD : 1 <= Zpos (digits2_pos p)) by lia;
    set (D := Zpos (digits2_pos p)) in *;
    assert (E1 : 2 ^ (Z.succ D - 1) = 2 * 2 ^ (D - 1))
      by (rewrite <- Z.pow_succ_r by lia; f_equal; lia);
    assert (E2 : 2 ^ Z.succ D = 2 * 2 ^ D) by (apply Z.pow_succ_r; lia);
    rewrite E1, E2; [rewrite (Pos2Z.inj_xI p)|rewrite (Pos2Z.inj_xO p)]; lia.
Qed.

Lemma Zdigits2_unique m d :
  (1 <= d) -> 2 ^ (d - 1) <= m < 2 ^ d -> Zdigits2 m = d.
Proof.
  intros Hd [Hl Hu].
  assert (Hm : 0 < m) by (pose proof (Z.pow_pos_nonneg 2 (d - 1) ltac:(lia) ltac:(lia)); lia).
  destruct m as [|p|p]; [lia| |lia]. cbn [Zdigits2].
  pose proof (digits2_pos_bounds p) as [Hl' Hu'].
  set (D := Zpos (digits2_pos p)) in *.
  destruct (Z.lt_trichotomy D d) as [Hlt|[Heq|Hgt]]; [|exact Heq|].
  - assert (2 ^ D <= 2 ^ (d - 1)) by (apply Z.pow_le_mono_r; lia). lia.
  - assert (2 ^ d <= 2 ^ (D - 1)) by (apply Z.pow_le_mono_r; lia). lia.
Qed.

Lemma Zdigits2_bounds m : 0 < m -> 2 ^ (Zdigits2 m - 1) <= m < 2 ^ Zdigits2 m.
Proof. destruct m as [|p|p]; [lia| |lia]. intros _. apply digits2_pos_bounds. Qed.

Lemma Zdigits2_pos m : 0 < m -> 1 <= Zdigits2 m.
Proof. destruct m as [|p|p]; [lia| |lia]. intros _. cbn. lia. Qed.


(** ** Locations and the shift records *)

Local Open Scope R_scope.

(** [l] locates [x / 2^e] in the unit interval above the integer [m]. *)
Definition loc_sem (x : R) (m e : Z) (l : location) : Prop :=
  let y := x * bpow (- e) in
  match l with
  | loc_Exact => y = IZR m
  | loc_Inexact Lt => IZR m < y < IZR m + / 2
  | loc_Inexact Eq => y = IZR m + / 2
  | loc_Inexact Gt => IZR m + / 2 < y < IZR m + 1
  end.

Lemma loc_sem_bounds x m e l : loc_sem x m e l -> IZR m <= x * bpow (- e) < IZR m + 1.
Proof. destruct l as [|[| |]]; cbn; lra. Qed.

Definition rec_sem (x : R) (e : Z) (r : shr_record) : Prop :=
  (0 <= shr_m r)%Z /\ loc_sem x (shr_m r) e (loc_of_shr_record r).

Lemma rec_sem_of_loc x m e l :
  (0 <= m)%Z -> loc_sem x m e l -> rec_sem x e (shr_record_of_loc m l).
Proof. intros Hm H. destruct l as [|[| |]]; split; assumption. Qed.

Lemma shr_m_of_loc m l : shr_m (shr_record_of_loc m l) = m.
Proof. destruct l as [|[| |]]; reflexivity. Qed.

Lemma loc_of_rec_of_loc m l : loc_of_shr_record (shr_record_of_loc m l) = l.
Proof. destruct l as [|[| |]]; reflexivity. Qed.

Lemma pos_xI_div2 q : (Zpos (xI q) / 2 = Zpos q)%Z.
Proof. symmetry. apply Z.div_unique with 1%Z; [left; lia|rewrite Pos2Z.inj_xI; lia]. Qed.

Lemma pos_xO_div2 q : (Zpos (xO q) / 2 = Zpos q)%Z.
Proof. symmetry. apply Z.div_unique with 0%Z; [left; lia|rewrite Pos2Z.inj_xO; lia]. Qed.

Lemma shr_1_eq m rb sb :
  (0 <= m)%Z -> shr_1 (Build_shr_record m rb sb) = Build_shr_record (m / 2) (Z.odd m) (rb || sb).
Proof.
  intros Hm. destruct m as [|[q|q|]|q]; [reflexivity| | |reflexivity|lia]; cbn [shr_1].
  - rewrite pos_xI_div2. reflexivity.
  - rewrite pos_xO_div2. reflexivity.
Qed.

Lemma bpow_succ_opp e : bpow (- (e + 1)) = bpow (- e) * / 2.
Proof.
  replace (- (e + 1))%Z with (- e + - (1))%Z by lia. rewrite bpow_plus, (bpow_opp 1), bpow_1. reflexivity.
Qed.

Lemma shr_1_sem x e r : rec_sem x e r -> rec_sem x (e + 1) (shr_1 r).
Proof.
  destruct r as [m rb sb]. unfold rec_sem. cbn [shr_m]. intros [Hm H].
  rewrite shr_1_eq by exact Hm. cbn [shr_m]. split; [apply Z.div_pos; lia|].
  pose proof (Z.div_mod m 2 ltac:(lia)) as Hdm. rewrite Zmod_odd in Hdm.
  apply (f_equal IZR) in Hdm. rewrite plus_IZR, mult_IZR in Hdm.
  unfold loc_sem in *. rewrite bpow_succ_opp.
  set (y := x * bpow (- e)) in *. replace (x * (bpow (- e) * / 2)) with (y / 2) by (unfold y; lra).
  destruct rb, sb, (Z.odd m); cbn [orb loc_of_shr_record IZR IPR] in *; lra.
Qed.

Lemma iter_pos_nat {A} (f : A -> A) p x : SpecFloat.iter_pos f p x = Nat.iter (Pos.to_nat p) f x.
Proof.
  revert x. induction p as [p IH|p IH|]; intros x; cbn [SpecFloat.iter_pos].
  - rewrite IH, IH, Pos2Nat.inj_xI, Nat.iter_succ_r.
    replace (2 * Pos.to_nat p)%nat with (Pos.to_nat p + Pos.to_nat p)%nat by lia.
    rewrite Nat.iter_add. reflexivity.
  - rewrite IH, IH, Pos2Nat.inj_xO.
    replace (2 * Pos.to_nat p)%nat with (Pos.to_nat p + Pos.to_nat p)%nat by lia.
    rewrite Nat.iter_add. reflexivity.
  - reflexivity.
Qed.

Lemma iter_shr_sem x e r k :
  rec_sem x e r ->
  rec_sem x (e + Z.of_nat k) (Nat.iter k shr_1 r) /\
  shr_m (Nat.iter k shr_1 r) = (shr_m r / 2 ^ Z.of_nat k)%Z.
Proof.
  intros H. induction k as [|k [IHs IHm]].
  - rewrite Z.add_0_r. split; [exact H|]. cbn. rewrite Z.div_1_r. reflexivity.
  - rewrite Nat.iter_succ. replace (e + Z.of_nat (S k))%Z with (e + Z.of_nat k + 1)%Z by lia.
    split; [apply shr_1_sem; exact IHs|].
    destruct (Nat.iter k shr_1 r) as [m rb sb] eqn:Er. cbn [shr_m] in *.
    rewrite shr_1_eq by (destruct IHs as [Hm _]; exact Hm). cbn [shr_m]. rewrite IHm.
    rewrite Z.div_div by (try apply Z.pow_pos_nonneg; lia).
    f_equal. rewrite Nat2Z.inj_succ, Z.pow_succ_r by lia. lia.
Qed.

Lemma shr_nonneg r e n :
  (0 <= n)%Z -> shr r e n = (Nat.iter (Z.to_nat n) shr_1 r, (e + n)%Z).
Proof.
  intros Hn. destruct n as [|p|p]; [|cbn [shr]|lia].
  - cbn. rewrite Z.add_0_r. reflexivity.
  - rewrite iter_pos_nat, Z2Nat.inj_pos. reflexivity.
Qed.

Lemma rne_sem x m e l :
  loc_sem x m e l ->
  (round_nearest_even m l = m \/ round_nearest_even m l = m + 1)%Z /\
  Rabs (IZR (round_nearest_even m l) - x * bpow (- e)) <= / 2.
Proof.
  unfold loc_sem. set (y := x * bpow (- e)).
  destruct l as [|[| |]]; cbn [round_nearest_even]; intros H.
  - split; [left; reflexivity|]. apply Rabs_le. lra.
  - destruct (Z.even m).
    + split; [left; reflexivity|]. apply Rabs_le. lra.
    + split; [right; reflexivity|]. rewrite plus_IZR. apply Rabs_le. cbn [IZR IPR]. lra.
  - split; [left; reflexivity|]. apply Rabs_le. lra.
  - split; [right; reflexivity|]. rewrite plus_IZR. apply Rabs_le. cbn [IZR IPR]. lra.
Qed.


(** ** Rounding a value in the normal range *)

Lemma fexp_normal e : (-1021 <= e)%Z -> fexp prec emax e = (e - 53)%Z.
Proof. intros He. unfold fexp, emin, prec, emax. lia. Qed.

Lemma shr_fexp_normal mx ex lx :
  (2 ^ 52 <= mx)%Z -> (-1021 <= Zdigits2 mx + ex)%Z ->
  shr_fexp prec emax mx ex lx =
  (Nat.iter (Z.to_nat (Zdigits2 mx - 53)) shr_1 (shr_record_of_loc mx lx),
   (ex + (Zdigits2 mx - 53))%Z).
Proof.
  intros Hm He. unfold shr_fexp. rewrite fexp_normal by exact He.
  pose proof (Zdigits2_bounds mx ltac:(lia)) as [_ Hu].
  assert (HD : (53 <= Zdigits2 mx)%Z).
  { destruct (Z_lt_ge_dec (Zdigits2 mx) 53) as [Hl|]; [|lia].
    assert (2 ^ Zdigits2 mx <= 2 ^ 52)%Z by (apply Z.pow_le_mono_r; lia). lia. }
  replace (Zdigits2 mx + ex - 53 - ex)%Z with (Zdigits2 mx - 53)%Z by lia.
  apply shr_nonneg. lia.
Qed.

Definition u : R := bpow (-53).

(** The second stage of [binary_round_aux]: renormalising the rounded
    mantissa and checking the exponent. *)
Definition round_tail (sx : bool) (m : Z) (e : Z) : spec_float :=
  let '(mrs'', e'') := shr_fexp prec emax m e loc_Exact in
  match shr_m mrs'' with
  | Z0 => S754_zero sx
  | Zpos m => if Z.leb e'' (Z.sub emax prec) then S754_finite sx m e'' else S754_infinity sx
  | _ => S754_nan
  end.

Lemma binary_round_aux_tail sx mx ex lx :
  binary_round_aux prec emax sx mx ex lx =
  let '(mrs', e') := shr_fexp prec emax mx ex lx in
  round_tail sx (round_nearest_even (shr_m mrs') (loc_of_shr_record mrs')) e'.
Proof. unfold binary_round_aux. destruct (shr_fexp prec emax mx ex lx). reflexivity. Qed.

Lemma round_tail_nocarry sx m2 e1 :
  (2 ^ 52 <= m2 < 2 ^ 53)%Z -> (-1074 <= e1 <= 971)%Z ->
  exists p, m2 = Zpos p /\ round_tail sx m2 e1 = S754_finite sx p e1.
Proof.
  intros Hm He.
  assert (Hd2 : Zdigits2 m2 = 53%Z) by (apply Zdigits2_unique; lia).
  unfold round_tail, shr_fexp. rewrite Hd2, fexp_normal by lia.
  replace (53 + e1 - 53 - e1)%Z with 0%Z by lia. cbn [shr shr_record_of_loc shr_m].
  assert (Hle : (e1 <=? emax - prec)%Z = true) by (apply Z.leb_le; unfold emax, prec; lia).
  destruct m2 as [|p|p]; [lia| |lia]. rewrite Hle. exists p. split; reflexivity.
Qed.

Lemma round_tail_carry sx e1 :
  (-1074 <= e1 <= 970)%Z ->
  round_tail sx (2 ^ 53) e1 = S754_finite sx 4503599627370496 (e1 + 1).
Proof.
  intros He.
  unfold round_tail, shr_fexp. change (Zdigits2 (2 ^ 53)) with 54%Z.
  rewrite fexp_normal by lia.
  replace (54 + e1 - 53 - e1)%Z with 1%Z by lia.
  assert (Hle : (e1 + 1 <=? emax - prec)%Z = true) by (apply Z.leb_le; unfold emax, prec; lia).
  cbn [shr SpecFloat.iter_pos shr_1 shr_record_of_loc shr_m]. rewrite Hle. reflexivity.
Qed.

(** One rounding to nearest, ties to even, of a positive value located by
    a mantissa of at least 53 bits, in the normal range. *)
Lemma round_aux_normal sx mx ex lx x :
  (2 ^ 52 <= mx)%Z -> loc_sem x mx ex lx ->
  bpow (-1022) <= x -> x < bpow 1023 ->
  exists m e, binary_round_aux prec emax sx mx ex lx = S754_finite sx m e /\
    (2 ^ 52 <= Zpos m < 2 ^ 53)%Z /\ Rabs (IZR (Zpos m) * bpow e - x) <= u * x.
Proof.
  intros Hmx Hloc Hlo Hhi.
  assert (Hmx0 : (0 < mx)%Z) by lia.
  pose proof (Zdigits2_bounds mx Hmx0) as [HD1 HD2].
  set (D := Zdigits2 mx) in *.
  assert (HD : (53 <= D)%Z).
  { destruct (Z_lt_ge_dec D 53) as [Hl|]; [|lia].
    assert (2 ^ D <= 2 ^ 52)%Z by (apply Z.pow_le_mono_r; lia). lia. }
  pose proof (loc_sem_bounds _ _ _ _ Hloc) as [Hy1 Hy2].
  assert (Hx : x = x * bpow (- ex) * bpow ex).
  { rewrite Rmult_assoc, <- bpow_plus. replace (- ex + ex)%Z with 0%Z by lia. rewrite bpow_0. lra. }
  assert (Hxlo : bpow (D - 1 + ex) <= x).
  { rewrite Hx, bpow_plus. apply Rmult_le_compat_r; [left; apply bpow_gt0|].
    rewrite (bpow_IZR (D - 1)) by lia. apply IZR_le in HD1. lra. }
  assert (Hxhi : x < bpow (D + ex)).
  { rewrite Hx, bpow_plus. apply Rmult_lt_compat_r; [apply bpow_gt0|].
    rewrite (bpow_IZR D) by lia. assert (IZR mx + 1 <= IZR (2 ^ D)) by (rewrite <- plus_IZR; apply IZR_le; lia).
    lra. }
  assert (He1 : (-1021 <= D + ex)%Z) by (assert (-1022 < D + ex)%Z by (apply bpow_lt_inv; lra); lia).
  assert (He2 : (D - 1 + ex < 1023)%Z) by (apply bpow_lt_inv; lra).
  rewrite binary_round_aux_tail, shr_fexp_normal by (fold D; lia). fold D.
  destruct (iter_shr_sem x ex (shr_record_of_loc mx lx) (Z.to_nat (D - 53))
              (rec_sem_of_loc x mx ex lx ltac:(lia) Hloc)) as [[Hr1 Hl1] Hm1].
  rewrite Z2Nat.id in Hl1, Hm1 by lia. rewrite shr_m_of_loc in Hm1.
  generalize dependent (Nat.iter (Z.to_nat (D - 53)) shr_1 (shr_record_of_loc mx lx)).
  intros r1 Hr1 Hl1 Hm1.
  remember (ex + (D - 53))%Z as e1 eqn:Ee1.
  remember (shr_m r1) as m1 eqn:Em1. remember (loc_of_shr_record r1) as l1 eqn:El1.
  assert (Hm1b : (2 ^ 52 <= m1 < 2 ^ 53)%Z).
  { rewrite Hm1. assert (Hp : (0 < 2 ^ (D - 53))%Z) by (apply Z.pow_pos_nonneg; lia).
    split.
    - apply Z.div_le_lower_bound; [exact Hp|]. rewrite <- Z.pow_add_r by lia.
      replace (D - 53 + 52)%Z with (D - 1)%Z by lia. exact HD1.
    - apply Z.div_lt_upper_bound; [exact Hp|]. rewrite <- Z.pow_add_r by lia.
      replace (D - 53 + 53)%Z with D by lia. exact HD2. }
  destruct (rne_sem _ _ _ _ Hl1) as [Hm2 Herr].
  remember (round_nearest_even m1 l1) as m2 eqn:Em2.
  assert (Hxlo' : bpow (e1 + 1 + 51) <= x) by (rewrite Ee1; replace (ex + (D - 53) + 1 + 51)%Z with (D - 1 + ex)%Z by lia; exact Hxlo).
  assert (Herr' : Rabs (IZR m2 * bpow e1 - x) <= u * x).
  { replace (IZR m2 * bpow e1 - x) with ((IZR m2 - x * bpow (- e1)) * bpow e1).
    2:{ rewrite Rmult_minus_distr_r, Rmult_assoc, <- bpow_plus. replace (- e1 + e1)%Z with 0%Z by lia.
        rewrite bpow_0. lra. }
    rewrite Rabs_mult, (Rabs_right (bpow e1)) by (left; apply bpow_gt0).
    unfold u.
    assert (Hb : bpow e1 = bpow (-53) * bpow (e1 + 1 + 51) * 2).
    { rewrite <- bpow_plus, <- bpow_1, <- bpow_plus. f_equal. lia. }
    pose proof (bpow_gt0 e1). pose proof (bpow_gt0 (-53)).
    assert (Rabs (IZR m2 - x * bpow (- e1)) * bpow e1 <= / 2 * bpow e1) by (apply Rmult_le_compat_r; lra).
    rewrite Hb in H1 at 2. nra. }
  destruct (Z_lt_ge_dec m2 (2 ^ 53)) as [Hlt|Hge].
  - destruct (round_tail_nocarry sx m2 e1 ltac:(lia) ltac:(lia)) as (p & Ep & Et).
    exists p, e1. split; [exact Et|]. split; [lia|]. rewrite <- Ep. exact Herr'.
  - assert (Em2' : m2 = (2 ^ 53)%Z) by lia. rewrite Em2' in Herr' |- *.
    rewrite (round_tail_carry sx e1) by lia.
    exists 4503599627370496%positive, (e1 + 1)%Z. split; [reflexivity|].
    split; [split; [apply Z.leb_le|apply Z.ltb_lt]; reflexivity|].
    replace (IZR (Zpos 4503599627370496) * bpow (e1 + 1)) with (IZR (2 ^ 53) * bpow e1); [exact Herr'|].
    rewrite bpow_plus, bpow_1. replace (2 ^ 53)%Z with (4503599627370496 * 2)%Z by reflexivity.
    rewrite mult_IZR. lra.
Qed.


(** ** Values of floats *)

Definition sgn (b : bool) : R := if b then -1 else 1.

Definition SF2R (f : spec_float) : R :=
  match f with
  | S754_finite s m e => sgn s * IZR (Zpos m) * bpow e
  | _ => 0
  end.

Definition normal_mant (m : positive) : Prop := (2 ^ 52 <= Zpos m < 2 ^ 53)%Z.

(** [f] is the normal float of sign [s] rounding [sgn s * x] with relative
    error at most [u]. *)
Definition rounds (s : bool) (x : R) (f : spec_float) : Prop :=
  exists m e, f = S754_finite s m e /\ normal_mant m /\
    exists d, Rabs d <= u /\ SF2R f = sgn s * x * (1 + d).

Lemma rel_of_abs a x : 0 < x -> Rabs (a - x) <= u * x ->
  exists d, Rabs d <= u /\ a = x * (1 + d).
Proof.
  intros Hx H. exists ((a - x) / x). split.
  - unfold Rdiv. rewrite Rabs_mult, Rabs_inv, (Rabs_right x) by lra.
    apply (Rmult_le_reg_r x); [lra|]. rewrite Rmult_assoc, Rinv_l by lra. lra.
  - field. lra.
Qed.

Lemma round_aux_rounds sx mx ex lx x :
  (2 ^ 52 <= mx)%Z -> loc_sem x mx ex lx ->
  bpow (-1022) <= x -> x < bpow 1023 ->
  rounds sx x (binary_round_aux prec emax sx mx ex lx).
Proof.
  intros Hm Hl Hlo Hhi.
  destruct (round_aux_normal sx mx ex lx x Hm Hl Hlo Hhi) as (m & e & Heq & Hb & Herr).
  pose proof (bpow_gt0 (-1022)).
  destruct (rel_of_abs (IZR (Zpos m) * bpow e) x ltac:(lra) Herr) as (d & Hd & Hv).
  exists m, e. split; [exact Heq|]. split; [exact Hb|]. exists d. split; [exact Hd|].
  rewrite Heq. cbn [SF2R]. rewrite Rmult_assoc, Hv. ring.
Qed.

Lemma Pos_iter_xO m d : Zpos (Pos.iter xO m d) = (Zpos m * 2 ^ Zpos d)%Z.
Proof.
  induction d as [|d IH] using Pos.peano_ind.
  - cbn. lia.
  - rewrite Pos.iter_succ, Pos2Z.inj_xO, IH, Pos2Z.inj_succ, Z.pow_succ_r by lia. ring.
Qed.

Lemma binary_round_rounds sx m e :
  let x := IZR (Zpos m) * bpow e in
  bpow (-1022) <= x -> x < bpow 1023 ->
  rounds sx x (binary_round prec emax sx m e).
Proof.
  intros x Hlo Hhi.
  pose proof (Zdigits2_bounds (Zpos m) ltac:(lia)) as [HD1 HD2].
  change (Zdigits2 (Zpos m)) with (Zpos (digits2_pos m)) in HD1, HD2.
  set (D := Zpos (digits2_pos m)) in *.
  assert (Hxhi : x < bpow (D + e)).
  { unfold x. rewrite bpow_plus. apply Rmult_lt_compat_r; [apply bpow_gt0|].
    rewrite (bpow_IZR D) by lia. apply IZR_lt. exact HD2. }
  assert (He : (-1021 <= D + e)%Z) by (assert (-1022 < D + e)%Z by (apply bpow_lt_inv; lra); lia).
  unfold binary_round. fold D. rewrite fexp_normal by exact He.
  unfold shl_align. replace (D + e - 53 - e)%Z with (D - 53)%Z by lia.
  destruct (D - 53)%Z as [|q|q] eqn:Eq.
  - apply round_aux_rounds; [| |exact Hlo|exact Hhi].
    + assert (2 ^ 52 = 2 ^ (D - 1))%Z as -> by (f_equal; lia). exact HD1.
    + cbn. unfold x. rewrite Rmult_assoc, <- bpow_plus, Z.add_opp_diag_r, bpow_0. ring.
  - apply round_aux_rounds; [| |exact Hlo|exact Hhi].
    + assert (2 ^ 52 <= 2 ^ (D - 1))%Z by (apply Z.pow_le_mono_r; lia). lia.
    + cbn. unfold x. rewrite Rmult_assoc, <- bpow_plus, Z.add_opp_diag_r, bpow_0. ring.
  - apply round_aux_rounds; [| |exact Hlo|exact Hhi].
    + rewrite Pos_iter_xO.
      assert (2 ^ 52 = 2 ^ (D - 1) * 2 ^ Zpos q)%Z as -> by (rewrite <- Z.pow_add_r by lia; f_equal; lia).
      apply Z.mul_le_mono_nonneg_r; [lia|exact HD1].
    + cbn [loc_sem]. unfold x. rewrite Pos_iter_xO, mult_IZR.
      rewrite <- (bpow_IZR (Zpos q)) by lia. rewrite Rmult_assoc, <- bpow_plus.
      f_equal. f_equal. lia.
Qed.


(** ** Division *)

Lemma new_location_sem x q e n k :
  (0 < n)%Z -> (0 <= k < n)%Z -> x * bpow (- e) = IZR q + IZR k / IZR n ->
  loc_sem x q e (new_location n k).
Proof.
  intros Hn Hk Hx.
  assert (HnR : 0 < IZR n) by (apply IZR_lt; exact Hn).
  set (r := IZR k / IZR n) in Hx.
  assert (Hr : r * IZR n = IZR k) by (unfold r; field; lra).
  assert (Hk0 : 0 <= IZR k) by (apply IZR_le; lia).
  assert (Hkn : IZR k < IZR n) by (apply IZR_lt; lia).
  unfold new_location, new_location_even, new_location_odd. cbv beta.
  destruct (Z.eqb_spec k 0) as [->|Hk1].
  - destruct (Z.even n); cbn [loc_sem Z.eqb]; rewrite Hx; unfold r; rewrite Rdiv_0_l, Rplus_0_r;
      reflexivity.
  - assert (Hk1R : 0 < IZR k) by (apply IZR_lt; lia).
    assert (Ek : (k =? 0)%Z = false) by (apply Z.eqb_neq; exact Hk1).
    destruct (Z.even n) eqn:Ev.
    + destruct (Z.compare_spec (2 * k) n) as [E|E|E]; rewrite Ek; cbn [loc_sem]; rewrite Hx.
      * apply (f_equal IZR) in E. rewrite mult_IZR in E. f_equal. nra.
      * apply IZR_lt in E. rewrite mult_IZR in E. split; nra.
      * apply IZR_lt in E. rewrite mult_IZR in E. split; nra.
    + assert (Hne : (2 * k <> n)%Z).
      { intros E. rewrite <- E, Z.even_mul in Ev. discriminate Ev. }
      destruct (Z.compare_spec (2 * k + 1) n) as [E|E|E]; rewrite Ek; cbn [loc_sem]; rewrite Hx.
      * assert (E' : (2 * k < n)%Z) by lia. apply IZR_lt in E'. rewrite mult_IZR in E'. split; nra.
      * assert (E' : (2 * k < n)%Z) by lia. apply IZR_lt in E'. rewrite mult_IZR in E'. split; nra.
      * assert (E' : (n < 2 * k)%Z) by lia. apply IZR_lt in E'. rewrite mult_IZR in E'. split; nra.
Qed.

Lemma normal_digits m : normal_mant m -> Zdigits2 (Zpos m) = 53%Z.
Proof. intros Hm. apply Zdigits2_unique; [lia|]. exact Hm. Qed.

Lemma normal_mant_R m : normal_mant m -> bpow 52 <= IZR (Zpos m) < bpow 53.
Proof.
  intros [H1 H2]. rewrite !bpow_IZR by lia. split; [apply IZR_le|apply IZR_lt]; assumption.
Qed.

Lemma div_rounds sx mx ex my ey :
  normal_mant mx -> normal_mant my ->
  let X := IZR (Zpos mx) * bpow ex in
  let Y := IZR (Zpos my) * bpow ey in
  bpow (-1000) <= X / Y <= bpow 1000 ->
  rounds sx (X / Y) (SFdiv prec emax (S754_finite sx mx ex) (S754_finite false my ey)).
Proof.
  intros Hmx Hmy X Y [HQlo HQhi].
  pose proof (normal_mant_R _ Hmx) as [Hx1 Hx2]. pose proof (normal_mant_R _ Hmy) as [Hy1 Hy2].
  assert (HQ : X / Y = IZR (Zpos mx) / IZR (Zpos my) * bpow (ex - ey)).
  { unfold X, Y, Rdiv. rewrite <- (Z.add_opp_r ex ey), bpow_plus, bpow_opp.
    pose proof (bpow_gt0 ey). pose proof (bpow_gt0 52). field. split; lra. }
  assert (Hr2 : IZR (Zpos mx) / IZR (Zpos my) < 2).
  { apply (Rmult_lt_reg_r (IZR (Zpos my))); [pose proof (bpow_gt0 52); lra|].
    unfold Rdiv. rewrite Rmult_assoc, Rinv_l by (pose proof (bpow_gt0 52); lra).
    replace (bpow 53) with (2 * bpow 52) in Hx2 by (rewrite <- bpow_1, <- bpow_plus; reflexivity).
    lra. }
  assert (Hed : (-1000 < ex - ey + 1)%Z).
  { apply bpow_lt_inv. rewrite bpow_plus, bpow_1. pose proof (bpow_gt0 (ex - ey)). nra. }
  cbn [SFdiv]. rewrite xorb_false_r. unfold SFdiv_core_binary.
  rewrite (normal_digits _ Hmx), (normal_digits _ Hmy).
  replace (53 + ex - (53 + ey))%Z with (ex - ey)%Z by lia.
  rewrite fexp_normal by lia. rewrite Z.min_l by lia.
  replace (ex - ey - (ex - ey - 53))%Z with 53%Z by lia.
  rewrite Z.shiftl_mul_pow2 by lia.
  pose proof (Z_div_mod (Zpos mx * 2 ^ 53) (Zpos my) ltac:(lia)) as Hdm.
  destruct (Z.div_eucl (Zpos mx * 2 ^ 53) (Zpos my)) as [q r] eqn:Edv.
  destruct Hdm as [Hdm Hr].
  apply round_aux_rounds.
  - destruct Hmx as [Hmx1 _]. destruct Hmy as [_ Hmy2].
    destruct (Z_lt_ge_dec q (2 ^ 52)) as [Hq|Hq]; [|lia]. exfalso.
    assert (Zpos my * q <= Zpos my * (2 ^ 52 - 1))%Z by (apply Z.mul_le_mono_nonneg_l; lia).
    assert (Zpos my * 2 ^ 52 < 2 ^ 53 * 2 ^ 52)%Z by (apply Z.mul_lt_mono_pos_r; lia).
    assert (2 ^ 52 * 2 ^ 53 <= Zpos mx * 2 ^ 53)%Z by (apply Z.mul_le_mono_nonneg_r; lia).
    lia.
  - apply new_location_sem; [lia|lia|].
    rewrite HQ, Rmult_assoc, <- bpow_plus.
    replace (ex - ey + - (ex - ey - 53))%Z with 53%Z by lia.
    assert (HM : IZR (Zpos mx) * bpow 53 = IZR (Zpos my) * IZR q + IZR r).
    { rewrite (bpow_IZR 53) by lia. rewrite <- mult_IZR, <- mult_IZR, <- plus_IZR. f_equal. lia. }
    pose proof (bpow_gt0 52).
    replace (IZR (Zpos mx) / IZR (Zpos my) * bpow 53) with (IZR (Zpos mx) * bpow 53 / IZR (Zpos my)) by (field; lra).
    rewrite HM. field. lra.
  - pose proof (bpow_le (-1022) (-1000) ltac:(lia)). lra.
  - apply (Rle_lt_trans _ _ _ HQhi), bpow_lt. lia.
Qed.

(** ** Multiplication *)

Lemma mul_rounds sx mx ex my ey :
  normal_mant mx -> normal_mant my ->
  let X := IZR (Zpos mx) * bpow ex in
  let Y := IZR (Zpos my) * bpow ey in
  bpow (-1000) <= X * Y <= bpow 1000 ->
  rounds sx (X * Y) (SFmul prec emax (S754_finite sx mx ex) (S754_finite false my ey)).
Proof.
  intros Hmx Hmy X Y [Hlo Hhi].
  cbn [SFmul]. rewrite xorb_false_r. apply round_aux_rounds.
  - destruct Hmx as [Hmx1 _]. destruct Hmy as [Hmy1 _]. rewrite Pos2Z.inj_mul.
    assert (2 ^ 52 * 1 <= Zpos mx * Zpos my)%Z by (apply Z.mul_le_mono_nonneg; lia). lia.
  - cbn [loc_sem]. unfold X, Y. rewrite Pos2Z.inj_mul, mult_IZR.
    rewrite Z.opp_add_distr, bpow_plus, !bpow_opp.
    pose proof (bpow_gt0 ex). pose proof (bpow_gt0 ey). field. split; lra.
  - pose proof (bpow_le (-1022) (-1000) ltac:(lia)). lra.
  - apply (Rle_lt_trans _ _ _ Hhi), bpow_lt. lia.
Qed.


(** ** Subtraction *)

Lemma shl_align_value mx ex ez :
  (ez <= ex)%Z -> IZR (Zpos (fst (shl_align mx ex ez))) * bpow ez = IZR (Zpos mx) * bpow ex.
Proof.
  intros Hle. unfold shl_align. destruct (ez - ex)%Z as [|d|d] eqn:E; cbn [fst].
  - replace ez with ex by lia. reflexivity.
  - lia.
  - rewrite Pos_iter_xO, mult_IZR, <- (bpow_IZR (Zpos d)) by lia.
    rewrite Rmult_assoc, <- bpow_plus. f_equal. f_equal. lia.
Qed.

Lemma sub_rounds ms es mp ep :
  let a := IZR (Zpos ms) * bpow es in
  let b := IZR (Zpos mp) * bpow ep in
  (-1022 <= es)%Z -> (-1022 <= ep)%Z -> a < bpow 1022 -> b < bpow 1022 ->
  (a = b /\ SFsub prec emax (S754_finite false ms es) (S754_finite false mp ep) = S754_zero false) \/
  exists s, bpow (Z.min es ep) <= sgn s * (a - b) /\
    rounds s (sgn s * (a - b)) (SFsub prec emax (S754_finite false ms es) (S754_finite false mp ep)).
Proof.
  intros a b Hes Hep Ha Hb.
  pose proof (IZR_lt 0 (Zpos ms) ltac:(lia)). pose proof (IZR_lt 0 (Zpos mp) ltac:(lia)).
  pose proof (bpow_gt0 es). pose proof (bpow_gt0 ep).
  assert (Ha0 : 0 < a) by (unfold a; nra). assert (Hb0 : 0 < b) by (unfold b; nra).
  unfold SFsub, cond_Zopp; cbv beta iota zeta.
  pose proof (shl_align_value ms es (Z.min es ep) (Z.le_min_l es ep)) as HA.
  pose proof (shl_align_value mp ep (Z.min es ep) (Z.le_min_r es ep)) as HB.
  set (ez := Z.min es ep) in *.
  set (A := Zpos (fst (shl_align ms es ez))) in *.
  set (B := Zpos (fst (shl_align mp ep ez))) in *.
  assert (HN : IZR (A - B) * bpow ez = a - b) by (rewrite minus_IZR; unfold a, b; rewrite <- HA, <- HB; ring).
  pose proof (bpow_gt0 ez) as Hez.
  assert (Hez1 : bpow (-1022) <= bpow ez) by (apply bpow_le; unfold ez; lia).
  pose proof (bpow_lt 1022 1023 ltac:(lia)).
  destruct (A - B)%Z as [|n|n] eqn:EN; unfold binary_normalize.
  - left. split; [|reflexivity]. rewrite Rmult_0_l in HN. lra.
  - right. exists false. unfold sgn. rewrite Rmult_1_l, <- HN.
    pose proof (IZR_le 1 (Zpos n) ltac:(lia)).
    split; [nra|]. apply binary_round_rounds; nra.
  - right. exists true. unfold sgn.
    replace (-1 * (a - b)) with (IZR (Zpos n) * bpow ez)
      by (rewrite <- HN; change (Zneg n) with (- Zpos n)%Z; rewrite opp_IZR; ring).
    pose proof (IZR_le 1 (Zpos n) ltac:(lia)).
    assert (IZR (Zpos n) * bpow ez = b - a)
      by (replace (b - a) with (- (a - b)) by ring; rewrite <- HN; change (Zneg n) with (- Zpos n)%Z; rewrite opp_IZR; ring).
    split; [nra|]. apply binary_round_rounds; nra.
Qed.

(** ** Magnitude bounds *)

Lemma Rabs_bounds d a : Rabs d <= a -> - a <= d <= a.
Proof.
  intros H. pose proof (Rle_abs d). pose proof (Rle_abs (- d)). rewrite Rabs_Ropp in *. lra.
Qed.

Lemma u_small : 0 < u <= / 2.
Proof.
  unfold u. split; [apply bpow_gt0|]. rewrite <- bpow_1, <- bpow_opp. apply bpow_le. lia.
Qed.

Lemma rounds_mag s x f : rounds s x f ->
  exists m e d, f = S754_finite s m e /\ normal_mant m /\ Rabs d <= u /\
    IZR (Zpos m) * bpow e = x * (1 + d).
Proof.
  intros (m & e & -> & Hm & d & Hd & Hv). exists m, e, d. split; [reflexivity|].
  split; [exact Hm|]. split; [exact Hd|]. cbn [SF2R] in Hv. destruct s; cbn [sgn] in Hv; lra.
Qed.

Lemma bpow_mul_bounds x y lx hx ly hy :
  bpow lx <= x <= bpow hx -> bpow ly <= y <= bpow hy ->
  bpow (lx + ly) <= x * y <= bpow (hx + hy).
Proof.
  intros [Hx1 Hx2] [Hy1 Hy2]. pose proof (bpow_gt0 lx). pose proof (bpow_gt0 ly).
  rewrite !bpow_plus. split; apply Rmult_le_compat; lra.
Qed.

Lemma bpow_inv_bounds x l h : bpow l <= x <= bpow h -> bpow (- h) <= / x <= bpow (- l).
Proof.
  intros [H1 H2]. pose proof (bpow_gt0 l). rewrite !bpow_opp.
  split; apply Rinv_le_contravar; lra.
Qed.

Lemma one_plus_bounds d : Rabs d <= u -> bpow (-1) <= 1 + d <= bpow 1.
Proof.
  intros Hd. pose proof u_small. replace (bpow (-1)) with (/ 2) by (rewrite <- bpow_1; apply (bpow_opp 1)). rewrite bpow_1. apply Rabs_bounds in Hd. lra.
Qed.

Lemma bpow_bounds_weaken x l h l' h' :
  (l' <= l)%Z -> (h <= h')%Z -> bpow l <= x <= bpow h -> bpow l' <= x <= bpow h'.
Proof.
  intros Hl Hh [H1 H2]. pose proof (bpow_le _ _ Hl). pose proof (bpow_le _ _ Hh). lra.
Qed.

Lemma rel_mul a b al be : Rabs a <= al -> Rabs b <= be ->
  Rabs ((1 + a) * (1 + b) - 1) <= (1 + al) * (1 + be) - 1.
Proof.
  intros Ha Hb. replace ((1 + a) * (1 + b) - 1) with (a + b + a * b) by ring.
  eapply Rle_trans; [apply Rabs_triang|].
  eapply Rle_trans; [apply Rplus_le_compat_r, Rabs_triang|].
  rewrite Rabs_mult. pose proof (Rabs_pos a). pose proof (Rabs_pos b).
  assert (Rabs a * Rabs b <= al * be) by (apply Rmult_le_compat; lra). lra.
Qed.

(** ** Valid positive floats *)

Lemma valid_pos_normal f :
  valid_binary prec emax f = true -> bpow (-100) <= SF2R f <= bpow 100 ->
  exists m e, f = S754_finite false m e /\ normal_mant m /\ (-152 <= e <= 48)%Z.
Proof.
  intros Hv [Hlo Hhi]. pose proof (bpow_gt0 (-100)).
  destruct f as [s|s| |s m e]; cbn [SF2R] in Hlo, Hhi; try lra.
  assert (Hm0 : 0 < IZR (Zpos m)) by (apply IZR_lt; lia). pose proof (bpow_gt0 e).
  destruct s; cbn [sgn] in Hlo, Hhi; [nra|]. rewrite Rmult_1_l in Hlo, Hhi.
  cbn [valid_binary] in Hv. unfold bounded, canonical_mantissa in Hv.
  apply andb_prop in Hv as [Hc Hb]. apply Z.eqb_eq in Hc. apply Z.leb_le in Hb.
  pose proof (Zdigits2_bounds (Zpos m) ltac:(lia)) as [HD1 HD2].
  change (Zdigits2 (Zpos m)) with (Zpos (digits2_pos m)) in HD1, HD2.
  set (D := Zpos (digits2_pos m)) in *.
  unfold fexp, emin, prec, emax in Hc.
  assert (HD : (D <= 53)%Z) by lia.
  assert (Hm53 : IZR (Zpos m) < bpow 53).
  { rewrite bpow_IZR by lia. apply IZR_lt. assert (2 ^ D <= 2 ^ 53)%Z by (apply Z.pow_le_mono_r; lia). lia. }
  assert (He1 : (-100 < 53 + e)%Z).
  { apply bpow_lt_inv. rewrite bpow_plus. eapply Rle_lt_trans; [exact Hlo|].
    apply Rmult_lt_compat_r; [apply bpow_gt0|exact Hm53]. }
  assert (HD53 : D = 53%Z) by lia.
  assert (Hm52 : bpow 52 <= IZR (Zpos m)).
  { rewrite bpow_IZR by lia. apply IZR_le. replace 52%Z with (D - 1)%Z by lia. exact HD1. }
  assert (He2 : (52 + e <= 100)%Z).
  { apply bpow_le_inv. rewrite bpow_plus. eapply Rle_trans; [|exact Hhi].
    apply Rmult_le_compat_r; [left; apply bpow_gt0|exact Hm52]. }
  exists m, e. split; [reflexivity|]. split; [|lia].
  split; [replace 52%Z with (D - 1)%Z by lia; exact HD1|]. replace 53%Z with D by lia. exact HD2.
Qed.


Lemma float_of_int_100 : float_of_int 100 = S754_finite false 7036874417766400 (-46).
Proof. vm_compute. reflexivity. Qed.

Lemma hundred_value : IZR (Zpos 7036874417766400) * bpow (-46) = 100.
Proof.
  replace (bpow (-46)) with (/ IZR (2 ^ 46)) by (rewrite <- bpow_IZR by lia; apply (bpow_opp 46)).
  replace (Zpos 7036874417766400) with (100 * 2 ^ 46)%Z by reflexivity.
  rewrite mult_IZR. field. apply not_0_IZR. lia.
Qed.

Lemma bpow_Zneg k : bpow (Zneg k) = / IZR (2 ^ Zpos k).
Proof. change (Zneg k) with (- Zpos k)%Z. rewrite bpow_opp, bpow_IZR by lia. reflexivity. Qed.

Lemma float_of_int_3_value : SF2R (float_of_int 3) = 3.
Proof.
  replace (float_of_int 3) with (S754_finite false 6755399441055744 (-51)) by (vm_compute; reflexivity).
  cbn [SF2R sgn]. rewrite bpow_Zneg. replace (2 ^ Zpos 51)%Z with 2251799813685248%Z by reflexivity.
  field.
Qed.

Lemma float_of_int_1_value : SF2R (float_of_int 1) = 1.
Proof.
  replace (float_of_int 1) with (S754_finite false 4503599627370496 (-52)) by (vm_compute; reflexivity).
  cbn [SF2R sgn]. rewrite bpow_Zneg. replace (2 ^ Zpos 52)%Z with 4503599627370496%Z by reflexivity.
  field.
Qed.

Lemma timing_bounds_1_3 x : 1 <= x <= 3 -> bpow (-100) <= x <= bpow 100.
Proof.
  intros Hx. pose proof (bpow_le (-100) 0 ltac:(lia)). pose proof (bpow_le 2 100 ltac:(lia)).
  rewrite bpow_0 in *. rewrite (bpow_IZR 2) in * by lia. cbn in *. lra.
Qed.

Lemma hundred_normal : normal_mant 7036874417766400.
Proof. split; [apply Z.leb_le|apply Z.ltb_lt]; reflexivity. Qed.

Lemma hundred_bounds : bpow 6 <= 100 <= bpow 7.
Proof. rewrite !bpow_IZR by lia. cbn. lra. Qed.

End Float64.

(* ------------------------------------------------------------------ *)
(** * Properties *)

(** C2: in every run of the speculative demonstration, the real request
    is sent only after the probe has been sent, the typing wait has
    elapsed and the probe task has been joined; its send time is at least
    the probe's send time plus the larger of the typing time and the probe
    latency. *)
Theorem speculative_send_after_join think w st :
  globals_ok st ->
  let '(_, st') := speculative_prompt_caching_demo_t think w st in
  exists new, out st' = out st ++ new /\
  forall rq t, In (ESend FinalCall rq t) new ->
  exists l1 l2 rp t0,
    new = l1 ++ ESend ProbeCall rp t0 :: ESlept (t0 + Z.max 0 think)
               :: ETaskJoined (t0 + Z.max 0 (probe_latency (w_svc w))) :: l2 /\
    In (ESend FinalCall rq t) l2 /\
    t0 + Z.max 0 think <= t /\
    t0 + Z.max 0 (probe_latency (w_svc w)) <= t /\
    Z.max think (probe_latency (w_svc w)) <= t - t0.
Proof.
  intros Hg. destruct w as [now fetch [lat perr ferr units usage]].
  transport.
  unfold speculative_prompt_caching_demo_t, create_initial_message.
  canon_run.
  2: destruct perr as [pe|]; [|destruct ferr as [fe|]]; ccbv.
  4: loop_run.
  all: eexists; split; [new_events|].
  all: intros rq t' Hin; in_cases Hin.
  all: injection Hin as <- <-.
  all: exists []; do 3 eexists; split; [reflexivity|].
  all: split; [left; reflexivity|]; lia.
Qed.

Lemma speculative_send_after_join_witness :
  globals_ok (init_state 0) /\
  let '(_, st') := speculative_prompt_caching_demo_t TYPING_MS sample_world (init_state 0) in
  exists new, out st' = out (init_state 0) ++ new /\
  forall rq t, In (ESend FinalCall rq t) new ->
  exists l1 l2 rp t0,
    new = l1 ++ ESend ProbeCall rp t0 :: ESlept (t0 + Z.max 0 TYPING_MS)
               :: ETaskJoined (t0 + Z.max 0 (probe_latency (w_svc sample_world))) :: l2 /\
    In (ESend FinalCall rq t) l2 /\
    t0 + Z.max 0 TYPING_MS <= t /\
    t0 + Z.max 0 (probe_latency (w_svc sample_world)) <= t /\
    Z.max TYPING_MS (probe_latency (w_svc sample_world)) <= t - t0.
Proof.
  split; [apply init_globals_ok|].
  apply speculative_send_after_join. apply init_globals_ok.
Defined.

(** C1: a failing probe is not degraded to the uncached path: [await
    cache_task] re-raises the probe's exception, so the demonstration
    raises it and the real request is never sent (if the context could
    not be built, nothing is sent at all). *)
Theorem speculative_probe_failure_aborts think w st e :
  globals_ok st -> probe_error (w_svc w) = Some e ->
  let '(r, st') := speculative_prompt_caching_demo_t think w st in
  (exists e', r = inl e') /\
  exists new, out st' = out st ++ new /\
  (forall rq t, ~ In (ESend FinalCall rq t) new) /\
  (r = inl e \/ new = []).
Proof.
  intros Hg Hp. destruct w as [now fetch [lat perr ferr units usage]].
  simpl in Hp. subst perr.
  transport.
  unfold speculative_prompt_caching_demo_t, create_initial_message.
  canon_run.
  - split; [eexists; reflexivity|]. exists []. split; [symmetry; apply app_nil_r|].
    split; [intros rq t' Hin; exact Hin|right; reflexivity].
  - split; [eexists; reflexivity|]. eexists. split; [new_events|].
    split; [intros rq t' Hin; in_cases Hin|left; reflexivity].
Qed.

Lemma speculative_probe_failure_aborts_witness :
  globals_ok (init_state 0) /\
  probe_error (w_svc probe_fail_world) = Some (APIError "overloaded_error") /\
  let '(r, st') := speculative_prompt_caching_demo_t TYPING_MS probe_fail_world (init_state 0) in
  (exists e', r = inl e') /\
  exists new, out st' = out (init_state 0) ++ new /\
  (forall rq t, ~ In (ESend FinalCall rq t) new) /\
  (r = inl (APIError "overloaded_error") \/ new = []).
Proof.
  split; [apply init_globals_ok|]. split; [reflexivity|].
  apply speculative_probe_failure_aborts; [apply init_globals_ok|reflexivity].
Defined.

(** A run where the probe fails and the stream request would succeed:
    the demonstration raises the probe's error and sends no real request. *)
Lemma speculative_probe_failure_counterexample :
  final_error (w_svc probe_fail_world) = None /\
  let '(r, st') := speculative_prompt_caching_demo probe_fail_world (init_state 0) in
  r = inl (APIError "overloaded_error") /\ forall rq t, ~ In (ESend FinalCall rq t) (out st').
Proof.
  split; [reflexivity|]. vm_compute. split; [reflexivity|].
  intros rq t Hin. in_cases Hin.
Qed.

(** C4: the loader either returns a map whose keys are exactly the
    requested names, which it does only when every download answered with
    a 2xx response, or raises the exception of a failing download that
    finished no later than any other failing download, and returns no map:
    a single failing download is enough to make the whole operation fail. *)
Theorem get_sqlite_sources_all_or_nothing srcs w st :
  match get_sqlite_sources_of srcs w st with
  | (inr m, _) =>
      (forall fn url, In (fn, url) srcs ->
       exists d status text, w_fetch w url = FResponse d status text /\ 200 <= status < 300) /\
      forall k, is_Some (m !! k) <-> In k (map fst srcs)
  | (inl e, _) =>
      exists filename url d,
        In (filename, url) srcs /\ download_file filename (w_fetch w url) = (d, inl e) /\
        forall filename' url' d' e',
          In (filename', url') srcs ->
          download_file filename' (w_fetch w url') = (d', inl e') -> d <= d'
  end.
Proof.
  rewrite get_sqlite_sources_of_run. cbv zeta.
  destruct (first_failure _) as [[d e]|] eqn:F.
  - destruct (first_failure_min _ d e F) as [Hin Hmin].
    apply in_map_iff in Hin. destruct Hin as [[fn url] [E Hin]].
    exists fn, url, d. split; [exact Hin|]. split; [exact E|].
    intros fn' url' d' e' Hin' E'. apply (Hmin d' e').
    apply in_map_iff. exists (fn', url'). split; assumption.
  - split; [exact (downloads_all_ok srcs w F)|].
    intros k. rewrite list_to_map_is_Some, first_failure_none_keys by exact F. reflexivity.
Qed.

(** C6: from the request's send time [start_time], the time to first
    token is the arrival time of the first streamed unit whose text is not
    blank after [strip()]; blank units before it are skipped, and if every
    unit is blank no time is recorded. *)
Theorem ttft_first_nonblank_unit svc qt msg st :
  let '(r, st') := stream_and_report svc qt msg st in
  match final_error svc with
  | Some e => r = inl e
  | None =>
      (exists rq, In (ESend FinalCall rq (clock st)) (out st')) /\
      exists total,
        (Forall blank_unit (stream_units svc) /\ r = inr (None, total)) \/
        (exists pre d text post,
           stream_units svc = pre ++ (d, text) :: post /\ Forall blank_unit pre /\
           py_truthy (py_strip text) = true /\
           r = inr (Some (delays pre + Z.max 0 d), total))
  end.
Proof.
  destruct st as [h n c o].
  unfold stream_and_report, open_stream, bind, get_time, alloc, request_body, emit.
  cbn -[to_json first_token_loop get_final_message print_query_statistics].
  destruct (final_error svc) as [e|]; [reflexivity|].
  unfold ret. cbn -[to_json first_token_loop get_final_message print_query_statistics].
  destruct (first_token_loop_run c (stream_units svc)
              (mk_state (upd h n (OList [msg])) (S n) c
                 (o ++ [ESend FinalCall
                          (JObj (("messages", to_json FUEL (upd h n (OList [msg])) (VRef n))
                                 :: ("model", JStr MODEL)
                                 :: json_fields (to_json FUEL (upd h n (OList [msg]))
                                                  (VRef DEFAULT_CLIENT_ARGS)))) c])))
    as [[HB HL]|[pre [d [text [post [HU [HB [HT HL]]]]]]]]; rewrite HL;
    unfold get_final_message, print_query_statistics, bind, get_time, set_clock, ret, emit;
    cbn -[to_json];
    (split; [eexists; in_find|eexists]).
  - left. split; [exact HB|reflexivity].
  - right. exists pre, d, text, post. repeat split; auto. f_equal. f_equal. f_equal. lia.
Qed.

(** C10: with no resources the loader succeeds with the empty map, and
    building the context message then raises [KeyError('btree.h')]. *)
Theorem empty_sources_key_error w st :
  fst (get_sqlite_sources_of [] w st) = inr (∅ : gmap string string) /\
  fst (create_initial_message_of [] w st) = inl (KeyError "btree.h").
Proof. split; reflexivity. Qed.

(** C9: the probe sends [max_tokens = 1] with every other default
    argument unchanged, and leaves every object that existed before the
    call, [DEFAULT_CLIENT_ARGS] and its nested [extra_headers] included,
    as it was: the override is written into a deep copy. *)
Theorem probe_budget_one_defaults_unchanged svc m st :
  globals_ok st ->
  let '(r, st') := sample_one_token svc m st in
  r = inr (mk_task (clock st + Z.max 0 (probe_latency svc)) (probe_error svc)) /\
  (forall l, (l < next_loc st)%nat -> heap_of st' l = heap_of st l) /\
  out st' = out st ++
    [ESend ProbeCall
       (JObj (("messages", to_json FUEL (heap_of st') m) :: ("model", JStr MODEL)
              :: jdict_set (json_fields default_client_args_json) "max_tokens" (JInt 1)))
       (clock st)].
Proof.
  intros Hg. destruct st as [h n c o].
  rewrite (sample_one_token_run _ _ _ _ _ _ Hg), probe_args_json.
  split; [reflexivity|]. split; [|reflexivity].
  intros l Hl. simpl in Hl. unfold probe_heap, upd. cbn [heap_of]. eqb_tac. reflexivity.
Qed.

Lemma probe_budget_one_defaults_unchanged_witness :
  globals_ok (init_state 0) /\
  let '(r, st') := sample_one_token sample_service (VRef DEFAULT_CLIENT_ARGS) (init_state 0) in
  r = inr (mk_task (clock (init_state 0) + Z.max 0 (probe_latency sample_service))
                   (probe_error sample_service)) /\
  (forall l, (l < next_loc (init_state 0))%nat -> heap_of st' l = heap_of (init_state 0) l) /\
  out st' = out (init_state 0) ++
    [ESend ProbeCall
       (JObj (("messages", to_json FUEL (heap_of st') (VRef DEFAULT_CLIENT_ARGS))
              :: ("model", JStr MODEL)
              :: jdict_set (json_fields default_client_args_json) "max_tokens" (JInt 1)))
       (clock (init_state 0))].
Proof.
  split; [apply init_globals_ok|].
  apply probe_budget_one_defaults_unchanged. apply init_globals_ok.
Defined.

(** C3 (corrected): the uniqueness token is the wall-clock time at
    one-second resolution.  When both runs build their message, the two
    serialisations are equal only if the two clock readings agree in year,
    month, day, hour, minute and second; and they are equal whenever the
    readings agree to the second and both runs downloaded the same texts. *)
Theorem context_message_unique_per_second w1 w2 st1 st2 :
  valid_datetime (w_now w1) = true -> valid_datetime (w_now w2) = true ->
  match create_initial_message w1 st1, create_initial_message w2 st2 with
  | (inr v1, s1), (inr v2, s2) =>
      (to_json FUEL (heap_of s1) v1 = to_json FUEL (heap_of s2) v2 ->
       to_the_second (w_now w1) = to_the_second (w_now w2)) /\
      ((forall fn url, In (fn, url) SQLITE_SOURCES ->
        fetched_text (w_fetch w1 url) = fetched_text (w_fetch w2 url)) ->
       to_the_second (w_now w1) = to_the_second (w_now w2) ->
       to_json FUEL (heap_of s1) v1 = to_json FUEL (heap_of s2) v2)
  | _, _ => True
  end.
Proof.
  intros V1 V2. unfold create_initial_message.
  pose proof (create_initial_message_json SQLITE_SOURCES w1 st1) as J1.
  pose proof (create_initial_message_json SQLITE_SOURCES w2 st2) as J2.
  destruct (create_initial_message_of SQLITE_SOURCES w1 st1) as [[e1|v1] s1]; [exact I|].
  destruct (create_initial_message_of SQLITE_SOURCES w2 st2) as [[e2|v2] s2]; [exact I|].
  destruct J1 as [m1 [bh1 [bc1 [G1 [Eh1 [Ec1 [T1 _]]]]]]].
  destruct J2 as [m2 [bh2 [bc2 [G2 [Eh2 [Ec2 [T2 _]]]]]]].
  rewrite T1, T2. split.
  - intros E. apply context_message_json_inj in E. unfold to_the_second.
    apply strftime_ts_inj; [exact V1|exact V2|].
    apply (context_text_ts _ _ _ _ _ _ (eq_trans (strftime_ts_length _ V1)
                                               (eq_sym (strftime_ts_length _ V2))) E).
  - intros Htext Hsec.
    destruct (sqlite_sources_texts _ _ _ G1) as [th1 [tc1 [F1h [F1c [L1h L1c]]]]].
    destruct (sqlite_sources_texts _ _ _ G2) as [th2 [tc2 [F2h [F2c [L2h L2c]]]]].
    rewrite (Htext "btree.h") in F1h by (left; reflexivity).
    rewrite (Htext "btree.c") in F1c by (right; left; reflexivity).
    rewrite F1h in F2h. rewrite F1c in F2c. injection F2h as <-. injection F2c as <-.
    rewrite Eh1 in L1h. rewrite Ec1 in L1c. rewrite Eh2 in L2h. rewrite Ec2 in L2c.
    injection L1h as ->. injection L1c as ->. injection L2h as ->. injection L2c as ->.
    rewrite (strftime_ts_to_the_second _ _ Hsec). reflexivity.
Qed.

Lemma context_message_unique_per_second_witness :
  valid_datetime (w_now sample_world) = true /\
  valid_datetime (w_now sample_world_later_us) = true /\
  match create_initial_message sample_world (init_state 0),
        create_initial_message sample_world_later_us (init_state 5000) with
  | (inr v1, s1), (inr v2, s2) =>
      (to_json FUEL (heap_of s1) v1 = to_json FUEL (heap_of s2) v2 ->
       to_the_second (w_now sample_world) = to_the_second (w_now sample_world_later_us)) /\
      ((forall fn url, In (fn, url) SQLITE_SOURCES ->
        fetched_text (w_fetch sample_world url) = fetched_text (w_fetch sample_world_later_us url)) ->
       to_the_second (w_now sample_world) = to_the_second (w_now sample_world_later_us) ->
       to_json FUEL (heap_of s1) v1 = to_json FUEL (heap_of s2) v2)
  | _, _ => True
  end.
Proof.
  split; [reflexivity|]. split; [reflexivity|].
  apply context_message_unique_per_second; reflexivity.
Defined.

(** Two distinct runs, whose clocks differ only in the microseconds,
    build context messages with the same serialisation. *)
Lemma context_message_unique_counterexample :
  sample_now <> sample_now_later_us /\
  match create_initial_message sample_world (init_state 0),
        create_initial_message sample_world_later_us (init_state 5000) with
  | (inr v1, s1), (inr v2, s2) => to_json FUEL (heap_of s1) v1 = to_json FUEL (heap_of s2) v2
  | _, _ => False
  end.
Proof.
  split; [intros E; injection E; lia|]. vm_compute. reflexivity.
Qed.

(** C5: the context message is never mutated once built, and the final
    request reuses it: building the final message (deep copy, then append
    to the copy's content list) leaves every object that existed before
    as it was, and in the speculative run the final request's message has
    the probe message's content block as its first block, followed by the
    question block. *)
Theorem speculative_context_reused think w st :
  globals_ok st ->
  (forall v st0 r st1, copy_with_question v st0 = (r, st1) ->
     forall l, (l < next_loc st0)%nat -> heap_of st1 l = heap_of st0 l) /\
  let '(_, st') := speculative_prompt_caching_demo_t think w st in
  exists new, out st' = out st ++ new /\
  forall rp tp rf tf, In (ESend ProbeCall rp tp) new -> In (ESend FinalCall rf tf) new ->
  exists block,
    json_get rp "messages" = Some (JArr [JObj [("role", JStr "user"); ("content", JArr [block])]]) /\
    json_get rf "messages" =
      Some (JArr [JObj [("role", JStr "user"); ("content", JArr [block; question_json])]]).
Proof.
  intros Hg. split.
  { intros v st0 r st1 E. exact (proj2 (copy_with_question_frame _ _ _ _ E)). }
  destruct w as [now fetch [lat perr ferr units usage]].
  transport.
  unfold speculative_prompt_caching_demo_t, create_initial_message.
  canon_run.
  2: destruct perr as [pe|]; [|destruct ferr as [fe|]]; ccbv.
  4: loop_run.
  all: eexists; split; [new_events|].
  all: intros rp tp rf tf Hp Hf; in_cases Hp; in_cases Hf.
  all: injection Hp as <- <-; injection Hf as <- <-.
  all: eexists; split; reflexivity.
Qed.

Lemma speculative_context_reused_witness :
  globals_ok (init_state 0) /\
  (forall v st0 r st1, copy_with_question v st0 = (r, st1) ->
     forall l, (l < next_loc st0)%nat -> heap_of st1 l = heap_of st0 l) /\
  let '(_, st') := speculative_prompt_caching_demo_t TYPING_MS sample_world (init_state 0) in
  exists new, out st' = out (init_state 0) ++ new /\
  forall rp tp rf tf, In (ESend ProbeCall rp tp) new -> In (ESend FinalCall rf tf) new ->
  exists block,
    json_get rp "messages" = Some (JArr [JObj [("role", JStr "user"); ("content", JArr [block])]]) /\
    json_get rf "messages" =
      Some (JArr [JObj [("role", JStr "user"); ("content", JArr [block; question_json])]]).
Proof.
  split; [apply init_globals_ok|].
  apply speculative_context_reused. apply init_globals_ok.
Defined.

(** C7: the statistics print the usage counts the service reports, as
    [str] renders them, and nothing else depends on them: two speculative
    runs whose services differ only in the usage counts return the same
    result and end with the same heap, allocator and clock; their logs
    are equal if the run raises, and otherwise share everything before
    the five printed statistics lines, which show each run's own counts. *)
Theorem usage_reported_unmodified think w u' st :
  let '(r1, s1) := speculative_prompt_caching_demo_t think w st in
  let '(r2, s2) := speculative_prompt_caching_demo_t think (with_usage_w w u') st in
  r1 = r2 /\ heap_of s1 = heap_of s2 /\ next_loc s1 = next_loc s2 /\ clock s1 = clock s2 /\
  ((exists e, r1 = inl e) /\ out s1 = out s2 \/
   (exists v, r1 = inr v) /\
   exists pre,
     out s1 = pre ++ map EPrint (query_statistics_lines (final_usage (w_svc w)) "Speculative Caching") /\
     out s2 = pre ++ map EPrint (query_statistics_lines u' "Speculative Caching")).
Proof.
  pose proof (speculative_demo_usage think w u' st) as H.
  destruct (speculative_prompt_caching_demo_t think w st) as [r1 s1].
  destruct (speculative_prompt_caching_demo_t think (with_usage_w w u') st) as [r2 s2].
  exact H.
Qed.


(* ------------------------------------------------------------------ *)
(** * Further properties of the code *)


(** With distinct resource names (the keys of a dict), every entry of the
    loader's map is the body of a successful (2xx) response to the
    resource's URL. *)
Theorem get_sqlite_sources_values srcs w st :
  List.NoDup (map fst srcs) ->
  match get_sqlite_sources_of srcs w st with
  | (inr m, _) =>
      forall fn url, In (fn, url) srcs ->
      exists d status text,
        w_fetch w url = FResponse d status text /\ 200 <= status < 300 /\ m !! fn = Some text
  | (inl _, _) => True
  end.
Proof.
  intros Hnd. rewrite get_sqlite_sources_of_run. cbv zeta. fold (downloads srcs w).
  destruct (first_failure (downloads srcs w)) as [[d e]|] eqn:F; [exact I|].
  intros fn url Hin.
  assert (Hd : In (download_file fn (w_fetch w url)) (downloads srcs w)).
  { apply in_map_iff. exists (fn, url). split; [reflexivity|exact Hin]. }
  destruct (download_file fn (w_fetch w url)) as [d [e|[k text]]] eqn:E.
  - exfalso. exact (first_failure_none _ _ _ F Hd).
  - destruct (download_file_ok _ _ _ _ _ E) as [-> [status [Hf Hs]]].
    exists d, status, text. split; [exact Hf|]. split; [exact Hs|].
    apply list_to_map_lookup_in.
    + unfold downloads. rewrite first_failure_none_keys by exact F. exact Hnd.
    + exact (successes_in _ _ _ Hd).
Qed.

Lemma get_sqlite_sources_values_witness :
  List.NoDup (map fst SQLITE_SOURCES) /\
  match get_sqlite_sources_of SQLITE_SOURCES sample_world (init_state 0) with
  | (inr m, _) =>
      forall fn url, In (fn, url) SQLITE_SOURCES ->
      exists d status text,
        w_fetch sample_world url = FResponse d status text /\ 200 <= status < 300 /\
        m !! fn = Some text
  | (inl _, _) => True
  end.
Proof.
  assert (H : List.NoDup (map fst SQLITE_SOURCES)).
  { simpl. constructor; [simpl; intros [E|[]]; discriminate|].
    constructor; [intros []|constructor]. }
  split; [exact H|]. apply get_sqlite_sources_values. exact H.
Defined.

(** [d[k] = v] followed by [d[k]] on a dict reads [v] back. *)
Theorem setitem_getitem l kvs k v st :
  heap_of st l = Some (ODict kvs) ->
  fst ((do _ <- setitem (VRef l) k v; getitem (VRef l) k) st) = inr v.
Proof.
  intros Hl. unfold setitem, getitem, bind, peek, store. rewrite Hl. cbn [heap_of fst].
  rewrite upd_eq, dict_get_set. reflexivity.
Qed.

Lemma setitem_getitem_witness :
  heap_of (init_state 0) DEFAULT_CLIENT_ARGS = Some default_client_args_obj /\
  fst ((do _ <- setitem (VRef DEFAULT_CLIENT_ARGS) "max_tokens" (VInt 1);
        getitem (VRef DEFAULT_CLIENT_ARGS) "max_tokens") (init_state 0)) = inr (VInt 1).
Proof.
  split; [reflexivity|]. apply (setitem_getitem _ (match default_client_args_obj with
                                                  | ODict kvs => kvs | OList _ => [] end)).
  reflexivity.
Defined.

(** [d[k] = v] keeps the dict's key order: an existing key stays in its
    place, a new key goes last (this is the key order of the probe's
    keyword arguments); afterwards [d[k]] is [v] and every other key keeps
    the value it had. *)
Theorem dict_set_keys kvs k v :
  map fst (dict_set kvs k v) =
  (if existsb (String.eqb k) (map fst kvs) then map fst kvs else map fst kvs ++ [k]) /\
  dict_get (dict_set kvs k v) k = Some v /\
  forall k', k' <> k -> dict_get (dict_set kvs k v) k' = dict_get kvs k'.
Proof.
  split; [|split; [apply dict_get_set|]].
  - induction kvs as [|[k' v'] r IH]; simpl; [reflexivity|].
    destruct (String.eqb_spec k k') as [->|Hne]; simpl; [reflexivity|].
    rewrite IH. destruct (existsb _ _); reflexivity.
  - intros k' Hk. induction kvs as [|[k0 v0] r IH]; simpl.
    + rewrite (proj2 (String.eqb_neq k' k) Hk). reflexivity.
    + destruct (String.eqb_spec k k0) as [->|Hne]; simpl.
      * rewrite (proj2 (String.eqb_neq k' k0) Hk). reflexivity.
      * destruct (String.eqb k' k0); [reflexivity|exact IH].
Qed.

(** [str.strip()] is idempotent. *)
Theorem py_strip_idempotent s : py_strip (py_strip s) = py_strip s.
Proof.
  unfold py_strip.
  set (L := lstrip_list s).
  set (R := lstrip_list (rev L)).
  assert (HR : lstrip_list (rev R) = rev R).
  { apply lstrip_keep.
    destruct (lstrip_split (rev L)) as [p [Hp _]]. fold R in Hp.
    destruct R as [|c r] eqn:ER using rev_ind; [exact I|].
    rewrite rev_app_distr. simpl.
    pose proof (lstrip_head s) as Hh. fold L in Hh.
    assert (EL : L = rev (p ++ r ++ [c])) by (rewrite <- Hp, rev_involutive; reflexivity).
    rewrite EL, !rev_app_distr in Hh. exact Hh. }
  rewrite HR, rev_involutive. f_equal.
  apply lstrip_keep. subst R. apply lstrip_head.
Qed.

(** A streamed text counts as blank in the loop's test ([text.strip()] is
    empty) exactly when every character of it is whitespace, the empty
    text included. *)
Theorem py_strip_blank_iff s :
  py_truthy (py_strip s) = false <-> Forall is_space s.
Proof.
  unfold py_strip.
  transitivity (lstrip_list s = []).
  - set (L := lstrip_list s).
    pose proof (lstrip_head s) as Hh. fold L in Hh.
    split.
    + intros H. destruct (rev (lstrip_list (rev L))) as [|c r] eqn:E; [|discriminate].
      apply (f_equal (@rev Z)) in E. rewrite rev_involutive in E. simpl in E.
      apply lstrip_nil_iff, (proj1 (Forall_rev_iff _ _)) in E.
      destruct L as [|c l]; [reflexivity|]. apply List.Forall_inv in E. unfold is_space in E. congruence.
    + intros ->. reflexivity.
  - apply lstrip_nil_iff.
Qed.

(** [str(n)] is injective on Python ints: distinct counts print
    differently. *)
Theorem py_str_int_injective a b : py_str_int a = py_str_int b -> a = b.
Proof.
  intros E. assert (H : show_attr (AInt a) = show_attr (AInt b)) by exact E.
  apply show_attr_inj in H. injection H as H. exact H.
Qed.

(** The printed statistics determine the usage record they were printed
    from: two usages print the same lines only if they are equal. *)
Theorem query_statistics_lines_injective u1 u2 qt :
  query_statistics_lines u1 qt = query_statistics_lines u2 qt -> u1 = u2.
Proof.
  destruct u1 as [i1 o1 r1 c1], u2 as [i2 o2 r2 c2]. unfold query_statistics_lines. simpl.
  intros E.
  pose proof (f_equal (fun l => nth 1 l EmptyString) E) as E1.
  pose proof (f_equal (fun l => nth 2 l EmptyString) E) as E2.
  pose proof (f_equal (fun l => nth 3 l EmptyString) E) as E3.
  pose proof (f_equal (fun l => nth 4 l EmptyString) E) as E4.
  cbn [nth] in E1, E2, E3, E4.
  apply append_cancel_l, append_cancel_l, py_str_int_injective in E1, E2.
  apply append_cancel_l, append_cancel_l, show_attr_inj in E3, E4.
  subst. reflexivity.
Qed.

(** [copy.deepcopy] of an acyclic object nested at most [FUEL] levels
    deep (the program's are at most four) never raises; the copy it
    returns is a freshly allocated object that the client serialises
    exactly as the original, at any depth of the serialisation, and every
    object that existed before is left as it was. *)
Theorem deepcopy_copy_serialises_same v st :
  closed_heap st -> below (next_loc st) v -> depth_ok FUEL (heap_of st) v = true ->
  match deepcopy FUEL v st with
  | (inl _, _) => False
  | (inr v', st') =>
      (forall g, to_json g (heap_of st') v' = to_json g (heap_of st) v) /\
      fresh_val (next_loc st) v' /\
      forall l, (l < next_loc st)%nat -> heap_of st' l = heap_of st l
  end.
Proof.
  intros Hc Hv Hd. destruct (deepcopy FUEL v st) as [r st'] eqn:E.
  destruct (deepcopy_json_deep _ _ _ _ _ Hc Hv Hd E) as [_ [[_ Hf] [v' [-> [_ Ht]]]]].
  destruct (deepcopy_frame _ _ _ _ _ E) as [_ [v'' [Ev [Hfr _]]]].
  injection Ev as <-. split; [exact Ht|]. split; [exact Hfr|exact Hf].
Qed.

Lemma deepcopy_copy_serialises_same_witness :
  (closed_heap (init_state 0) /\ below (next_loc (init_state 0)) (VRef DEFAULT_CLIENT_ARGS) /\
   depth_ok FUEL (heap_of (init_state 0)) (VRef DEFAULT_CLIENT_ARGS) = true) /\
  match deepcopy FUEL (VRef DEFAULT_CLIENT_ARGS) (init_state 0) with
  | (inl _, _) => False
  | (inr v', st') =>
      (forall g, to_json g (heap_of st') v' =
                 to_json g (heap_of (init_state 0)) (VRef DEFAULT_CLIENT_ARGS)) /\
      fresh_val (next_loc (init_state 0)) v' /\
      forall l, (l < next_loc (init_state 0))%nat -> heap_of st' l = heap_of (init_state 0) l
  end.
Proof.
  assert (H : closed_heap (init_state 0) /\
              below (next_loc (init_state 0)) (VRef DEFAULT_CLIENT_ARGS) /\
              depth_ok FUEL (heap_of (init_state 0)) (VRef DEFAULT_CLIENT_ARGS) = true)
    by (split; [apply init_closed|split; [cbv; lia|vm_compute; reflexivity]]).
  split; [exact H|].
  exact (deepcopy_copy_serialises_same _ _ (proj1 H) (proj1 (proj2 H)) (proj2 (proj2 H))).
Defined.

(** The streaming part never fails but by the final request's error; when
    it returns, the total time reported is the sum of the stream's unit
    delays, the clock has advanced by exactly that much, and the time to
    first token is absent only when every unit is blank, and otherwise
    lies between 0 and the total. *)
Theorem stream_and_report_timing svc qt m st :
  match stream_and_report svc qt m st with
  | (inl e, st') => final_error svc = Some e /\ clock st' = clock st
  | (inr (ft, total), st') =>
      final_error svc = None /\ total = stream_total svc /\
      clock st' = clock st + stream_total svc /\
      match ft with
      | None => Forall blank_unit (stream_units svc)
      | Some t => 0 <= t <= total
      end
  end.
Proof.
  destruct st as [h n c o]. unfold stream_and_report.
  cbv [bind get_time alloc open_stream request_body emit ret raise heap_of next_loc clock out].
  destruct (final_error svc) as [e|]; [split; reflexivity|].
  match goal with
  | |- context [first_token_loop ?s None ?u ?st1] =>
      destruct (first_token_loop_run s u st1)
        as [[HF HL]|[pre [d [text [post [HU [HF [HT HL]]]]]]]]; rewrite HL
  end;
  cbv [get_final_message at_clock bind get_time set_clock ret heap_of next_loc clock out];
  rewrite print_query_statistics_run; cbn [clock];
  replace (stream_total svc) with (delays (stream_units svc)) by reflexivity.
  - pose proof (delays_nonneg (stream_units svc)).
    repeat split; [lia|lia|exact HF].
  - rewrite HU, delays_app. cbn [delays fold_right fst].
    fold (delays post). pose proof (delays_nonneg pre). pose proof (delays_nonneg post).
    repeat split; lia.
Qed.

(** The loop over the stream leaves at the first unit with text: what the
    service streams after it is never read. *)
Theorem first_token_loop_ignores_rest start pre d text post post' st :
  Forall blank_unit pre -> py_truthy (py_strip text) = true ->
  first_token_loop start None (pre ++ (d, text) :: post) st =
  first_token_loop start None (pre ++ (d, text) :: post') st.
Proof.
  intros Hb Ht. rewrite !loop_first_text by assumption. reflexivity.
Qed.

Lemma first_token_loop_ignores_rest_witness :
  (Forall blank_unit [(400, pystr_of_ascii ""); (10, [160; 32; 12288])] /\
   py_truthy (py_strip (pystr_of_ascii "The")) = true) /\
  first_token_loop 0 None
    ([(400, pystr_of_ascii ""); (10, [160; 32; 12288])] ++
     (15, pystr_of_ascii "The") :: [(20, pystr_of_ascii " BtShared")])
    (init_state 0) =
  first_token_loop 0 None
    ([(400, pystr_of_ascii ""); (10, [160; 32; 12288])] ++ (15, pystr_of_ascii "The") :: [])
    (init_state 0).
Proof.
  assert (H : Forall blank_unit [(400, pystr_of_ascii ""); (10, [160; 32; 12288])] /\
              py_truthy (py_strip (pystr_of_ascii "The")) = true)
    by (split; [repeat constructor|reflexivity]).
  split; [exact H|]. exact (first_token_loop_ignores_rest _ _ _ _ _ _ _ (proj1 H) (proj2 H)).
Defined.

(** Neither demonstration changes an object that existed before it ran:
    in particular [DEFAULT_CLIENT_ARGS] and its [extra_headers] are still
    in place afterwards, whatever the service or the downloads do, so the
    probe's [max_tokens = 1] never leaks into a later run. *)
Theorem demos_keep_existing_objects think w st :
  globals_ok st ->
  (let '(_, st') := speculative_prompt_caching_demo_t think w st in
   globals_ok st' /\ forall l, (l < next_loc st)%nat -> heap_of st' l = heap_of st l) /\
  (let '(_, st') := standard_prompt_caching_demo_t think w st in
   globals_ok st' /\ forall l, (l < next_loc st)%nat -> heap_of st' l = heap_of st l).
Proof.
  intros Hg. split.
  - destruct (speculative_prompt_caching_demo_t think w st) as [r st'] eqn:E.
    pose proof (keeps_speculative_demo think w st r st' Hg E) as F.
    split; [exact (globals_frame _ _ Hg F)|exact (proj2 F)].
  - destruct (standard_prompt_caching_demo_t think w st) as [r st'] eqn:E.
    pose proof (keeps_standard_demo think w st r st' Hg E) as F.
    split; [exact (globals_frame _ _ Hg F)|exact (proj2 F)].
Qed.

Lemma demos_keep_existing_objects_witness :
  globals_ok (init_state 0) /\
  (let '(_, st') := speculative_prompt_caching_demo_t TYPING_MS sample_world (init_state 0) in
   globals_ok st' /\ forall l, (l < next_loc (init_state 0))%nat -> heap_of st' l = heap_of (init_state 0) l) /\
  (let '(_, st') := standard_prompt_caching_demo_t TYPING_MS sample_world (init_state 0) in
   globals_ok st' /\ forall l, (l < next_loc (init_state 0))%nat -> heap_of st' l = heap_of (init_state 0) l).
Proof.
  split; [apply init_globals_ok|]. apply demos_keep_existing_objects. apply init_globals_ok.
Defined.

(** The standard demonstration sends at most one request, the final one,
    and no probe.  It sends nothing only when a download failed.
    Otherwise it sends the final request exactly when the typing pause
    ends, and its messages are the context block built from the two
    downloaded bodies, followed by the question. *)
Theorem standard_demo_single_request think w st :
  globals_ok st ->
  let '(_, st') := standard_prompt_caching_demo_t think w st in
  exists new, out st' = out st ++ new /\
  ((sends new = [] /\
    ~ (forall fn url, In (fn, url) SQLITE_SOURCES ->
       exists d status text, w_fetch w url = FResponse d status text /\ 200 <= status < 300)) \/
   (exists rf tf,
      sends new = [ESend FinalCall rf tf] /\ In (ESlept tf) new /\
      exists bh bc,
        fetched_text (w_fetch w BTREE_H_URL) = Some bh /\
        fetched_text (w_fetch w BTREE_C_URL) = Some bc /\
        json_get rf "messages" =
          Some (JArr [JObj [("role", JStr "user");
                            ("content", JArr [context_block_json
                                                (context_text (strftime_ts (w_now w)) bh bc);
                                              question_json])]]))).
Proof.
  intros Hg. destruct w as [now fetch [lat perr ferr units usage]].
  transport.
  unfold standard_prompt_caching_demo_t, create_initial_message.
  destruct (create_initial_message_run_texts (mk_world now fetch (mk_service lat perr ferr units usage))
              (canon st)) as [[e [t [Hc Hn]]]|[bh [bc [t [Fh [Fc Hc]]]]]];
    [rewrite (bind_inl _ _ _ _ _ Hc)|rewrite (bind_inr _ _ _ _ _ Hc)]; ccbv.
  2: destruct ferr as [fe|]; ccbv.
  3: loop_run.
  all: eexists; split; [new_events|].
  - left. split; [reflexivity|exact Hn].
  - right. do 2 eexists. split; [reflexivity|]. split; [in_find|].
    exists bh, bc. split; [exact Fh|]. split; [exact Fc|]. reflexivity.
  - right. do 2 eexists. split; [reflexivity|]. split; [in_find|].
    exists bh, bc. split; [exact Fh|]. split; [exact Fc|]. reflexivity.
Qed.

Lemma standard_demo_single_request_witness :
  globals_ok (init_state 0) /\
  let '(_, st') := standard_prompt_caching_demo_t TYPING_MS sample_world (init_state 0) in
  exists new, out st' = out (init_state 0) ++ new /\
  ((sends new = [] /\
    ~ (forall fn url, In (fn, url) SQLITE_SOURCES ->
       exists d status text, w_fetch sample_world url = FResponse d status text /\ 200 <= status < 300)) \/
   (exists rf tf,
      sends new = [ESend FinalCall rf tf] /\ In (ESlept tf) new /\
      exists bh bc,
        fetched_text (w_fetch sample_world BTREE_H_URL) = Some bh /\
        fetched_text (w_fetch sample_world BTREE_C_URL) = Some bc /\
        json_get rf "messages" =
          Some (JArr [JObj [("role", JStr "user");
                            ("content", JArr [context_block_json
                                                (context_text (strftime_ts (w_now sample_world)) bh bc);
                                              question_json])]]))).
Proof.
  split; [apply init_globals_ok|]. apply standard_demo_single_request. apply init_globals_ok.
Defined.

(** In the speculative demonstration the final request goes out exactly
    when the later of the typing pause and the probe ends, both counted
    from the moment the probe is sent. *)
Theorem speculative_final_send_time think w st :
  globals_ok st ->
  let '(_, st') := speculative_prompt_caching_demo_t think w st in
  exists new, out st' = out st ++ new /\
  forall rp tp rf tf, In (ESend ProbeCall rp tp) new -> In (ESend FinalCall rf tf) new ->
  tf = tp + Z.max (Z.max 0 think) (Z.max 0 (probe_latency (w_svc w))).
Proof.
  intros Hg. destruct w as [now fetch [lat perr ferr units usage]].
  transport.
  unfold speculative_prompt_caching_demo_t, create_initial_message.
  canon_run.
  2: destruct perr as [pe|]; [|destruct ferr as [fe|]]; ccbv.
  4: loop_run.
  all: eexists; split; [new_events|].
  all: intros rp tp rf tf Hp Hf; in_cases Hp; in_cases Hf.
  all: injection Hp as <- <-; injection Hf as <- <-.
  all: cbn [probe_latency w_svc]; lia.
Qed.

Lemma speculative_final_send_time_witness :
  globals_ok (init_state 0) /\
  let '(_, st') := speculative_prompt_caching_demo_t TYPING_MS sample_world (init_state 0) in
  exists new, out st' = out (init_state 0) ++ new /\
  forall rp tp rf tf, In (ESend ProbeCall rp tp) new -> In (ESend FinalCall rf tf) new ->
  tf = tp + Z.max (Z.max 0 TYPING_MS) (Z.max 0 (probe_latency (w_svc sample_world))).
Proof.
  split; [apply init_globals_ok|]. apply speculative_final_send_time. apply init_globals_ok.
Defined.

(** The usage counts the service reports reach the standard
    demonstration's printed statistics and nothing else: two runs whose
    services differ only in those counts return the same result and end
    with the same heap, allocator and clock, and their logs differ at most
    in the five statistics lines printed last. *)
Theorem standard_usage_reported_unmodified think w u' st :
  usage_rel (final_usage (w_svc w)) u' "Standard Caching"
    (standard_prompt_caching_demo_t think w st)
    (standard_prompt_caching_demo_t think (with_usage_w w u') st).
Proof. apply standard_demo_usage. Qed.

(** When the final request fails (and the probe does not), the speculative
    demonstration raises that error after both requests went out, and
    prints no statistics; if the context cannot be built it raises before
    logging anything. *)
Theorem speculative_final_error_raises think w st e :
  globals_ok st -> probe_error (w_svc w) = None -> final_error (w_svc w) = Some e ->
  let '(r, st') := speculative_prompt_caching_demo_t think w st in
  (r = inl e /\
   exists new, out st' = out st ++ new /\
   (forall line, ~ In (EPrint line) new) /\
   (exists rp tp, In (ESend ProbeCall rp tp) new) /\
   (exists rf tf, In (ESend FinalCall rf tf) new)) \/
  ((exists e', r = inl e') /\ out st' = out st).
Proof.
  intros Hg Hp Hf. destruct w as [now fetch [lat perr ferr units usage]].
  cbn [w_svc probe_error final_error] in Hp, Hf. subst perr ferr.
  transport.
  unfold speculative_prompt_caching_demo_t, create_initial_message.
  canon_run.
  - right. split; [eexists; reflexivity|reflexivity].
  - left. split; [reflexivity|]. eexists. split; [new_events|].
    split; [intros line Hin; in_cases Hin|].
    split; do 2 eexists; in_find.
Qed.

Lemma speculative_final_error_raises_witness :
  (globals_ok (init_state 0) /\
   probe_error (w_svc (mk_world sample_now ok_fetch
     (mk_service 2500 None (Some ReadTimeout) [] sample_usage))) = None /\
   final_error (w_svc (mk_world sample_now ok_fetch
     (mk_service 2500 None (Some ReadTimeout) [] sample_usage))) = Some ReadTimeout) /\
  let '(r, st') := speculative_prompt_caching_demo_t TYPING_MS
      (mk_world sample_now ok_fetch (mk_service 2500 None (Some ReadTimeout) [] sample_usage))
      (init_state 0) in
  (r = inl ReadTimeout /\
   exists new, out st' = out (init_state 0) ++ new /\
   (forall line, ~ In (EPrint line) new) /\
   (exists rp tp, In (ESend ProbeCall rp tp) new) /\
   (exists rf tf, In (ESend FinalCall rf tf) new)) \/
  ((exists e', r = inl e') /\ out st' = out (init_state 0)).
Proof.
  assert (H : globals_ok (init_state 0)) by apply init_globals_ok.
  split; [split; [exact H|split; reflexivity]|].
  exact (speculative_final_error_raises TYPING_MS
           (mk_world sample_now ok_fetch (mk_service 2500 None (Some ReadTimeout) [] sample_usage))
           (init_state 0) ReadTimeout H eq_refl eq_refl).
Defined.

Lemma py_str_int_injective_witness : py_str_int 151629 = py_str_int 151629 /\ 151629 = 151629.
Proof.
  assert (H : py_str_int 151629 = py_str_int 151629) by reflexivity.
  split; [exact H|exact (py_str_int_injective _ _ H)].
Defined.

Lemma query_statistics_lines_injective_witness :
  query_statistics_lines sample_usage "Speculative Caching" =
    query_statistics_lines sample_usage "Speculative Caching" /\ sample_usage = sample_usage.
Proof.
  assert (H : query_statistics_lines sample_usage "Speculative Caching" =
              query_statistics_lines sample_usage "Speculative Caching") by reflexivity.
  split; [exact H|exact (query_statistics_lines_injective _ _ _ H)].
Defined.


(* ------------------------------------------------------------------ *)
(** * Rounding of the improvement percentages *)

Import Float64.
Local Open Scope R_scope.

(** C8 (corrected): for standard timing [s] and speculative timing [p],
    Python floats between [2^-100] and [2^100] seconds, the computed
    percentage [(s - p) / s * 100] (the expression of [ttft_improvement]
    and of [total_improvement]) is a finite float equal to the exact value
    [(s - p) / s * 100] up to a relative error of at most
    [(1 + 2^-53)^3 - 1], the error of three binary64 roundings. *)
Theorem improvement_within_binary64_rounding s p :
  valid_binary prec emax s = true -> valid_binary prec emax p = true ->
  bpow (-100) <= SF2R s <= bpow 100 -> bpow (-100) <= SF2R p <= bpow 100 ->
  exists r, improvement s p = Some r /\ is_finite r = true /\
    exists d, Rabs d <= (1 + u) ^ 3 - 1 /\
      SF2R r = (SF2R s - SF2R p) / SF2R s * 100 * (1 + d).
Proof.
  intros Hvs Hvp Hs Hp.
  destruct (valid_pos_normal s Hvs Hs) as (ms & es & -> & Hms & Hes).
  destruct (valid_pos_normal p Hvp Hp) as (mp & ep & -> & Hmp & Hep).
  assert (Ea : SF2R (S754_finite false ms es) = IZR (Zpos ms) * bpow es) by (cbn; ring).
  assert (Eb : SF2R (S754_finite false mp ep) = IZR (Zpos mp) * bpow ep) by (cbn; ring).
  rewrite Ea in Hs |- *. rewrite Eb in Hp |- *. clear Ea Eb.
  remember (IZR (Zpos ms) * bpow es) as a eqn:Ea.
  remember (IZR (Zpos mp) * bpow ep) as b eqn:Eb.
  pose proof (bpow_lt 100 1022 ltac:(lia)) as H100.
  pose proof (bpow_gt0 (-100)) as Hpos.
  pose proof u_small as Hu.
  assert (Hu3 : 0 <= (1 + u) ^ 3 - 1) by nra.
  unfold improvement.
  destruct (sub_rounds ms es mp ep ltac:(lia) ltac:(lia) ltac:(subst a; lra) ltac:(subst b; lra))
    as [[Eab Ez] | (sd & Hlow & Hr)]; rewrite <- Ea, <- Eb in *.
  - rewrite Ez. cbn [py_float_div SFdiv xorb]. rewrite float_of_int_100. cbn [SFmul xorb].
    exists (S754_zero false). split; [reflexivity|]. split; [reflexivity|].
    exists 0. split; [rewrite Rabs_R0; exact Hu3|]. cbn [SF2R]. rewrite Eab. field. lra.
  - destruct (rounds_mag _ _ _ Hr) as (md & ed & d1 & Ef & Hmd & Hd1 & HX).
    rewrite Ef. cbn [py_float_div].
    set (D0 := sgn sd * (a - b)) in *.
    assert (HD0 : bpow (-152) <= D0 <= bpow 100).
    { split.
      - eapply Rle_trans; [|exact Hlow]. apply bpow_le. lia.
      - unfold D0. destruct sd; unfold sgn; lra. }
    assert (HXb : bpow (-153) <= IZR (Zpos md) * bpow ed <= bpow 101).
    { rewrite HX. apply (bpow_bounds_weaken _ (-152 + -1) (100 + 1)); [lia|lia|].
      apply bpow_mul_bounds; [exact HD0|apply one_plus_bounds; exact Hd1]. }
    pose proof (bpow_inv_bounds a (-100) 100 Hs) as Hinv.
    assert (HQ : bpow (-253) <= IZR (Zpos md) * bpow ed / a <= bpow 201).
    { unfold Rdiv. apply (bpow_bounds_weaken _ (-153 + - 100) (101 + - -100)); [lia|lia|].
      apply bpow_mul_bounds; assumption. }
    pose proof (div_rounds sd md ed ms es Hmd Hms) as Hdiv. cbv zeta in Hdiv. rewrite <- Ea in Hdiv.
    specialize (Hdiv (bpow_bounds_weaken _ (-253) 201 (-1000) 1000 ltac:(lia) ltac:(lia) HQ)).
    destruct (rounds_mag _ _ _ Hdiv) as (mq & eq & d2 & Eq & Hmq & Hd2 & HY).
    rewrite Eq, float_of_int_100.
    assert (HYb : bpow (-254) <= IZR (Zpos mq) * bpow eq <= bpow 202).
    { rewrite HY. apply (bpow_bounds_weaken _ (-253 + -1) (201 + 1)); [lia|lia|].
      apply bpow_mul_bounds; [exact HQ|apply one_plus_bounds; exact Hd2]. }
    assert (HZb : bpow (-248) <= IZR (Zpos mq) * bpow eq * (IZR (Zpos 7036874417766400) * bpow (-46))
                  <= bpow 209).
    { rewrite hundred_value. apply (bpow_bounds_weaken _ (-254 + 6) (202 + 7)); [lia|lia|].
      apply bpow_mul_bounds; [exact HYb|exact hundred_bounds]. }
    pose proof (mul_rounds sd mq eq 7036874417766400 (-46) Hmq hundred_normal) as Hmul.
    cbv zeta in Hmul.
    specialize (Hmul (bpow_bounds_weaken _ (-248) 209 (-1000) 1000 ltac:(lia) ltac:(lia) HZb)).
    destruct Hmul as (mr & er & Er & Hmr & d3 & Hd3 & Hv).
    rewrite Er. exists (S754_finite sd mr er). split; [reflexivity|]. split; [reflexivity|].
    exists ((1 + d1) * (1 + d2) * (1 + d3) - 1). split.
    + pose proof (rel_mul d1 d2 u u Hd1 Hd2) as H12.
      pose proof (rel_mul _ d3 _ u H12 Hd3) as H123.
      replace (1 + ((1 + d1) * (1 + d2) - 1)) with ((1 + d1) * (1 + d2)) in H123 by ring.
      replace ((1 + u) ^ 3 - 1) with ((1 + ((1 + u) * (1 + u) - 1)) * (1 + u) - 1) by ring.
      exact H123.
    + rewrite <- Er, Hv, hundred_value, HY, HX. unfold D0.
      destruct sd; unfold sgn; field; lra.
Qed.


Lemma improvement_within_binary64_rounding_witness :
  valid_binary prec emax (float_of_int 3) = true /\
  valid_binary prec emax (float_of_int 1) = true /\
  bpow (-100) <= SF2R (float_of_int 3) <= bpow 100 /\
  bpow (-100) <= SF2R (float_of_int 1) <= bpow 100 /\
  exists r, improvement (float_of_int 3) (float_of_int 1) = Some r /\ is_finite r = true /\
    exists d, Rabs d <= (1 + u) ^ 3 - 1 /\
      SF2R r = (SF2R (float_of_int 3) - SF2R (float_of_int 1)) / SF2R (float_of_int 3) * 100 * (1 + d).
Proof.
  assert (V3 : valid_binary prec emax (float_of_int 3) = true) by (vm_compute; reflexivity).
  assert (V1 : valid_binary prec emax (float_of_int 1) = true) by (vm_compute; reflexivity).
  assert (B3 : bpow (-100) <= SF2R (float_of_int 3) <= bpow 100)
    by (rewrite float_of_int_3_value; apply timing_bounds_1_3; lra).
  assert (B1 : bpow (-100) <= SF2R (float_of_int 1) <= bpow 100)
    by (rewrite float_of_int_1_value; apply timing_bounds_1_3; lra).
  split; [exact V3|]. split; [exact V1|]. split; [exact B3|]. split; [exact B1|].
  exact (improvement_within_binary64_rounding (float_of_int 3) (float_of_int 1) V3 V1 B3 B1).
Defined.

(** C8 counterexample: with a standard timing of 3.0 and a speculative
    timing of 1.0 seconds, the computed percentage is the float
    [4691249611844266 * 2^-46], not [(3 - 1) / 3 * 100 = 200/3]. *)
Lemma improvement_not_exact_counterexample :
  exists r, improvement (float_of_int 3) (float_of_int 1) = Some r /\
    SF2R r <> (SF2R (float_of_int 3) - SF2R (float_of_int 1)) / SF2R (float_of_int 3) * 100.
Proof.
  exists (S754_finite false 4691249611844266 (-46)). split; [vm_compute; reflexivity|].
  rewrite float_of_int_3_value, float_of_int_1_value. cbn [SF2R sgn].
  rewrite bpow_Zneg. replace (2 ^ Zpos 46)%Z with 70368744177664%Z by reflexivity.
  intros H. field_simplify in H. lra.
Qed.
